(** * DoctorClaw: action proposal / approval / execution core

    A shallow embedding of the parts of [server.mjs] (kept in
    [src/install.bat] after the installer script) and [terminal.mjs]
    that decide the safety gate, the executor, the action scanner and the
    terminal approval loop, together with the properties established
    about them.  It also covers the read-eval-print loop of the
    terminal, its text wrapping, the reading of the model's response
    line by line (in the terminal and in the [/api/chat] handler), and
    the search for the OpenClaw installation.

    Conventions.
    - A JavaScript string is a [text]: the list of its code units.  Code
      units are modelled as 8-bit characters (the Latin-1 range).
    - [null] / [undefined] is [None].
    - A JavaScript regular expression that is only ever used through
      [.test] is a [regex] term run by [rx_test]; the six tag expressions
      of [terminal.mjs], which are used through [exec] and [replace], are
      written out as scanning functions next to the expression they
      embed. *)

From Stdlib Require Import Ascii String List Arith NArith Bool Lia.
From stdpp Require Import base option list gmap strings.
Import ListNotations.

Local Open Scope list_scope.

(** ** Text *)

Abbreviation text := (list ascii).

Definition txt (s : string) : text := list_ascii_of_string s.

Module Js.

Definition code (c : ascii) : nat := nat_of_ascii c.

Definition in_range (lo hi : nat) (c : ascii) : bool :=
  (lo <=? code c) && (code c <=? hi).

(** White space and line terminators below U+0100, the set shared by
    [\s], [trim] and [trimEnd]: TAB, LF, VT, FF, CR, SP, NBSP. *)
Definition is_space (c : ascii) : bool :=
  in_range 9 13 c || (code c =? 32) || (code c =? 160).

(** [.] without the [s] flag: anything but LF and CR. *)
Definition is_dot (c : ascii) : bool :=
  negb ((code c =? 10) || (code c =? 13)).

(** Case mapping of one code unit below U+0100: the ASCII letters and
    the Latin-1 letters U+00C0..U+00DE and U+00E0..U+00FE, the
    multiplication and division signs apart.  [toUpperChar] is the
    [Canonicalize] of a pattern with the [i] flag: U+00B5, U+00DF and
    U+00FF, whose upper-case forms are not single code units of the
    range, stay distinct from every other code unit. *)
Definition is_upper (c : ascii) : bool :=
  in_range 65 90 c || in_range 192 214 c || in_range 216 222 c.

Definition is_lower (c : ascii) : bool :=
  in_range 97 122 c || in_range 224 246 c || in_range 248 254 c.

Definition toLowerChar (c : ascii) : ascii :=
  if is_upper c then ascii_of_nat (code c + 32) else c.

Definition toUpperChar (c : ascii) : ascii :=
  if is_lower c then ascii_of_nat (code c - 32) else c.

Definition toLowerCase (s : text) : text := map toLowerChar s.

(** [\w] *)
Definition is_word (c : ascii) : bool :=
  in_range 48 57 c || in_range 65 90 c || in_range 97 122 c || (code c =? 95).

Definition ascii_eqb (a b : ascii) : bool := Ascii.eqb a b.

(** [s.startsWith(p)] *)
Fixpoint startsWith (s p : text) {struct p} : bool :=
  match p with
  | [] => true
  | c :: p' =>
      match s with
      | [] => false
      | d :: s' => ascii_eqb d c && startsWith s' p'
      end
  end.

(** [s.endsWith(p)] *)
Definition endsWith (s p : text) : bool :=
  startsWith (rev s) (rev p).

(** [s.indexOf(p)], [None] for -1. *)
Fixpoint indexOf (s p : text) : option nat :=
  if startsWith s p then Some 0
  else match s with
       | [] => None
       | _ :: s' => option_map S (indexOf s' p)
       end.

Definition includes (s p : text) : bool :=
  match indexOf s p with Some _ => true | None => false end.

Fixpoint trimStart (s : text) : text :=
  match s with
  | c :: s' => if is_space c then trimStart s' else s
  | [] => []
  end.

Definition trimEnd (s : text) : text := rev (trimStart (rev s)).

Definition trim (s : text) : text := trimEnd (trimStart s).

(** [s.split(c).pop()]: what follows the last [c], the whole of [s]
    when there is none. *)
Fixpoint afterLast (c : ascii) (s : text) : text :=
  match s with
  | [] => []
  | d :: s' =>
      if ascii_eqb d c && negb (existsb (ascii_eqb c) s') then s'
      else if existsb (ascii_eqb c) s' then afterLast c s'
      else d :: s'
  end.

(** [s.replace(/c/g, r)] for a one-character pattern. *)
Definition replaceChar (c : ascii) (r : text) (s : text) : text :=
  flat_map (fun d => if ascii_eqb d c then r else [d]) s.

(** Truthiness of a string-or-null value, and [a || b]. *)
Definition truthy (v : option text) : bool :=
  match v with
  | Some (_ :: _) => true
  | _ => false
  end.

Definition or_else (a : option text) (b : text) : text :=
  match a with
  | Some (c :: s) => c :: s
  | _ => b
  end.

End Js.

(** ** Regular expressions used through [.test]

    [test] only asks whether some substring belongs to the language of
    the pattern, so greedy and lazy choices are not observable and the
    matcher may enumerate every way to match. *)

Inductive regex : Type :=
| Eps
| Chr (c : ascii)
| Cls (p : ascii -> bool)
| WordB
| Seq (r1 r2 : regex)
| Alt (r1 r2 : regex)
| Star (r : regex).

Module Rx.

(** A position in the subject: the code unit just before it (if any)
    and what is left. *)
Definition pos : Type := option ascii * text.

Definition chr_ok (ic : bool) (c d : ascii) : bool :=
  if ic then Js.ascii_eqb (Js.toUpperChar d) (Js.toUpperChar c)
  else Js.ascii_eqb d c.

Definition cls_ok (ic : bool) (p : ascii -> bool) (d : ascii) : bool :=
  p d || (ic && (p (Js.toUpperChar d) || p (Js.toLowerChar d))).

Definition word_before (x : pos) : bool :=
  match fst x with Some c => Js.is_word c | None => false end.

Definition word_after (x : pos) : bool :=
  match snd x with c :: _ => Js.is_word c | [] => false end.

(** Iterate [step], keeping only iterations that consume input; every
    iteration shortens what is left, so [fuel] at least the length of
    the rest is never used up. *)
Fixpoint star_loop (step : pos -> list pos) (fuel : nat) (x : pos) : list pos :=
  x :: match fuel with
       | 0 => []
       | S n =>
           flat_map
             (fun y => if length (snd y) <? length (snd x)
                       then star_loop step n y else [])
             (step x)
       end.

(** All positions at which a match of [r] starting at [x] can end. *)
Fixpoint run (ic : bool) (r : regex) (x : pos) : list pos :=
  match r with
  | Eps => [x]
  | Chr c =>
      match snd x with
      | d :: s => if chr_ok ic c d then [(Some d, s)] else []
      | [] => []
      end
  | Cls p =>
      match snd x with
      | d :: s => if cls_ok ic p d then [(Some d, s)] else []
      | [] => []
      end
  | WordB => if xorb (word_before x) (word_after x) then [x] else []
  | Seq r1 r2 => flat_map (run ic r2) (run ic r1 x)
  | Alt r1 r2 => run ic r1 x ++ run ic r2 x
  | Star r1 => star_loop (run ic r1) (length (snd x)) x
  end.

Definition matches_at (ic : bool) (r : regex) (x : pos) : bool :=
  match run ic r x with [] => false | _ :: _ => true end.

(** Try every start position, left to right. *)
Fixpoint search (ic : bool) (r : regex) (prev : option ascii) (s : text) : bool :=
  matches_at ic r (prev, s) ||
  match s with
  | [] => false
  | c :: s' => search ic r (Some c) s'
  end.

Fixpoint lit (s : text) : regex :=
  match s with
  | [] => Eps
  | c :: s' => Seq (Chr c) (lit s')
  end.

Definition plus (r : regex) : regex := Seq r (Star r).
Definition opt (r : regex) : regex := Alt r Eps.
Fixpoint seqs (rs : list regex) : regex :=
  match rs with
  | [] => Eps
  | r :: rs' => Seq r (seqs rs')
  end.
Fixpoint alts (r : regex) (rs : list regex) : regex :=
  match rs with
  | [] => r
  | r' :: rs' => Alt r (alts r' rs')
  end.

End Rx.

(** A pattern with its [i] flag. *)
Record RegExp : Type := mkRegExp { rx_body : regex; rx_ignoreCase : bool }.

(** [pattern.test(s)] for a pattern without [g] or [y]. *)
Definition rx_test (p : RegExp) (s : text) : bool :=
  Rx.search (rx_ignoreCase p) (rx_body p) None s.


(** ** SafetyGate ([server.mjs], section "Safety") *)

Module SafetyGate.

Import Rx.

Definition L (s : string) : regex := lit (txt s).
Definition sp : regex := Cls Js.is_space.
Definition any : regex := Star (Cls Js.is_dot).
(** [[a-zA-Z]] *)
Definition alpha : regex :=
  Cls (fun c => Js.in_range 97 122 c || Js.in_range 65 90 c).
(** [[06]] *)
Definition zero_or_six : regex :=
  Cls (fun c => (Js.code c =? 48) || (Js.code c =? 54)).

Definition ci (r : regex) : RegExp := mkRegExp r true.
Definition cs (r : regex) : RegExp := mkRegExp r false.

(** The list is in the order of the source; each entry is preceded by
    the pattern it embeds. *)
Definition BLOCKED_COMMANDS : list RegExp :=
  [ (* /rm\s+(-[a-zA-Z]*f|-[a-zA-Z]*r|--force|--recursive).*\//i *)
    ci (seqs [L "rm"; plus sp;
              alts (seqs [L "-"; Star alpha; L "f"])
                   [seqs [L "-"; Star alpha; L "r"]; L "--force"; L "--recursive"];
              any; L "/"]);
    (* /rm\s+-rf\s/i *)
    ci (seqs [L "rm"; plus sp; L "-rf"; sp]);
    (* /mkfs/i *)
    ci (L "mkfs");
    (* /dd\s+if=/i *)
    ci (seqs [L "dd"; plus sp; L "if="]);
    (* /chmod\s+(-R\s+)?777\s+\//i *)
    ci (seqs [L "chmod"; plus sp; opt (seqs [L "-R"; plus sp]); L "777"; plus sp; L "/"]);
    (* /chown\s+-R\s+.*\s+\//i *)
    ci (seqs [L "chown"; plus sp; L "-R"; plus sp; any; plus sp; L "/"]);
    (* />\s*\/dev\/sd/i *)
    ci (seqs [L ">"; Star sp; L "/dev/sd"]);
    (* /:(){ :\|:& };:/   -- "()" is an empty group, "{" and "}" are
       literal since no digits follow the brace *)
    cs (seqs [L ":"; Eps; L "{ :|:& };:"]);
    (* /shutdown/i *)
    ci (L "shutdown");
    (* /reboot/i *)
    ci (L "reboot");
    (* /init\s+[06]/i *)
    ci (seqs [L "init"; plus sp; zero_or_six]);
    (* /systemctl\s+(poweroff|halt|reboot)/i *)
    ci (seqs [L "systemctl"; plus sp; alts (L "poweroff") [L "halt"; L "reboot"]]);
    (* /wipefs/i *)
    ci (L "wipefs");
    (* /fdisk/i *)
    ci (L "fdisk");
    (* /parted/i *)
    ci (L "parted");
    (* /\bformat\b.*\/(dev|disk)/i *)
    ci (seqs [WordB; L "format"; WordB; any; L "/"; alts (L "dev") [L "disk"]]);
    (* /curl.*\|\s*(bash|sh|zsh)/i *)
    ci (seqs [L "curl"; any; L "|"; Star sp; alts (L "bash") [L "sh"; L "zsh"]]);
    (* /wget.*\|\s*(bash|sh|zsh)/i *)
    ci (seqs [L "wget"; any; L "|"; Star sp; alts (L "bash") [L "sh"; L "zsh"]]);
    (* /python.*-c.*import\s+os.*system/i *)
    ci (seqs [L "python"; any; L "-c"; any; L "import"; plus sp; L "os"; any; L "system"]);
    (* /iptables\s+-F/i *)
    ci (seqs [L "iptables"; plus sp; L "-F"]);
    (* /ufw\s+disable/i *)
    ci (seqs [L "ufw"; plus sp; L "disable"]);
    (* /passwd\s+root/i *)
    ci (seqs [L "passwd"; plus sp; L "root"]);
    (* /userdel/i *)
    ci (L "userdel");
    (* /groupdel/i *)
    ci (L "groupdel");
    (* /mv\s+\/etc/i *)
    ci (seqs [L "mv"; plus sp; L "/etc"]);
    (* /rm\s+\/etc/i *)
    ci (seqs [L "rm"; plus sp; L "/etc"]);
    (* /truncate.*\/etc/i *)
    ci (seqs [L "truncate"; any; L "/etc"]);
    (* /echo\s+.*>\s*\/etc\/(passwd|shadow|sudoers|fstab)/i *)
    ci (seqs [L "echo"; plus sp; any; L ">"; Star sp; L "/etc/";
              alts (L "passwd") [L "shadow"; L "sudoers"; L "fstab"]]) ].

(** [BLOCKED_COMMANDS.some(pattern => pattern.test(cmd))] *)
Definition isCommandBlocked (cmd : text) : bool :=
  existsb (fun pattern => rx_test pattern cmd) BLOCKED_COMMANDS.

Definition DEFAULT_READ_PATHS : list text :=
  map txt [ "/etc/"; "/var/log/"; "/var/lib/"; "/tmp/";
            "/home/"; "/opt/"; "/usr/local/etc/";
            "/proc/cpuinfo"; "/proc/meminfo"; "/proc/loadavg";
            "/proc/version"; "/proc/uptime"; "/proc/net/" ]%string.

Definition DEFAULT_WRITE_PATHS : list text := map txt [ "/tmp/" ]%string.

(** [DEFAULTS.read_paths] and [DEFAULTS.write_paths] of the setup wizard. *)
Definition DEFAULTS_read_paths : list text :=
  map txt [ "/etc/"; "/var/log/"; "/var/lib/"; "/tmp/"; "/home/"; "/opt/";
            "/usr/local/etc/"; "/proc/cpuinfo"; "/proc/meminfo";
            "/proc/loadavg"; "/proc/version"; "/proc/uptime"; "/proc/net/" ]%string.

Definition DEFAULTS_write_paths : list text := map txt [ "/tmp/" ]%string.

Definition DEFAULTS_openclaw_dir : text := txt "/opt/openclaw".

(** [config.read_paths || [...DEFAULT_READ_PATHS, OPENCLAW_DIR]] and
    [config.write_paths || [...DEFAULT_WRITE_PATHS, process.cwd(), OPENCLAW_DIR]];
    an array is truthy even when empty. *)
Definition live_read_paths (config_read_paths : option (list text))
    (OPENCLAW_DIR : text) : list text :=
  match config_read_paths with
  | Some ps => ps
  | None => DEFAULT_READ_PATHS ++ [OPENCLAW_DIR]
  end.

Definition live_write_paths (config_write_paths : option (list text))
    (cwd OPENCLAW_DIR : text) : list text :=
  match config_write_paths with
  | Some ps => ps
  | None => DEFAULT_WRITE_PATHS ++ [cwd; OPENCLAW_DIR]
  end.

(** [SAFE_READ_PATHS.some(p => filepath.startsWith(p))] *)
Definition isPathReadable (SAFE_READ_PATHS : list text) (filepath : text) : bool :=
  existsb (fun p => Js.startsWith filepath p) SAFE_READ_PATHS.

(** [SAFE_WRITE_PATHS.some(p => filepath.startsWith(p))] *)
Definition isPathWritable (SAFE_WRITE_PATHS : list text) (filepath : text) : bool :=
  existsb (fun p => Js.startsWith filepath p) SAFE_WRITE_PATHS.

End SafetyGate.


(** ** Node's [path] module, POSIX flavour (after [lib/path.js]) *)

Module NodePath.

Definition slash : ascii := "/"%char.

(** [s.split(c)] *)
Fixpoint split_on (c : ascii) (s : text) : list text :=
  match s with
  | [] => [[]]
  | d :: s' =>
      if Js.ascii_eqb d c then [] :: split_on c s'
      else match split_on c s' with
           | h :: t => (d :: h) :: t
           | [] => [[d]]
           end
  end.

Definition text_eqb (a b : text) : bool := bool_decide (a = b).

(** One step of [normalizeString]: [res] is the stack of kept segments,
    innermost first. *)
Definition push_segment (allowAboveRoot : bool) (res : list text) (seg : text)
  : list text :=
  if text_eqb seg [] || text_eqb seg (txt ".") then res
  else if text_eqb seg (txt "..") then
    match res with
    | top :: below =>
        if text_eqb top (txt "..")
        then (if allowAboveRoot then seg :: res else res)
        else below
    | [] => if allowAboveRoot then [seg] else []
    end
  else seg :: res.

Fixpoint join_with (sep : text) (segs : list text) : text :=
  match segs with
  | [] => []
  | [x] => x
  | x :: rest => x ++ sep ++ join_with sep rest
  end.

Definition normalizeString (path : text) (allowAboveRoot : bool) : text :=
  join_with [slash]
    (rev (fold_left (push_segment allowAboveRoot) (split_on slash path) [])).

Definition isAbsolute (path : text) : bool := Js.startsWith path [slash].

Definition normalize (path : text) : text :=
  match path with
  | [] => txt "."
  | _ =>
      let trailingSeparator := Js.endsWith path [slash] in
      let p := normalizeString path (negb (isAbsolute path)) in
      match p with
      | [] => if isAbsolute path then [slash]
              else if trailingSeparator then txt "./" else txt "."
      | _ =>
          let p' := if trailingSeparator then p ++ [slash] else p in
          if isAbsolute path then slash :: p' else p'
      end
  end.

(** [join(a, b)]: empty arguments are skipped. *)
Definition join (a b : text) : text :=
  match a, b with
  | [], [] => txt "."
  | [], _ => normalize b
  | _, [] => normalize a
  | _, _ => normalize (a ++ [slash] ++ b)
  end.

Fixpoint drop_while (p : ascii -> bool) (s : text) : text :=
  match s with
  | c :: s' => if p c then drop_while p s' else s
  | [] => []
  end.

Definition is_slash (c : ascii) : bool := Js.ascii_eqb c slash.

(** [dirname(path)] *)
Definition dirname (path : text) : text :=
  match path with
  | [] => txt "."
  | c0 :: body =>
      let hasRoot := is_slash c0 in
      let r1 := drop_while is_slash (rev body) in
      let r2 := drop_while (fun c => negb (is_slash c)) r1 in
      match r2 with
      | [] => if hasRoot then [slash] else txt "."
      | _ :: r3 =>
          match r3 with
          | [] => if hasRoot then txt "//" else [c0]
          | _ => c0 :: rev r3
          end
      end
  end.

End NodePath.

(** ** Executor: [executeAction] of [terminal.mjs] and the
      [/api/execute] handler of [server.mjs] *)

Module Executor.

Import SafetyGate.

(** *** The host: file store, clock and child processes *)

Inductive node : Type :=
| File (data : text)
| Dir.

Abbreviation store := (gmap text node).

(** What [execSync] throws: the fields of the error that the code reads. *)
Record ExecError : Type := mkExecError {
  err_stderr : option text;
  err_stdout : option text;
  err_message : text }.

(** [execSync] returns the captured output, or throws on a non-zero
    exit status, a timeout, an overflow of [maxBuffer] or a failure to
    spawn. *)
Inductive ExecOutcome : Type :=
| Exited (output : text)
| Failed (e : ExecError).

Record SpawnOptions : Type := mkSpawnOptions {
  opt_timeout : N;
  opt_maxBuffer : N;
  opt_cwd : option text }.

(** The code units [toISOString] can produce. *)
Definition iso_char (c : ascii) : bool :=
  Js.in_range 48 57 c
  || existsb (Js.ascii_eqb c) (txt "-T:.Z+").

(** The two copies of the executor differ in one message only. *)
Inductive Front : Type := Terminal | Server.

Record Host : Type := mkHost {
  (** [process.cwd()], an absolute path *)
  process_cwd : text;
  cwd_absolute : NodePath.isAbsolute process_cwd = true;
  SAFE_READ_PATHS : list text;
  SAFE_WRITE_PATHS : list text;
  BACKUP_DIR : text;
  (** [new Date().toISOString()] at the time of the call: digits and
      the separators of the ISO-8601 format *)
  now_iso : text;
  now_iso_shape : forallb iso_char now_iso = true;
  (** the child process: its outcome and what it does to the files *)
  execSync : text -> SpawnOptions -> store -> ExecOutcome * store }.

(** What the executor does to the outside, in program order. *)
Inductive Effect : Type :=
| Spawned (cmd : text) (opts : SpawnOptions)
| MadeDir (path : text)
| Copied (src dst : text)
| Wrote (path : text) (data : text).

Record State : Type := mkState { fs : store; trace : list Effect }.

(** *** A state-and-exception monad for the body of the [try] *)

Inductive Completion (A : Type) : Type :=
| Return (a : A)
| Throw (message : text).
Arguments Return {A} a.
Arguments Throw {A} message.

Definition M (A : Type) : Type := State -> Completion A * State.

Definition ret {A} (a : A) : M A := fun st => (Return a, st).
Definition throw {A} (msg : text) : M A := fun st => (Throw msg, st).
Definition bind {A B} (m : M A) (k : A -> M B) : M B :=
  fun st =>
    match m st with
    | (Return a, st') => k a st'
    | (Throw msg, st') => (Throw msg, st')
    end.
Definition get_fs : M store := fun st => (Return (fs st), st).
Definition put_fs (f : store) : M unit :=
  fun st => (Return tt, mkState f (trace st)).
Definition emit (e : Effect) : M unit :=
  fun st => (Return tt, mkState (fs st) (trace st ++ [e])).

Notation "'let*' x ':=' m 'in' k" := (bind m (fun x => k))
  (at level 10, x name, m at level 100, k at level 200).
Notation "'perform' m 'then' k" := (bind m (fun _ => k))
  (at level 10, m at level 100, k at level 200).

(** *** File-system calls *)

Definition existsSync (path : text) : M bool :=
  let* f := get_fs in ret (bool_decide (is_Some (f !! path))).

Definition readFileSync (path : text) : M text :=
  let* f := get_fs in
  match f !! path with
  | Some (File d) => ret d
  | Some Dir => throw (txt "EISDIR: illegal operation on a directory, read")
  | None => throw (txt "ENOENT: no such file or directory")
  end.

(** The directory and its ancestors, innermost first. *)
Fixpoint ancestors (fuel : nat) (path : text) : list text :=
  match fuel with
  | 0 => [path]
  | S n =>
      let up := NodePath.dirname path in
      if NodePath.text_eqb up path then [path] else path :: ancestors n up
  end.

Definition is_file (f : store) (path : text) : bool :=
  match f !! path with Some (File _) => true | _ => false end.

(** [f1] is [f] with some directories created where no file was. *)
Definition only_dirs_added (f f1 : store) : Prop :=
  forall q, f1 !! q = f !! q \/ (f1 !! q = Some Dir /\ is_file f q = false).

(** [mkdirSync(path, { recursive: true })] *)
Definition mkdirSync (path : text) : M unit :=
  let* f := get_fs in
  let chain := ancestors (length path) path in
  if existsb (is_file f) chain
  then throw (txt "EEXIST: file already exists, mkdir")
  else perform put_fs (foldr (fun q g => <[q := Dir]> g) f chain) then
       emit (MadeDir path).

Definition copyFileSync (src dst : text) : M unit :=
  let* f := get_fs in
  match f !! src with
  | Some (File d) =>
      match f !! dst with
      | Some Dir => throw (txt "EISDIR: illegal operation on a directory, copyfile")
      | _ => perform put_fs (<[dst := File d]> f) then emit (Copied src dst)
      end
  | Some Dir => throw (txt "EISDIR: illegal operation on a directory, copyfile")
  | None => throw (txt "ENOENT: no such file or directory, copyfile")
  end.

(** [writeFileSync(path, data, 'utf-8')]; [data] must be a string. *)
Definition writeFileSync (path : text) (data : option text) : M unit :=
  match data with
  | None => throw (txt "The data argument must be of type string")
  | Some d =>
      let* f := get_fs in
      match f !! path with
      | Some Dir => throw (txt "EISDIR: illegal operation on a directory, open")
      | _ => perform put_fs (<[path := File d]> f) then emit (Wrote path d)
      end
  end.

(** The child process runs against the current files. *)
Definition spawn (h : Host) (cmd : text) (opts : SpawnOptions) : M ExecOutcome :=
  perform emit (Spawned cmd opts) then
  let* f := get_fs in
  let '(outcome, f') := execSync h cmd opts f in
  perform put_fs f' then ret outcome.

(** *** [backupFile] *)

(** [new Date().toISOString().replace(/[:.]/g, '-')] *)
Definition timestamp (h : Host) : text :=
  flat_map (fun c => if Js.ascii_eqb c ":"%char || Js.ascii_eqb c "."%char
                     then txt "-" else [c]) (now_iso h).

(** [filepath.replace(/\//g, '__') + `.${timestamp}.bak`] *)
Definition backupName (h : Host) (filepath : text) : text :=
  Js.replaceChar "/"%char (txt "__") filepath ++ txt "." ++ timestamp h ++ txt ".bak".

Definition backupPath (h : Host) (filepath : text) : text :=
  NodePath.join (BACKUP_DIR h) (backupName h filepath).

Definition backupFile (h : Host) (filepath : text) : M (option text) :=
  let* e := existsSync filepath in
  if negb e then ret None
  else
    let* eb := existsSync (BACKUP_DIR h) in
    perform (if negb eb then mkdirSync (BACKUP_DIR h) else ret tt) then
    perform copyFileSync filepath (backupPath h filepath) then
    ret (Some (backupPath h filepath)).

(** *** [executeAction] *)

Record Result : Type := mkResult { success : bool; result : text }.

Definition READ_FILE : text := txt "READ_FILE".
Definition RUN_CMD : text := txt "RUN_CMD".
Definition RUN_SCRIPT : text := txt "RUN_SCRIPT".
Definition WRITE_FILE : text := txt "WRITE_FILE".

Definition is_type (type name : text) : bool := NodePath.text_eqb type name.

(** The first statement of the function:
    [if (type !== 'RUN_CMD' && target && !target.startsWith('/'))
       target = join(process.cwd(), target);] *)
Definition resolveTarget (h : Host) (type target : text) : text :=
  if negb (is_type type RUN_CMD) && Js.truthy (Some target)
     && negb (Js.startsWith target (txt "/"))
  then NodePath.join (process_cwd h) target
  else target.

Definition dquote : ascii := ascii_of_nat 34.

(** [`"${s}"`] *)
Definition quoted (s : text) : text := [dquote] ++ s ++ [dquote].

Definition blockedMessage (front : Front) (target : text) : text :=
  match front with
  | Terminal =>
      txt "Blocked: " ++ quoted target ++ txt " matches a dangerous command pattern."
  | Server =>
      txt "Blocked: " ++ quoted target
        ++ txt " matches a dangerous command pattern. DoctorClaw refuses to run it."
  end.

(** [output || '(no output)'] *)
Definition outputOrNone (output : text) : text :=
  Js.or_else (Some output) (txt "(no output)").

(** [execErr.stderr || execErr.stdout || execErr.message] *)
Definition errorText (e : ExecError) : text :=
  Js.or_else (err_stderr e) (Js.or_else (err_stdout e) (err_message e)).

(** [target.split('.').pop().toLowerCase()] *)
Definition extension (target : text) : text :=
  Js.toLowerCase (Js.afterLast "."%char target).

Definition shellFor (target : text) : text :=
  let ext := extension target in
  if existsb (NodePath.text_eqb ext) [txt "bat"; txt "cmd"; txt "ps1"] then
    if NodePath.text_eqb ext (txt "ps1")
    then txt "powershell -ExecutionPolicy Bypass -File " ++ quoted target
    else txt "cmd /c " ++ quoted target
  else txt "bash " ++ quoted target.

(** [content ? `${shell} ${content}` : shell] *)
Definition fullCmd (target : text) (content : option text) : text :=
  match content with
  | Some (c :: cs) => shellFor target ++ txt " " ++ (c :: cs)
  | _ => shellFor target
  end.

Definition runOutcome (o : ExecOutcome) : Result :=
  match o with
  | Exited output => mkResult true (outputOrNone output)
  | Failed e => mkResult false (errorText e)
  end.

(** [{ timeout: 30000, maxBuffer: 1024 * 1024, encoding: 'utf-8' }] *)
Definition cmdOptions : SpawnOptions :=
  mkSpawnOptions 30000%N (1024 * 1024)%N None.

(** [{ timeout: 60000, maxBuffer: 1024 * 1024 * 2, encoding: 'utf-8',
    cwd: dirname(target) }] *)
Definition scriptOptions (target : text) : SpawnOptions :=
  mkSpawnOptions 60000%N (1024 * 1024 * 2)%N (Some (NodePath.dirname target)).

Definition accessDeniedRead (target : text) : Result :=
  mkResult false
    (txt "Access denied: " ++ quoted target ++ txt " is outside allowed read paths.").

Definition accessDeniedWrite (target : text) : Result :=
  mkResult false
    (txt "Access denied: " ++ quoted target ++ txt " is outside allowed write paths.").

Definition scriptBlocked : Result :=
  mkResult false (txt "Blocked: script execution matches a dangerous command pattern.").

(** [backup ? `File written. Backup saved to: ${backup}`
           : `File created at: ${target}`] *)
Definition writeMessage (target : text) (backup : option text) : text :=
  if Js.truthy backup
  then txt "File written. Backup saved to: " ++ default [] backup
  else txt "File created at: " ++ target.

(** The [switch], on the resolved target. *)
Definition executeBody (front : Front) (h : Host) (type target : text)
    (content : option text) : M Result :=
  if is_type type READ_FILE then
    if negb (isPathReadable (SAFE_READ_PATHS h) target) then
      ret (accessDeniedRead target)
    else
      let* e := existsSync target in
      if negb e then ret (mkResult false (txt "File not found: " ++ target))
      else let* data := readFileSync target in ret (mkResult true data)
  else if is_type type RUN_CMD then
    if isCommandBlocked target then
      ret (mkResult false (blockedMessage front target))
    else
      let* o := spawn h target cmdOptions in
      ret (runOutcome o)
  else if is_type type RUN_SCRIPT then
    if negb (isPathReadable (SAFE_READ_PATHS h) target) then
      ret (accessDeniedRead target)
    else
      let* e := existsSync target in
      if negb e then ret (mkResult false (txt "Script not found: " ++ target))
      else if isCommandBlocked (fullCmd target content) then
        ret scriptBlocked
      else
        let* o := spawn h (fullCmd target content) (scriptOptions target) in
        ret (runOutcome o)
  else if is_type type WRITE_FILE then
    if negb (isPathWritable (SAFE_WRITE_PATHS h) target) then
      ret (accessDeniedWrite target)
    else
      let dir := NodePath.dirname target in
      let* ed := existsSync dir in
      perform (if negb ed then mkdirSync dir else ret tt) then
      let* backup := backupFile h target in
      perform writeFileSync target content then
      ret (mkResult true (writeMessage target backup))
  else
    ret (mkResult false (txt "Unknown action type: " ++ type)).

(** [try { switch ... } catch (err) { return { success: false,
    result: `Error: ${err.message}` } }]: nothing is thrown to the caller. *)
Definition executeAction (front : Front) (h : Host) (type target : text)
    (content : option text) (st : State) : Result * State :=
  match executeBody front h type (resolveTarget h type target) content st with
  | (Return r, st') => (r, st')
  | (Throw msg, st') => (mkResult false (txt "Error: " ++ msg), st')
  end.

End Executor.


(** ** StreamTagScanner: the tag expressions, [extractActions],
      [stripActions] and the display loop of [streamChat] *)

Module Scanner.

Import Executor.

Record Action : Type := mkAction {
  act_type : text;
  act_target : text;
  act_content : option text }.

(** ['READ_FILE|RUN_CMD|RUN_SCRIPT|WRITE_FILE'], in the order of the
    alternation. *)
Definition ACT_TYPES : list text := [READ_FILE; RUN_CMD; RUN_SCRIPT; WRITE_FILE].

Definition OPEN : text := txt "[ACTION:".
Definition CLOSE : text := txt "[/ACTION]".

(** [s] without its prefix [p], when it has it. *)
Definition strip_prefix (p s : text) : option text :=
  if Js.startsWith s p then Some (drop (length p) s) else None.

(** [(READ_FILE|RUN_CMD|RUN_SCRIPT|WRITE_FILE):] at the head of [s]:
    the first alternative that is followed by a colon. *)
Fixpoint match_type (types : list text) (s : text) : option (text * text) :=
  match types with
  | [] => None
  | ty :: rest =>
      match strip_prefix (ty ++ txt ":") s with
      | Some s' => Some (ty, s')
      | None => match_type rest s
      end
  end.

(** [\[ACTION:(READ_FILE|RUN_CMD|RUN_SCRIPT|WRITE_FILE):] at the head
    of [s]: the kind and what follows the opener. *)
Definition match_opener (s : text) : option (text * text) :=
  match strip_prefix OPEN s with
  | Some s' => match_type ACT_TYPES s'
  | None => None
  end.

(** First occurrence of [pat]: what precedes it and what follows it. *)
Fixpoint find_sub (pat s : text) : option (text * text) :=
  if Js.startsWith s pat then Some ([], drop (length pat) s)
  else match s with
       | [] => None
       | c :: s' =>
           match find_sub pat s' with
           | Some (a, b) => Some (c :: a, b)
           | None => None
           end
       end.

(** [([\s\S]+?)\[/ACTION\]]: at least one code unit, then as few as
    possible up to a terminator. *)
Definition lazy_body (b : text) : option (text * text) :=
  match b with
  | [] => None
  | c :: b' =>
      match find_sub CLOSE b' with
      | Some (pre, post) => Some (c :: pre, post)
      | None => None
      end
  end.

(** [ACT_RE_NEW] anchored at the head of [s]: kind, second group, rest. *)
Definition match_new_at (s : text) : option (text * text * text) :=
  match match_opener s with
  | Some (ty, b) =>
      match lazy_body b with
      | Some (m2, rest) => Some (ty, m2, rest)
      | None => None
      end
  | None => None
  end.

(** The maximal run of code units other than []]. *)
Fixpoint span_not_close (s : text) : text * text :=
  match s with
  | c :: s' =>
      if Js.ascii_eqb c "]"%char then ([], s)
      else let '(a, b) := span_not_close s' in (c :: a, b)
  | [] => ([], [])
  end.

(** [ACT_RE_OLD] ([atLeastOne = true], the group is [[^\]]+]) and
    [ACT_RE_STRIP_OLD] ([atLeastOne = false], [[^\]]*]) anchored at the
    head of [s]. *)
Definition match_old_at (atLeastOne : bool) (s : text) : option (text * text * text) :=
  match match_opener s with
  | Some (ty, b) =>
      match span_not_close b with
      | (m2, _ :: rest) =>
          if atLeastOne && bool_decide (m2 = []) then None else Some (ty, m2, rest)
      | (_, []) => None
      end
  | None => None
  end.

(** Leftmost match of an anchored matcher: what is skipped before it,
    the match, what is left after it. *)
Fixpoint search (at_head : text -> option (text * text * text)) (s : text)
  : option (text * (text * text * text)) :=
  match at_head s with
  | Some m => Some ([], m)
  | None =>
      match s with
      | [] => None
      | c :: s' =>
          match search at_head s' with
          | Some (skipped, m) => Some (c :: skipped, m)
          | None => None
          end
      end
  end.

(** The [while ((m = re.exec(s)) !== null)] loop of a [g] expression:
    the kind and second group of every match, left to right. *)
Fixpoint exec_all (at_head : text -> option (text * text * text)) (fuel : nat)
    (s : text) : list (text * text) :=
  match fuel with
  | 0 => []
  | S n =>
      match search at_head s with
      | Some (_, (ty, m2, rest)) => (ty, m2) :: exec_all at_head n rest
      | None => []
      end
  end.

(** [s.replace(re, '')] for a [g] expression. *)
Fixpoint remove_all (at_head : text -> option (text * text * text)) (fuel : nat)
    (s : text) : text :=
  match fuel with
  | 0 => s
  | S n =>
      match search at_head s with
      | Some (skipped, (_, _, rest)) => skipped ++ remove_all at_head n rest
      | None => s
      end
  end.

(** Every match of the anchored matcher uses up part of the text, so the
    loops above stop before their [fuel] does when it exceeds the length
    of the text. *)
Definition consuming (at_head : text -> option (text * text * text)) : Prop :=
  forall s ty m2 rest, at_head s = Some (ty, m2, rest) -> length rest < length s.

(** [s.replace(CLEAN_TAG, '')], [CLEAN_TAG = /\[\/ACTION\s*$/]: cut at
    the leftmost ["[/ACTION"] that only white space follows. *)
Fixpoint clean_tag (s : text) : text :=
  if Js.startsWith s (txt "[/ACTION")
     && forallb Js.is_space (drop (length (txt "[/ACTION")) s)
  then []
  else match s with
       | [] => []
       | c :: s' => c :: clean_tag s'
       end.

Definition MARK : text := txt "[ACTION".

(** [s.replace(ACT_RE_PARTIAL, '')], [ACT_RE_PARTIAL = /\[ACTION[\s\S]*$/] *)
Definition remove_partial (s : text) : text :=
  match find_sub MARK s with
  | Some (pre, _) => pre
  | None => s
  end.

(** The body of both loops of [extractActions]. *)
Definition descriptor (m : text * text) : Action :=
  let '(type, m2) := m in
  let raw := Js.trimEnd (clean_tag m2) in
  if is_type type WRITE_FILE || is_type type RUN_SCRIPT then
    match Js.indexOf raw (txt ":") with
    | Some ci =>
        mkAction type (take ci raw)
          (Some (Js.trimEnd (clean_tag (drop (S ci) raw))))
    | None => mkAction type raw None
    end
  else mkAction type raw None.

Definition extractActions (full : text) : list Action :=
  let fuel := S (length full) in
  let fullLegacy := remove_all match_new_at fuel full in
  map descriptor (exec_all match_new_at fuel full)
  ++ map descriptor (exec_all (match_old_at true) fuel fullLegacy).

Definition stripActions (t : text) : text :=
  let fuel := S (length t) in
  Js.trim
    (remove_partial
       (remove_all (match_old_at false) fuel
          (remove_all match_new_at fuel t))).

(** *** The display loop of [streamChat]

    The reply is given as the list of the [parsed.message.content]
    values in the order the loop over the decoded lines meets them; the
    decoding of the lines themselves is left out. *)

Record Scan : Type := mkScan {
  full : text;
  insideAction : bool;
  pendingBracket : text;
  (** everything written to the terminal by the loop so far *)
  out : text }.

Definition scan0 : Scan := mkScan [] false [] [].

Definition openers : list text :=
  map (fun ty => OPEN ++ ty ++ txt ":") ACT_TYPES.

(** The body of [for (const ch of chunk)]; [full] already holds the
    whole chunk. *)
Definition scan_char (st : Scan) (ch : ascii) : Scan :=
  if insideAction st then
    if Js.endsWith (full st) CLOSE
    then mkScan (full st) false (pendingBracket st) (out st)
    else st
  else
    let pb := pendingBracket st ++ [ch] in
    if Js.ascii_eqb ch "["%char then
      mkScan (full st) false (txt "[") (out st)
    else if Js.startsWith pb (txt "[") then
      if bool_decide (is_Some (match_opener pb)) then
        mkScan (full st) true [] (out st)
      else if (30 <? length pb)
              || negb (existsb (fun o => Js.startsWith o pb) openers) then
        mkScan (full st) false [] (out st ++ pb)
      else mkScan (full st) false pb (out st)
    else mkScan (full st) false [] (out st ++ [ch]).

(** One [parsed.message.content]; an empty one is skipped. *)
Definition feed (st : Scan) (chunk : text) : Scan :=
  match chunk with
  | [] => st
  | _ =>
      fold_left scan_char chunk
        (mkScan (full st ++ chunk) (insideAction st) (pendingBracket st) (out st))
  end.

Definition scan (chunks : list text) : Scan := fold_left feed chunks scan0.

(** After the loop: [if (pendingBracket && !insideAction)
    process.stdout.write(pendingBracket)]. *)
Definition flush (st : Scan) : text :=
  if Js.truthy (Some (pendingBracket st)) && negb (insideAction st)
  then out st ++ pendingBracket st
  else out st.

(** What the user sees of the reply, between the label and the final
    line break. *)
Definition display (chunks : list text) : text := flush (scan chunks).

(** What [streamChat] returns. *)
Definition streamChat (chunks : list text) : text := full (scan chunks).



End Scanner.


(** ** The approval loop of the terminal ([processResponse]) *)

Module Session.

Import Executor Scanner.

Record Message : Type := mkMessage { role : text; content : text }.

(** What the loop does that the user can observe, in program order. *)
Inductive Event : Type :=
| Asked (act : Action)
| Executed (act : Action) (r : Result)
| Denied (act : Action)
| StreamFailed.

Record Setting : Type := mkSetting {
  (** the process; its clock reading is the same at every call *)
  host : Host;
  (** [streamChat(conversation)]: the fragments of the reply, [None]
      when the request throws *)
  reply : list Message -> option (list text);
  (** what the user types at the n-th [Approve? (y/n)] prompt *)
  answer : nat -> text }.

Record Sess : Type := mkSess {
  conversation : list Message;
  machine : State;
  prompts : nat;
  log : list Event }.

Definition nl : ascii := ascii_of_nat 10.

(** [answer.trim().toLowerCase().startsWith('y')] *)
Definition promptYN (typed : text) : bool :=
  Js.startsWith (Js.toLowerCase (Js.trim typed)) (txt "y").

Definition MAX_RESULT : nat := 4000.

(** [resultForConv] *)
Definition clip (r : text) : text :=
  if MAX_RESULT <? length r
  then take MAX_RESULT r ++ [nl] ++ txt "...[truncated]"
  else r.

(** [result.success ? 'SUCCESS' : 'FAILED'] *)
Definition outcomeLabel (r : Result) : text :=
  if success r then txt "SUCCESS" else txt "FAILED".

Definition resultMessage (act : Action) (r : Result) : Message :=
  mkMessage (txt "user")
    (txt "[Result of " ++ act_type act ++ txt " on " ++ quoted (act_target act)
       ++ txt "]: " ++ outcomeLabel r ++ [nl] ++ clip (result r)).

Definition deniedMessage (act : Action) : Message :=
  mkMessage (txt "user")
    (txt "[User DENIED the action: " ++ act_type act ++ txt " on "
       ++ quoted (act_target act) ++ txt "]").

Definition push (m : Message) (s : Sess) : Sess :=
  mkSess (conversation s ++ [m]) (machine s) (prompts s) (log s).

Definition record (e : Event) (s : Sess) : Sess :=
  mkSess (conversation s) (machine s) (prompts s) (log s ++ [e]).

(** The approved branch up to the recursive call: execute, then feed
    the result back into the conversation. *)
Definition approved (cfg : Setting) (act : Action) (s : Sess) : Sess :=
  let '(r, m) :=
    executeAction Terminal (host cfg) (act_type act) (act_target act)
      (act_content act) (machine s) in
  push (resultMessage act r)
    (record (Executed act r) (mkSess (conversation s) m (prompts s) (log s))).

(** [for (const act of actions)]; [followUp] is the recursive
    [processResponse()]. *)
Fixpoint processActions (cfg : Setting) (followUp : Sess -> Sess)
    (actions : list Action) (s : Sess) : Sess :=
  match actions with
  | [] => s
  | act :: rest =>
      let s1 := record (Asked act)
                  (mkSess (conversation s) (machine s) (S (prompts s)) (log s)) in
      if promptYN (answer cfg (prompts s))
      then processActions cfg followUp rest (followUp (approved cfg act s1))
      else processActions cfg followUp rest
             (push (deniedMessage act) (record (Denied act) s1))
  end.

Definition GREETING : text :=
  txt "Hello! I'm DoctorClaw, your system diagnostics assistant. How can I help you today?".
Definition NO_RESPONSE : text :=
  txt "I wasn't able to generate a response. Try rephrasing or starting a new session with /new.".

(** [fuel] bounds the depth of the chain of follow-up replies. *)
Fixpoint processResponse (cfg : Setting) (fuel : nat) (s : Sess) : Sess :=
  match fuel with
  | 0 => s
  | S n =>
      match reply cfg (conversation s) with
      | None =>
          record StreamFailed
            (mkSess (removelast (conversation s)) (machine s) (prompts s) (log s))
      | Some chunks =>
          let full0 := streamChat chunks in
          let full :=
            match Js.trim full0 with
            | [] => if length (conversation s) <=? 2 then GREETING else NO_RESPONSE
            | _ => full0
            end in
          processActions cfg (processResponse cfg n) (extractActions full)
            (push (mkMessage (txt "assistant") full) s)
      end
  end.

End Session.


(** ** Sample hosts, files and sessions

    Closed inputs on which the definitions above are evaluated in the
    examples below. *)

Module Fixtures.

Import SafetyGate Executor Scanner Session.

(** A child process that always exits with a non-zero status and
    prints nothing. *)
Definition failing_exec (cmd : text) (opts : SpawnOptions) (f : store)
  : ExecOutcome * store :=
  (Failed (mkExecError (Some []) (Some []) (txt "Command failed: " ++ cmd)), f).

(** A server started in [/srv/doctorclaw] with the default path lists. *)
Definition host0 : Host :=
  mkHost (txt "/srv/doctorclaw") eq_refl
    DEFAULT_READ_PATHS DEFAULT_WRITE_PATHS
    (txt "/srv/doctorclaw/.doctorclaw-backups")
    (txt "2026-02-06T10:11:12.345Z") eq_refl
    failing_exec.

Definition files0 : store :=
  <[txt "/tmp/notes.txt" := File (txt "old")]>
    (<[txt "/tmp/run.sh" := File (txt "echo hi")]>
       (<[txt "/tmp" := Dir]> ∅)).

Definition st0 : State := mkState files0 [].

(** A model that proposes one failing command and then comments on the
    result, and a user who answers [y] to every prompt. *)
Definition reply0 (conv : list Message) : option (list text) :=
  match conv with
  | [_] => Some (map txt ["I will check. "; "[ACTION:RUN_CMD:fal"; "se[/ACTION]"]%string)
  | _ => Some [txt "The command failed."]
  end.


Definition sess0 : Sess :=
  mkSess [mkMessage (txt "user") (txt "Why is nginx down?")] st0 0 [].



End Fixtures.

(** ** The read-eval-print loop of the terminal ([handleUserInput]) *)

Module Repl.

Import Executor Scanner Session.

(** What a line leaves to the loop: go on with the next one, or the
    process has exited. *)
Inductive Control : Type := Continue | Exit.

(** One line typed at the [You >] prompt.  What is printed is left
    out; [fuel] bounds the chain of follow-up replies as in
    [processResponse]. *)
Definition handleUserInput (cfg : Setting) (fuel : nat) (input : text) (s : Sess)
  : Control * Sess :=
  let text := Js.trim input in
  if negb (Js.truthy (Some text)) then (Continue, s)
  else if NodePath.text_eqb text (txt "/quit") || NodePath.text_eqb text (txt "/exit")
  then (Exit, s)
  else if NodePath.text_eqb text (txt "/new")
  then (Continue, mkSess [] (machine s) (prompts s) (log s))
  else if NodePath.text_eqb text (txt "/clear") then (Continue, s)
  else if NodePath.text_eqb text (txt "/help") then (Continue, s)
  else (Continue, processResponse cfg fuel (push (mkMessage (txt "user") text) s)).

(** A stretch of the log as the approval loop writes it: every prompt
    is followed by the execution of the action it asked about when the
    answer to it was a yes, and by its denial otherwise; [n] is the
    number of the next prompt. *)
Fixpoint answered (cfg : Setting) (n : nat) (delta : list Event) : Prop :=
  match delta with
  | [] => True
  | Asked a :: Executed a' _ :: rest =>
      a' = a /\ promptYN (answer cfg n) = true /\ answered cfg (S n) rest
  | Asked a :: Denied a' :: rest =>
      a' = a /\ promptYN (answer cfg n) = false /\ answered cfg (S n) rest
  | StreamFailed :: rest => answered cfg n rest
  | _ => False
  end.

(** The logged executions carried out again, in order, on a state of
    the machine: the state they lead to and the results they give. *)
Fixpoint replay (h : Host) (delta : list Event) (m : State) : State * list Result :=
  match delta with
  | [] => (m, [])
  | Executed a _ :: rest =>
      let '(r, m') :=
        executeAction Terminal h (act_type a) (act_target a) (act_content a) m in
      let '(m'', rs) := replay h rest m' in
      (m'', r :: rs)
  | _ :: rest => replay h rest m
  end.

(** The results the log holds, in order. *)
Fixpoint logged (delta : list Event) : list Result :=
  match delta with
  | [] => []
  | Executed _ r :: rest => r :: logged rest
  | _ :: rest => logged rest
  end.

Definition is_asked (e : Event) : bool :=
  match e with Asked _ => true | _ => false end.

(** [s'] continues [s]: its log is the log of [s] followed by a stretch
    in which every prompt was answered, its prompt counter counts the
    prompts of that stretch, and its machine is the machine of [s] after
    the logged executions, which gave the logged results. *)
Definition continues (cfg : Setting) (s s' : Sess) : Prop :=
  exists delta,
    log s' = log s ++ delta
    /\ answered cfg (prompts s) delta
    /\ prompts s' = prompts s + length (List.filter is_asked delta)
    /\ replay (host cfg) delta (machine s) = (machine s', logged delta).

End Repl.


(** ** Terminal formatting helpers ([wrapText]) *)

Module Format.

Import Session.

(** [s.lastIndexOf(c, pos)] for a one-character [c]: the greatest
    index, at most [pos], at which [c] stands; [None] for -1. *)
Fixpoint lastIndexOf (s : text) (c : ascii) (pos : nat) : option nat :=
  match s with
  | [] => None
  | d :: s' =>
      match (match pos with 0 => None | S p => lastIndexOf s' c p end) with
      | Some i => Some (S i)
      | None => if Js.ascii_eqb d c then Some 0 else None
      end
  end.

(** [let breakAt = remaining.lastIndexOf(' ', width);
     if (breakAt <= 0) breakAt = width;] *)
Definition breakAt (remaining : text) (width : nat) : nat :=
  match lastIndexOf remaining " "%char width with
  | Some (S i) => S i
  | _ => width
  end.

(** The [while (remaining.length > width)] loop and the
    [if (remaining) lines.push(remaining)] after it: the lines pushed,
    [None] when [fuel] iterations do not end the loop. *)
Fixpoint wrapLoop (fuel : nat) (width : nat) (remaining : text) : option (list text) :=
  if width <? length remaining then
    match fuel with
    | 0 => None
    | S n =>
        option_map (cons (take (breakAt remaining width) remaining))
          (wrapLoop n width (Js.trimStart (drop (breakAt remaining width) remaining)))
    end
  else Some (if Js.truthy (Some remaining) then [remaining] else []).

(** The body of [for (const rawLine of text.split('\n'))]. *)
Definition wrapLine (width : nat) (rawLine : text) : option (list text) :=
  if length rawLine <=? width then Some [rawLine]
  else wrapLoop (length rawLine) width rawLine.

Fixpoint wrapLines (width : nat) (rawLines : list text) : option (list text) :=
  match rawLines with
  | [] => Some []
  | rawLine :: rest =>
      match wrapLine width rawLine, wrapLines width rest with
      | Some a, Some b => Some (a ++ b)
      | _, _ => None
      end
  end.

(** [wrapText(text, width)], [s] being the text; [None] when the loop
    over some line does not end. *)
Definition wrapText (s : text) (width : nat) : option text :=
  if negb (Js.truthy (Some s)) then Some []
  else option_map (NodePath.join_with [nl])
         (wrapLines width (NodePath.split_on nl s)).

(** The code units of a text other than white space, in order. *)
Definition ink (s : text) : text := List.filter (fun c => negb (Js.is_space c)) s.

End Format.


(** ** The stream of the model: lines of JSON, one object a line

    The body of the response is read in pieces that need not end where
    a line ends.  A piece is given as the text [decoder.decode] makes of
    it.  [JSON.parse] is an oracle: [None] when it throws, and else what
    the code reads off the parsed value. *)

Module Wire.

Import Scanner Session.

Record Parsed : Type := mkParsed {
  (** [parsed.message?.content], a string when it is there *)
  msg_content : option text;
  (** whether [parsed.done] is truthy *)
  msg_done : bool;
  (** [JSON.stringify(parsed)] *)
  rendered : text }.

(** [const lines = buffer.split('\n'); buffer = lines.pop() || '';]:
    the complete lines and what is left in the buffer. *)
Definition takeLines (buffer : text) : list text * text :=
  let lines := NodePath.split_on nl buffer in
  (List.removelast lines, List.last lines []).

(** [if (!line.trim()) continue;] *)
Definition blank (line : text) : bool := negb (Js.truthy (Some (Js.trim line))).

(** [for (const line of lines)] in [streamChat] of [terminal.mjs]: the
    [message.content] values handed to the display loop, in order; the
    [break] on [parsed.done] leaves the rest of [lines] unread. *)
Fixpoint lineContents (parse : text -> option Parsed) (lines : list text) : list text :=
  match lines with
  | [] => []
  | line :: rest =>
      if blank line then lineContents parse rest
      else
        match parse line with
        | None => lineContents parse rest
        | Some parsed =>
            (if Js.truthy (msg_content parsed) then [default [] (msg_content parsed)] else [])
            ++ (if msg_done parsed then [] else lineContents parse rest)
        end
  end.

(** One turn of [while (true)]: a piece arrived. *)
Definition readValue (parse : text -> option Parsed) (acc : text * list text)
    (value : text) : text * list text :=
  let '(lines, buffer) := takeLines (fst acc ++ value) in
  (buffer, snd acc ++ lineContents parse lines).

(** The [message.content] values of a whole response, given in
    pieces. *)
Definition received (parse : text -> option Parsed) (values : list text) : list text :=
  snd (fold_left (readValue parse) values ([], [])).

(** [for (const line of lines)] in the [/api/chat] handler of
    [server.mjs]: what is written to the browser. *)
Fixpoint relayLines (parse : text -> option Parsed) (lines : list text) : text :=
  match lines with
  | [] => []
  | line :: rest =>
      (if blank line then []
       else
         match parse line with
         | None => []
         | Some parsed =>
             txt "data: " ++ rendered parsed ++ [nl; nl]
             ++ (if msg_done parsed then txt "data: [DONE]" ++ [nl; nl] else [])
         end)
      ++ relayLines parse rest
  end.

Definition relayValue (parse : text -> option Parsed) (acc : text * text)
    (value : text) : text * text :=
  let '(lines, buffer) := takeLines (fst acc ++ value) in
  (buffer, snd acc ++ relayLines parse lines).

(** Everything the handler writes for a response given in pieces. *)
Definition relayed (parse : text -> option Parsed) (values : list text) : text :=
  snd (fold_left (relayValue parse) values ([], [])).

End Wire.


(** ** Finding the OpenClaw installation ([detectOpenclawDir] and
      [validateOpenclawDir] of [server.mjs]) *)

Module Setup.

Import SafetyGate Executor.

(** [existsSync] against a given file store. *)
Definition present (f : store) (path : text) : bool :=
  bool_decide (is_Some (f !! path)).

Record Validation : Type := mkValidation {
  v_exists : bool;
  v_hasConfig : bool;
  v_hasLogs : bool;
  v_configPath : option text;
  v_logPaths : list text }.

Definition configCandidates : list text :=
  map txt [ "config.yml"; "config.yaml"; "config.json"; "config.toml";
            "openclaw.yml"; "openclaw.yaml"; "openclaw.conf"; "openclaw.json";
            "gateway.yml"; "gateway.yaml"; "gateway.conf"; "gateway.json";
            "etc/config.yml"; "etc/openclaw.yml"; "conf/openclaw.yml" ]%string.

Definition logCandidates : list text :=
  map txt [ "logs"; "log"; "var/log"; "var/logs" ]%string.

(** [validateOpenclawDir(dir)]; it only looks at the files. *)
Definition validateOpenclawDir (f : store) (dir : text) : Validation :=
  if negb (present f dir) then mkValidation false false false None []
  else
    let config := List.find (present f) (map (NodePath.join dir) configCandidates) in
    let logs := List.filter (present f) (map (NodePath.join dir) logCandidates) in
    mkValidation true
      (match config with Some _ => true | None => false end)
      (match logs with [] => false | _ :: _ => true end)
      config logs.

(** [s.split(/\s+/)]: the text is cut at every maximal run of white
    space; [in_gap] tells that the code unit before was white space. *)
Fixpoint splitSpaces (in_gap : bool) (s : text) : list text :=
  match s with
  | [] => [[]]
  | c :: s' =>
      if Js.is_space c then
        if in_gap then splitSpaces true s' else [] :: splitSpaces true s'
      else
        match splitSpaces false s' with
        | h :: t => (c :: h) :: t
        | [] => [[c]]
        end
  end.

(** [/^\d+$/.test(s)] *)
Definition allDigits (s : text) : bool :=
  match s with
  | [] => false
  | _ => forallb (Js.in_range 48 57) s
  end.

(** The options of the probes: a timeout, the default output cap of
    [execSync], no working directory. *)
Definition probeOptions (timeout : N) : SpawnOptions :=
  mkSpawnOptions timeout (1024 * 1024)%N None.

(** [execSync(cmd, { encoding: 'utf-8', timeout }).trim()] inside a
    [try]: [None] when the call throws. *)
Definition probe (h : Host) (cmd : text) (timeout : N) : M (option text) :=
  let* o := spawn h cmd (probeOptions timeout) in
  match o with
  | Exited output => ret (Some (Js.trim output))
  | Failed _ => ret None
  end.

Definition PS_PROBE : text :=
  txt "ps aux 2>/dev/null | grep -i openclaw | grep -v grep".
Definition WHICH_PROBE : text :=
  txt "which openclaw-gateway 2>/dev/null || which openclaw 2>/dev/null".
Definition FIND_PROBE : text :=
  txt "find /home -maxdepth 3 -name 'openclaw*' -type d 2>/dev/null | head -1".

(** [`readlink /proc/${pid}/cwd 2>/dev/null`] *)
Definition readlinkProbe (pid : text) : text :=
  txt "readlink /proc/" ++ pid ++ txt "/cwd 2>/dev/null".

(** The candidates of step 1, in order. *)
Definition candidates : list text :=
  map txt [ "/opt/openclaw"; "/usr/local/openclaw"; "/etc/openclaw"; "/opt/OpenClaw" ]%string.

(** [for (const dir of candidates) if (existsSync(dir)) return dir;] *)
Fixpoint firstExisting (dirs : list text) : M (option text) :=
  match dirs with
  | [] => ret None
  | dir :: rest =>
      let* e := existsSync dir in
      if e then ret (Some dir) else firstExisting rest
  end.

(** The command path of a line of [ps aux]: its eleventh field, when
    it begins with ['/'] and its directory exists. *)
Definition fromCommand (parts : list text) : M (option text) :=
  if 11 <=? length parts then
    let cmd := nth 10 parts [] in
    if Js.startsWith cmd (txt "/") then
      let dir := NodePath.dirname cmd in
      let* e := existsSync dir in
      ret (if e then Some dir else None)
    else ret None
  else ret None.

(** The working directory of the process of a line of [ps aux]: its
    second field, when it is a number, is looked up under [/proc]. *)
Definition fromPid (h : Host) (parts : list text) : M (option text) :=
  match nth_error parts 1 with
  | Some pid =>
      if Js.truthy (Some pid) && allDigits pid then
        let* out := probe h (readlinkProbe pid) 3000%N in
        match out with
        | Some cwd =>
            if Js.truthy (Some cwd) then
              let* e := existsSync cwd in
              ret (if e then Some cwd else None)
            else ret None
        | None => ret None
        end
      else ret None
  | None => ret None
  end.

(** [for (const line of lines)] of step 2: [Some dir] when the loop
    returns [dir] from the function. *)
Fixpoint fromProcesses (h : Host) (lines : list text) : M (option text) :=
  match lines with
  | [] => ret None
  | line :: rest =>
      let parts := splitSpaces false (Js.trim line) in
      let* viaCommand := fromCommand parts in
      match viaCommand with
      | Some dir => ret (Some dir)
      | None =>
          let* viaPid := fromPid h parts in
          match viaPid with
          | Some cwd => ret (Some cwd)
          | None => fromProcesses h rest
          end
      end
  end.

(** Step 2. *)
Definition fromPs (h : Host) : M (option text) :=
  let* out := probe h PS_PROBE 5000%N in
  match out with
  | Some psOutput =>
      if Js.truthy (Some psOutput)
      then fromProcesses h (NodePath.split_on Session.nl psOutput)
      else ret None
  | None => ret None
  end.

(** Step 3. *)
Definition fromPath (h : Host) : M (option text) :=
  let* out := probe h WHICH_PROBE 3000%N in
  match out with
  | Some binPath =>
      if Js.truthy (Some binPath) then
        let dir := NodePath.dirname binPath in
        let parent :=
          if Js.endsWith dir (txt "/bin") || Js.endsWith dir (txt "/sbin")
          then NodePath.dirname dir else dir in
        let* e := existsSync parent in
        ret (if e then Some parent else None)
      else ret None
  | None => ret None
  end.

(** Step 4. *)
Definition fromHome (h : Host) : M (option text) :=
  let* out := probe h FIND_PROBE 5000%N in
  match out with
  | Some homeHits =>
      if Js.truthy (Some homeHits) then
        let* e := existsSync homeHits in
        ret (if e then Some homeHits else None)
      else ret None
  | None => ret None
  end.

(** [a] and, when it finds nothing, [b]. *)
Definition orElse (a b : M (option text)) : M (option text) :=
  let* x := a in
  match x with
  | Some dir => ret (Some dir)
  | None => b
  end.

(** [detectOpenclawDir()]; what is printed is left out. *)
Definition detectOpenclawDir (h : Host) : M text :=
  let* found :=
    orElse (firstExisting candidates)
      (orElse (fromPs h) (orElse (fromPath h) (fromHome h))) in
  ret (default DEFAULTS_openclaw_dir found).

(** A command line that [detectOpenclawDir] may hand to [execSync]. *)
Definition isProbe (cmd : text) : Prop :=
  cmd = PS_PROBE \/ cmd = WHICH_PROBE \/ cmd = FIND_PROBE
  \/ exists pid, allDigits pid = true /\ cmd = readlinkProbe pid.

(** [m] does not throw, finds only what exists when it returns, and
    spawns nothing but probes. *)
Definition sound_search (m : M (option text)) : Prop :=
  forall st, exists r st' delta,
    m st = (Return r, st')
    /\ (forall dir, r = Some dir -> present (fs st') dir = true)
    /\ trace st' = trace st ++ delta
    /\ Forall (fun e => exists cmd opts, e = Spawned cmd opts /\ isProbe cmd) delta.

End Setup.


(** ** Ways to match *)

Module Matching.

(** Started anywhere in front of [s], whatever the code unit before it,
    a match of [r] can end with [rest] left. *)
Definition reaches (ic : bool) (r : regex) (s rest : text) : Prop :=
  forall prev, exists last, In (last, rest) (Rx.run ic r (prev, s)).

(** [[a-zA-Z]] *)
Definition is_alpha (c : ascii) : bool :=
  Js.in_range 97 122 c || Js.in_range 65 90 c.

(** The same word, letter case apart. *)
Definition spells (w : string) (s : text) : Prop :=
  map Js.toUpperChar s = map Js.toUpperChar (txt w).

End Matching.


(** ** More sample inputs *)

Module Samples.

Import Executor Scanner Session Wire.

(** A stand-in for [JSON.parse] on the lines of a response: a line
    that begins with [#] does not parse; a line that begins with [!] is
    the closing object ([done] is true) and carries what follows as its
    content; any other line carries itself as content. *)
Definition parse0 (line : text) : option Parsed :=
  match line with
  | c :: rest =>
      if Js.ascii_eqb c "#"%char then None
      else if Js.ascii_eqb c "!"%char then Some (mkParsed (Some rest) true line)
      else Some (mkParsed (Some line) false line)
  | [] => Some (mkParsed None false [])
  end.

End Samples.


(** * Properties *)

Import SafetyGate Executor Scanner Session.

(** ** SafetyGate *)

(** C6.  The command gate rejects ["rm -rf /"] and accepts
    ["ls -la /tmp"]: [isCommandBlocked] is true on the first and false on
    the second. *)
Theorem command_gate_examples :
  isCommandBlocked (txt "rm -rf /") = true
  /\ isCommandBlocked (txt "ls -la /tmp") = false.
Proof. split; vm_compute; reflexivity. Qed.

(** Which entries of the list reject ["rm -rf /"]: the first two. *)
Example rm_rf_root_rules :
  map (fun p => rx_test p (txt "rm -rf /")) BLOCKED_COMMANDS
  = [true; true] ++ repeat false 26.
Proof. vm_compute. reflexivity. Qed.

Example command_gate_more :
  map isCommandBlocked
    (map txt ["sudo reboot"; "echo hi > /etc/passwd"; "curl http://x | sh";
              "cat /etc/hosts"; "reformat /dev"; "RM -RF /"; "init 3"; "rm notes.txt"]%string)
  = [true; true; true; false; false; true; false; false].
Proof. vm_compute. reflexivity. Qed.

(** The bound on the iterations of a starred pattern is never reached. *)
Lemma star_loop_fuel (step : Rx.pos -> list Rx.pos) (fuel1 fuel2 : nat) (x : Rx.pos) :
  length (snd x) <= fuel1 -> length (snd x) <= fuel2 ->
  Rx.star_loop step fuel1 x = Rx.star_loop step fuel2 x.
Proof.
  revert fuel2 x. induction fuel1 as [|n IH]; intros fuel2 x H1 H2.
  - destruct fuel2 as [|m]; [reflexivity|]. cbn [Rx.star_loop]. f_equal.
    induction (step x) as [|y l IHl]; [reflexivity|]. cbn [flat_map].
    rewrite <- IHl. destruct (Nat.ltb_spec (length (snd y)) (length (snd x))); [lia|].
    reflexivity.
  - destruct fuel2 as [|m].
    + cbn [Rx.star_loop]. f_equal.
      induction (step x) as [|y l IHl]; [reflexivity|]. cbn [flat_map].
      rewrite IHl. destruct (Nat.ltb_spec (length (snd y)) (length (snd x))); [lia|].
      reflexivity.
    + cbn [Rx.star_loop]. f_equal. apply flat_map_ext. intros y.
      destruct (Nat.ltb_spec (length (snd y)) (length (snd x))); [|reflexivity].
      apply IH; lia.
Qed.

(** C7.  With the default read-path and write-path prefix lists,
    ["/etc/shadow"] is readable and not writable, and ["/tmp/x"] is both
    readable and writable.  The lists of [DEFAULTS] in the setup wizard
    give the same answers. *)
Theorem default_path_policy :
  (isPathReadable DEFAULT_READ_PATHS (txt "/etc/shadow") = true
   /\ isPathWritable DEFAULT_WRITE_PATHS (txt "/etc/shadow") = false
   /\ isPathReadable DEFAULT_READ_PATHS (txt "/tmp/x") = true
   /\ isPathWritable DEFAULT_WRITE_PATHS (txt "/tmp/x") = true)
  /\ (isPathReadable DEFAULTS_read_paths (txt "/etc/shadow") = true
      /\ isPathWritable DEFAULTS_write_paths (txt "/etc/shadow") = false
      /\ isPathReadable DEFAULTS_read_paths (txt "/tmp/x") = true
      /\ isPathWritable DEFAULTS_write_paths (txt "/tmp/x") = true).
Proof. repeat split; vm_compute; reflexivity. Qed.

(** The live lists of a first run add the working directory and the
    OpenClaw directory: reads and the write to ["/tmp/x"] are answered as
    above whatever these are, and ["/etc/shadow"] is writable exactly
    when one of the two is a prefix of it. *)
Lemma first_run_path_policy (cwd openclaw_dir : text) :
  isPathReadable (live_read_paths None openclaw_dir) (txt "/etc/shadow") = true
  /\ isPathReadable (live_read_paths None openclaw_dir) (txt "/tmp/x") = true
  /\ isPathWritable (live_write_paths None cwd openclaw_dir) (txt "/tmp/x") = true
  /\ isPathWritable (live_write_paths None cwd openclaw_dir) (txt "/etc/shadow")
     = Js.startsWith (txt "/etc/shadow") cwd
       || Js.startsWith (txt "/etc/shadow") openclaw_dir.
Proof.
  unfold isPathReadable, isPathWritable, live_read_paths, live_write_paths.
  rewrite !existsb_app.
  assert (Hw : existsb (fun p => Js.startsWith (txt "/etc/shadow") p)
                 DEFAULT_WRITE_PATHS = false) by reflexivity.
  rewrite Hw. cbn [existsb orb].
  rewrite orb_false_r.
  repeat split; reflexivity.
Qed.

Example shadow_writable_when_started_in_etc :
  isPathWritable (live_write_paths None (txt "/etc") DEFAULTS_openclaw_dir)
    (txt "/etc/shadow") = true.
Proof. reflexivity. Qed.


(** ** Executor *)

Lemma resolveTarget_RUN_CMD (h : Host) (target : text) :
  resolveTarget h RUN_CMD target = target.
Proof. reflexivity. Qed.




(** The three sources of the failure text, in the order of [||]. *)
Lemma errorText_cases (e : ExecError) :
  errorText e =
    if Js.truthy (err_stderr e) then default [] (err_stderr e)
    else if Js.truthy (err_stdout e) then default [] (err_stdout e)
    else err_message e.
Proof.
  unfold errorText, Js.or_else, Js.truthy.
  destruct (err_stderr e) as [[|c s]|]; destruct (err_stdout e) as [[|d t]|]; reflexivity.
Qed.

Lemma executeAction_unfold (front : Front) (h : Host) (type target : text)
    (content : option text) (st : State) :
  executeAction front h type target content st =
    match executeBody front h type (resolveTarget h type target) content st with
    | (Return r, st') => (r, st')
    | (Throw msg, st') => (mkResult false (txt "Error: " ++ msg), st')
    end.
Proof. reflexivity. Qed.

(** C3, as the code has it.  When the composed invocation (interpreter,
    quoted script path, appended arguments) of a [RUN_SCRIPT] matches a
    blocked pattern, no process is spawned and nothing else is done to
    the host; the result is a failure: the Blocked failure when the
    resolved script path passes the read-path check and exists, and the
    failure of whichever of these two earlier guards fires otherwise. *)
Theorem run_script_gate_on_composed_command
    (front : Front) (h : Host) (target : text) (content : option text) (st : State) :
  isCommandBlocked (fullCmd (resolveTarget h RUN_SCRIPT target) content) = true ->
  executeAction front h RUN_SCRIPT target content st =
    (if negb (isPathReadable (SAFE_READ_PATHS h) (resolveTarget h RUN_SCRIPT target))
     then accessDeniedRead (resolveTarget h RUN_SCRIPT target)
     else if negb (bool_decide (is_Some (fs st !! resolveTarget h RUN_SCRIPT target)))
     then mkResult false (txt "Script not found: " ++ resolveTarget h RUN_SCRIPT target)
     else scriptBlocked,
     st).
Proof.
  intros Hgate. rewrite executeAction_unfold.
  set (t := resolveTarget h RUN_SCRIPT target) in *.
  unfold executeBody.
  change (is_type RUN_SCRIPT READ_FILE) with false.
  change (is_type RUN_SCRIPT RUN_CMD) with false.
  change (is_type RUN_SCRIPT RUN_SCRIPT) with true.
  cbn iota.
  destruct (isPathReadable (SAFE_READ_PATHS h) t); cbn [negb]; [|reflexivity].
  unfold existsSync, bind, get_fs, ret.
  destruct (bool_decide (is_Some (fs st !! t))); cbn [negb]; [|reflexivity].
  rewrite Hgate. reflexivity.
Qed.

Lemma run_script_gate_witness :
  isCommandBlocked (txt "/tmp/run.sh") = false
  /\ isCommandBlocked
       (fullCmd (resolveTarget Fixtures.host0 RUN_SCRIPT (txt "/tmp/run.sh"))
          (Some (txt "; rm -rf /"))) = true
  /\ executeAction Terminal Fixtures.host0 RUN_SCRIPT (txt "/tmp/run.sh")
       (Some (txt "; rm -rf /")) Fixtures.st0
     = (scriptBlocked, Fixtures.st0).
Proof.
  split; [reflexivity|]. split; [reflexivity|].
  exact (run_script_gate_on_composed_command Terminal Fixtures.host0
           (txt "/tmp/run.sh") (Some (txt "; rm -rf /")) Fixtures.st0 eq_refl).
Defined.

(** C3 as stated fails: a script outside the read paths whose
    arguments compose into a blocked command is answered with the
    access-denied failure, not with the Blocked failure. *)
Lemma blocked_arguments_of_unreadable_script :
  isCommandBlocked
    (fullCmd (resolveTarget Fixtures.host0 RUN_SCRIPT (txt "/root/fix.sh"))
       (Some (txt "; rm -rf /"))) = true
  /\ fst (executeAction Terminal Fixtures.host0 RUN_SCRIPT (txt "/root/fix.sh")
            (Some (txt "; rm -rf /")) Fixtures.st0)
     = accessDeniedRead (txt "/root/fix.sh")
  /\ fst (executeAction Terminal Fixtures.host0 RUN_SCRIPT (txt "/root/fix.sh")
            (Some (txt "; rm -rf /")) Fixtures.st0)
     <> scriptBlocked.
Proof.
  split; [reflexivity|]. split; [reflexivity|].
  vm_compute. discriminate.
Qed.

(** *** Resolution of relative targets *)

Lemma normalize_absolute (p : text) :
  NodePath.isAbsolute p = true -> NodePath.isAbsolute (NodePath.normalize p) = true.
Proof.
  intros Habs. destruct p as [|c p]; [discriminate|].
  unfold NodePath.normalize. rewrite Habs.
  destruct (NodePath.normalizeString (c :: p) (negb true)); [reflexivity|].
  unfold NodePath.isAbsolute. cbn. reflexivity.
Qed.

Lemma isAbsolute_app (a b : text) :
  NodePath.isAbsolute a = true -> NodePath.isAbsolute (a ++ b) = true.
Proof. destruct a as [|c a]; [discriminate|]. intros H. exact H. Qed.

Lemma join_absolute (a b : text) :
  NodePath.isAbsolute a = true -> NodePath.isAbsolute (NodePath.join a b) = true.
Proof.
  intros Habs. destruct a as [|c a]; [discriminate|].
  unfold NodePath.join. destruct b as [|d b].
  - now apply normalize_absolute.
  - apply normalize_absolute. now apply (isAbsolute_app (c :: a)).
Qed.

Lemma resolveTarget_absolute (h : Host) (type target : text) :
  NodePath.isAbsolute target = true -> resolveTarget h type target = target.
Proof.
  intros Habs. unfold resolveTarget.
  unfold NodePath.isAbsolute, NodePath.slash in Habs.
  change (txt "/") with ["/"%char]. rewrite Habs.
  now rewrite andb_false_r.
Qed.

(** C10, as the code has it.  For a kind other than [RUN_CMD], a
    non-empty target that does not begin with ['/'] is replaced by
    [join(process.cwd(), target)] before anything else is done; that
    path is absolute, and the whole execution is the execution of the
    same action on that absolute path, so every check sees the resolved
    path only.  A [RUN_CMD] target is never resolved. *)
Theorem relative_target_resolved_before_checks
    (front : Front) (h : Host) (type target : text) (content : option text)
    (st : State) :
  is_type type RUN_CMD = false ->
  target <> [] ->
  Js.startsWith target (txt "/") = false ->
  resolveTarget h type target = NodePath.join (process_cwd h) target
  /\ NodePath.isAbsolute (NodePath.join (process_cwd h) target) = true
  /\ executeAction front h type target content st
     = executeAction front h type (NodePath.join (process_cwd h) target) content st
  /\ (forall cmd, resolveTarget h RUN_CMD cmd = cmd).
Proof.
  intros Hkind Hne Hrel.
  assert (Hres : resolveTarget h type target = NodePath.join (process_cwd h) target).
  { unfold resolveTarget. rewrite Hkind, Hrel.
    destruct target; [contradiction|reflexivity]. }
  assert (Habs : NodePath.isAbsolute (NodePath.join (process_cwd h) target) = true)
    by (apply join_absolute, cwd_absolute).
  repeat split; try assumption.
  rewrite !executeAction_unfold.
  now rewrite (resolveTarget_absolute h type _ Habs), Hres.
Qed.

Lemma relative_target_witness :
  resolveTarget Fixtures.host0 READ_FILE (txt "../../etc/shadow") = txt "/etc/shadow"
  /\ executeAction Terminal Fixtures.host0 WRITE_FILE (txt "../../etc/shadow")
       (Some (txt "x")) Fixtures.st0
     = executeAction Terminal Fixtures.host0 WRITE_FILE (txt "/etc/shadow")
         (Some (txt "x")) Fixtures.st0.
Proof.
  split.
  - exact (proj1 (relative_target_resolved_before_checks Terminal Fixtures.host0
                    READ_FILE (txt "../../etc/shadow") None Fixtures.st0
                    eq_refl ltac:(discriminate) eq_refl)).
  - exact (proj1 (proj2 (proj2
             (relative_target_resolved_before_checks Terminal Fixtures.host0
                WRITE_FILE (txt "../../etc/shadow") (Some (txt "x")) Fixtures.st0
                eq_refl ltac:(discriminate) eq_refl)))).
Defined.

(** C10 as stated fails on the empty target: it does not begin with
    ['/'], yet the guard [target &&] leaves it unresolved, and the read
    check is made on the empty string.  A tag with a blank payload is
    extracted with this target. *)
Lemma empty_target_is_not_resolved :
  extractActions (txt "[ACTION:READ_FILE: [/ACTION]") = [mkAction READ_FILE [] None]
  /\ Js.startsWith [] (txt "/") = false
  /\ resolveTarget Fixtures.host0 READ_FILE [] = []
  /\ resolveTarget Fixtures.host0 READ_FILE []
     <> NodePath.join (process_cwd Fixtures.host0) []
  /\ NodePath.isAbsolute (resolveTarget Fixtures.host0 READ_FILE []) = false
  /\ executeAction Terminal Fixtures.host0 READ_FILE [] None Fixtures.st0
     = (accessDeniedRead [], Fixtures.st0).
Proof.
  repeat split; try reflexivity.
  vm_compute. discriminate.
Qed.

(** *** The backup path *)

Lemma split_on_nonempty (c : ascii) (s : text) : NodePath.split_on c s <> [].
Proof.
  induction s as [|d s IH]; cbn; [discriminate|].
  destruct (Js.ascii_eqb d c); [discriminate|].
  destruct (NodePath.split_on c s); discriminate.
Qed.

Lemma split_on_free (c : ascii) (seg : text) :
  forallb (fun d => negb (Js.ascii_eqb d c)) seg = true ->
  NodePath.split_on c seg = [seg].
Proof.
  induction seg as [|d seg IH]; cbn; [reflexivity|].
  intros H. apply andb_prop in H as [Hd Hs].
  apply negb_true_iff in Hd. rewrite Hd, (IH Hs). reflexivity.
Qed.

Lemma split_on_snoc (c : ascii) (a seg : text) :
  forallb (fun d => negb (Js.ascii_eqb d c)) seg = true ->
  NodePath.split_on c (a ++ c :: seg) = NodePath.split_on c a ++ [seg].
Proof.
  intros Hfree. induction a as [|d a IH]; cbn.
  - unfold Js.ascii_eqb. rewrite Ascii.eqb_refl. now rewrite split_on_free.
  - destruct (Js.ascii_eqb d c); rewrite IH; [reflexivity|].
    pose proof (split_on_nonempty c a) as Hne.
    destruct (NodePath.split_on c a); [contradiction|reflexivity].
Qed.

Lemma join_with_snoc (sep : text) (xs : list text) (seg : text) :
  exists pre, NodePath.join_with sep (xs ++ [seg]) = pre ++ seg.
Proof.
  induction xs as [|x xs [pre IH]].
  - exists []. reflexivity.
  - exists (x ++ sep ++ pre). cbn [app NodePath.join_with].
    destruct (xs ++ [seg]) as [|y ys] eqn:E.
    + destruct xs; discriminate.
    + rewrite IH. now rewrite <- !app_assoc.
Qed.

(** A path segment as [backupFile] builds it: free of ['/'] and ending
    in [".bak"]. *)
Lemma normalize_keeps_backup_segment (pfx body : text) :
  (pfx = [] \/ exists a, pfx = a ++ [NodePath.slash]) ->
  forallb (fun d => negb (Js.ascii_eqb d NodePath.slash)) body = true ->
  exists pre, NodePath.normalize (pfx ++ body ++ txt ".bak") = pre ++ body ++ txt ".bak".
Proof.
  intros Hpfx Hfree.
  set (seg := body ++ txt ".bak").
  assert (Hseg : forallb (fun d => negb (Js.ascii_eqb d NodePath.slash)) seg = true).
  { unfold seg. rewrite forallb_app, Hfree. reflexivity. }
  assert (Hnormal : forall res allow, NodePath.push_segment allow res seg = seg :: res).
  { intros res allow. unfold NodePath.push_segment, NodePath.text_eqb.
    rewrite !bool_decide_eq_false_2; [reflexivity| | |];
      intros E; apply (f_equal (@length ascii)) in E;
      unfold seg in E; rewrite length_app in E; cbn in E; lia. }
  assert (Hsplit : exists l, NodePath.split_on NodePath.slash (pfx ++ seg) = l ++ [seg]).
  { destruct Hpfx as [-> | [a ->]].
    - exists []. now apply split_on_free.
    - exists (NodePath.split_on NodePath.slash a).
      rewrite <- app_assoc. now apply split_on_snoc. }
  destruct Hsplit as [l Hsplit].
  assert (Hns : forall allow, exists pre,
             NodePath.normalizeString (pfx ++ seg) allow = pre ++ seg).
  { intros allow. unfold NodePath.normalizeString.
    rewrite Hsplit, fold_left_app. cbn [fold_left]. rewrite Hnormal.
    cbn [rev]. apply join_with_snoc. }
  assert (Htrail : Js.endsWith (pfx ++ seg) [NodePath.slash] = false).
  { unfold Js.endsWith, seg. rewrite !rev_app_distr. reflexivity. }
  unfold NodePath.normalize.
  destruct (pfx ++ seg) as [|c0 rest] eqn:Epath.
  { destruct pfx; discriminate Epath || (unfold seg in Epath; destruct body; discriminate). }
  rewrite Htrail.
  destruct (Hns (negb (NodePath.isAbsolute (c0 :: rest)))) as [pre Hpre].
  rewrite Hpre.
  destruct (pre ++ seg) as [|x xs] eqn:E.
  { destruct pre; [unfold seg in E; destruct body; discriminate | discriminate]. }
  rewrite <- E.
  destruct (NodePath.isAbsolute (c0 :: rest)).
  - exists (NodePath.slash :: pre). reflexivity.
  - exists pre. reflexivity.
Qed.

Lemma ascii_eqb_eq (a b : ascii) : Js.ascii_eqb a b = true <-> a = b.
Proof. apply Ascii.eqb_eq. Qed.

Lemma timestamp_slash_free (h : Host) :
  forallb (fun d => negb (Js.ascii_eqb d NodePath.slash)) (timestamp h) = true.
Proof.
  unfold timestamp. pose proof (now_iso_shape h) as Hshape.
  induction (now_iso h) as [|c s IH]; [reflexivity|].
  cbn [forallb] in Hshape. apply andb_prop in Hshape as [Hc Hs].
  cbn [flat_map]. rewrite forallb_app, (IH Hs), andb_true_r.
  destruct (Js.ascii_eqb c ":" || Js.ascii_eqb c "."); [reflexivity|].
  cbn [forallb]. rewrite andb_true_r. apply negb_true_iff.
  destruct (Js.ascii_eqb c NodePath.slash) eqn:E; [|reflexivity].
  apply ascii_eqb_eq in E. subst c. discriminate Hc.
Qed.

Lemma replaceChar_slash_free (t : text) :
  forallb (fun d => negb (Js.ascii_eqb d NodePath.slash))
    (Js.replaceChar "/" (txt "__") t) = true.
Proof.
  unfold Js.replaceChar. induction t as [|c t IH]; [reflexivity|].
  cbn [flat_map]. rewrite forallb_app, IH, andb_true_r.
  destruct (Js.ascii_eqb c "/") eqn:E; [reflexivity|].
  cbn [forallb]. unfold NodePath.slash. now rewrite E.
Qed.

Lemma replaceChar_length (t : text) :
  length t <= length (Js.replaceChar "/" (txt "__") t).
Proof.
  unfold Js.replaceChar. induction t as [|c t IH]; [reflexivity|].
  cbn [flat_map]. rewrite length_app. cbn [length].
  destruct (Js.ascii_eqb c "/").
  - change (length (txt "__")) with 2. lia.
  - cbn [length]. lia.
Qed.

(** The backup path is the backup directory followed by the encoded
    name, so it is strictly longer than the path it backs up. *)
Lemma backupPath_shape (h : Host) (t : text) :
  exists pre, backupPath h t = pre ++ backupName h t.
Proof.
  unfold backupPath, backupName.
  set (body := Js.replaceChar "/" (txt "__") t ++ txt "." ++ timestamp h).
  assert (Hbody : forallb (fun d => negb (Js.ascii_eqb d NodePath.slash)) body = true).
  { unfold body. rewrite !forallb_app, replaceChar_slash_free, timestamp_slash_free.
    reflexivity. }
  replace (Js.replaceChar "/" (txt "__") t ++ txt "." ++ timestamp h ++ txt ".bak")
    with (body ++ txt ".bak") by (unfold body; now rewrite <- !app_assoc).
  assert (Hne : body ++ txt ".bak" <> []) by (destruct body; discriminate).
  unfold NodePath.join.
  destruct (BACKUP_DIR h) as [|c d] eqn:Ed.
  - destruct (body ++ txt ".bak") as [|x xs] eqn:E; [contradiction|]. rewrite <- E.
    apply (normalize_keeps_backup_segment [] body); [now left | exact Hbody].
  - destruct (body ++ txt ".bak") as [|x xs] eqn:E; [contradiction|]. rewrite <- E.
    replace ((c :: d) ++ [NodePath.slash] ++ body ++ txt ".bak")
      with (((c :: d) ++ [NodePath.slash]) ++ body ++ txt ".bak")
      by now rewrite <- app_assoc.
    apply normalize_keeps_backup_segment; [right; now exists (c :: d) | exact Hbody].
Qed.


Lemma backupPath_fresh (h : Host) (t : text) : backupPath h t <> t.
Proof.
  destruct (backupPath_shape h t) as [pre Hpre]. intros E.
  apply (f_equal (@length ascii)) in E. rewrite Hpre in E.
  unfold backupName in E. rewrite !length_app in E.
  pose proof (replaceChar_length t) as Hlen.
  change (length (txt ".")) with 1 in E. change (length (txt ".bak")) with 4 in E.
  lia.
Qed.

(** *** What the file-system calls do *)

Lemma only_dirs_added_refl (f : store) : only_dirs_added f f.
Proof. intros q. now left. Qed.

Lemma only_dirs_added_file (f f1 : store) (q : text) (d : text) :
  only_dirs_added f f1 -> f !! q = Some (File d) -> f1 !! q = Some (File d).
Proof.
  intros H Hq. destruct (H q) as [E | [_ F]]; [congruence|].
  unfold is_file in F. rewrite Hq in F. discriminate.
Qed.


Lemma lookup_mkdir_chain (f : store) (chain : list text) (q : text) :
  foldr (fun p g => <[p := Dir]> g) f chain !! q
  = if bool_decide (q ∈ chain) then Some Dir else f !! q.
Proof.
  induction chain as [|p chain IH]; cbn [foldr].
  - rewrite bool_decide_eq_false_2; [reflexivity|]. apply not_elem_of_nil.
  - destruct (decide (p = q)) as [->|Hne].
    + rewrite lookup_insert_eq, bool_decide_eq_true_2; [reflexivity|].
      apply elem_of_cons. now left.
    + rewrite lookup_insert_ne by exact Hne. rewrite IH.
      destruct (bool_decide (q ∈ chain)) eqn:E.
      * apply bool_decide_eq_true_1 in E.
        rewrite bool_decide_eq_true_2; [reflexivity|]. apply elem_of_cons. now right.
      * apply bool_decide_eq_false_1 in E.
        rewrite bool_decide_eq_false_2; [reflexivity|].
        intros [?|?]%elem_of_cons; congruence.
Qed.

Lemma existsSync_run (p : text) (st : State) :
  existsSync p st = (Return (bool_decide (is_Some (fs st !! p))), st).
Proof. reflexivity. Qed.

Lemma mkdirSync_cases (p : text) (st : State) :
  (exists msg, mkdirSync p st = (Throw msg, st))
  \/ (exists f1, mkdirSync p st = (Return tt, mkState f1 (trace st ++ [MadeDir p]))
                 /\ only_dirs_added (fs st) f1).
Proof.
  unfold mkdirSync, bind, get_fs.
  destruct (existsb (is_file (fs st)) (ancestors (length p) p)) eqn:E.
  - left. eexists. reflexivity.
  - right. eexists. split; [reflexivity|].
    intros q. cbn [fs]. rewrite lookup_mkdir_chain.
    destruct (bool_decide (q ∈ ancestors (length p) p)) eqn:Hq; [|now left].
    right. split; [reflexivity|].
    apply bool_decide_eq_true_1, list_elem_of_In in Hq.
    destruct (is_file (fs st) q) eqn:F; [|reflexivity].
    assert (existsb (is_file (fs st)) (ancestors (length p) p) = true)
      by (apply existsb_exists; eauto).
    congruence.
Qed.

(** The optional [mkdirSync] in front of a write. *)
Lemma ensure_dir_cases (missing : bool) (p : text) (st : State) :
  (exists msg, (if missing then mkdirSync p else ret tt) st = (Throw msg, st))
  \/ (exists f1 pre,
        (if missing then mkdirSync p else ret tt) st
        = (Return tt, mkState f1 (trace st ++ pre))
        /\ only_dirs_added (fs st) f1
        /\ Forall (fun e => exists q, e = MadeDir q) pre).
Proof.
  destruct missing.
  - destruct (mkdirSync_cases p st) as [[msg E] | [f1 [E H]]].
    + left. eauto.
    + right. exists f1, [MadeDir p]. repeat split; eauto.
  - right. exists (fs st), []. rewrite app_nil_r. destruct st.
    repeat split; auto using only_dirs_added_refl.
Qed.

Lemma copyFileSync_file (src dst : text) (old : text) (st : State) :
  fs st !! src = Some (File old) ->
  (exists msg, copyFileSync src dst st = (Throw msg, st))
  \/ copyFileSync src dst st
     = (Return tt, mkState (<[dst := File old]> (fs st)) (trace st ++ [Copied src dst])).
Proof.
  intros Hsrc. unfold copyFileSync, bind, get_fs. rewrite Hsrc.
  destruct (fs st !! dst) as [[d|]|]; [now right | left; eauto | now right].
Qed.

Lemma copyFileSync_dir (src dst : text) (st : State) :
  fs st !! src = Some Dir -> exists msg, copyFileSync src dst st = (Throw msg, st).
Proof. intros Hsrc. unfold copyFileSync, bind, get_fs. rewrite Hsrc. eauto. Qed.

Lemma writeFileSync_cases (p : text) (data : option text) (st : State) :
  (exists msg, writeFileSync p data st = (Throw msg, st))
  \/ (exists d, data = Some d
                /\ writeFileSync p data st
                   = (Return tt, mkState (<[p := File d]> (fs st)) (trace st ++ [Wrote p d]))).
Proof.
  unfold writeFileSync. destruct data as [d|]; [|left; eauto].
  unfold bind, get_fs.
  destruct (fs st !! p) as [[x|]|]; [right | left | right]; eauto.
Qed.

Lemma backupFile_cases (h : Host) (t : text) (st : State) :
  match fs st !! t with
  | None => backupFile h t st = (Return None, st)
  | Some Dir =>
      exists msg f1 pre,
        backupFile h t st = (Throw msg, mkState f1 (trace st ++ pre))
        /\ Forall (fun e => exists q, e = MadeDir q) pre
  | Some (File old) =>
      (exists msg f1 tr, backupFile h t st = (Throw msg, mkState f1 tr)
                         /\ only_dirs_added (fs st) f1)
      \/ (exists f1 pre,
            backupFile h t st
            = (Return (Some (backupPath h t)),
               mkState (<[backupPath h t := File old]> f1)
                 (trace st ++ pre ++ [Copied t (backupPath h t)]))
            /\ only_dirs_added (fs st) f1
            /\ Forall (fun e => exists q, e = MadeDir q) pre)
  end.
Proof.
  assert (Hunfold : backupFile h t st =
            if negb (bool_decide (is_Some (fs st !! t))) then (Return None, st)
            else
              match (if negb (bool_decide (is_Some (fs st !! BACKUP_DIR h)))
                     then mkdirSync (BACKUP_DIR h) else ret tt) st with
              | (Return _, st1) =>
                  match copyFileSync t (backupPath h t) st1 with
                  | (Return _, st2) => (Return (Some (backupPath h t)), st2)
                  | (Throw msg, st2) => (Throw msg, st2)
                  end
              | (Throw msg, st1) => (Throw msg, st1)
              end).
  { unfold backupFile, bind. rewrite existsSync_run.
    destruct (negb (bool_decide (is_Some (fs st !! t)))); reflexivity. }
  rewrite Hunfold. clear Hunfold.
  destruct (fs st !! t) as [nd|] eqn:Ht.
  2:{ rewrite bool_decide_eq_false_2; [reflexivity|]. intros [? ?]. discriminate. }
  rewrite bool_decide_eq_true_2 by eauto. cbn [negb].
  destruct (ensure_dir_cases (negb (bool_decide (is_Some (fs st !! BACKUP_DIR h))))
              (BACKUP_DIR h) st) as [[msg E] | [f1 [pre [E [Hadd Hpre]]]]]; rewrite E.
  { destruct nd; [left|].
    - exists msg, (fs st), (trace st). destruct st. split; [reflexivity|].
      apply only_dirs_added_refl.
    - exists msg, (fs st), []. rewrite app_nil_r. destruct st. now split. }
  destruct nd as [old|].
  - assert (Hsrc : fs (mkState f1 (trace st ++ pre)) !! t = Some (File old))
      by (cbn [fs]; eauto using only_dirs_added_file).
    destruct (copyFileSync_file t (backupPath h t) old _ Hsrc) as [[msg Ec] | Ec]; rewrite Ec.
    + left. eauto.
    + right. exists f1, pre. cbn [fs trace]. rewrite <- app_assoc. auto.
  - assert (Hsrc : fs (mkState f1 (trace st ++ pre)) !! t = Some Dir).
    { cbn [fs]. destruct (Hadd t) as [Eq | [Eq _]]; congruence. }
    destruct (copyFileSync_dir t (backupPath h t) _ Hsrc) as [msg Ec]. rewrite Ec.
    exists msg, f1, pre. now split.
Qed.

Lemma executeBody_WRITE_FILE (front : Front) (h : Host) (t : text)
    (content : option text) (st : State) :
  executeBody front h WRITE_FILE t content st =
    if negb (isPathWritable (SAFE_WRITE_PATHS h) t) then
      (Return (accessDeniedWrite t), st)
    else
      match (if negb (bool_decide (is_Some (fs st !! NodePath.dirname t)))
             then mkdirSync (NodePath.dirname t) else ret tt) st with
      | (Return _, st1) =>
          match backupFile h t st1 with
          | (Return backup, st2) =>
              match writeFileSync t content st2 with
              | (Return _, st3) => (Return (mkResult true (writeMessage t backup)), st3)
              | (Throw msg, st3) => (Throw msg, st3)
              end
          | (Throw msg, st2) => (Throw msg, st2)
          end
      | (Throw msg, st1) => (Throw msg, st1)
      end.
Proof.
  unfold executeBody.
  change (is_type WRITE_FILE READ_FILE) with false.
  change (is_type WRITE_FILE RUN_CMD) with false.
  change (is_type WRITE_FILE RUN_SCRIPT) with false.
  change (is_type WRITE_FILE WRITE_FILE) with true.
  cbn iota.
  destruct (negb (isPathWritable (SAFE_WRITE_PATHS h) t)); [reflexivity|].
  unfold bind. rewrite existsSync_run.
  destruct ((if negb (bool_decide (is_Some (fs st !! NodePath.dirname t)))
             then mkdirSync (NodePath.dirname t) else ret tt) st) as [[[]|msg] st1];
    [|reflexivity].
  destruct (backupFile h t st1) as [[backup|msg] st2]; [|reflexivity].
  destruct (writeFileSync t content st2) as [[[]|msg] st3]; reflexivity.
Qed.


(** X3.  Whatever the outcome of a [WRITE_FILE], failures included, a
    file that was there is never overwritten unless its previous bytes
    are in the backup store: afterwards the target still holds them, or
    the backup path does. *)
Lemma write_file_keeps_previous_bytes
    (front : Front) (h : Host) (target : text) (content : option text)
    (st : State) (old : text) :
  fs st !! resolveTarget h WRITE_FILE target = Some (File old) ->
  fs (snd (executeAction front h WRITE_FILE target content st))
     !! resolveTarget h WRITE_FILE target = Some (File old)
  \/ fs (snd (executeAction front h WRITE_FILE target content st))
        !! backupPath h (resolveTarget h WRITE_FILE target) = Some (File old).
Proof.
  set (t := resolveTarget h WRITE_FILE target). intros Ht.
  rewrite executeAction_unfold. fold t. rewrite executeBody_WRITE_FILE.
  destruct (negb (isPathWritable (SAFE_WRITE_PATHS h) t)); [now left|].
  destruct (ensure_dir_cases (negb (bool_decide (is_Some (fs st !! NodePath.dirname t))))
              (NodePath.dirname t) st) as [[msg E] | [f1 [pre1 [E [Hadd1 Hpre1]]]]];
    rewrite E; [now left|].
  pose proof (backupFile_cases h t (mkState f1 (trace st ++ pre1))) as Hb.
  cbn [fs trace] in Hb. rewrite (only_dirs_added_file _ _ _ _ Hadd1 Ht) in Hb.
  destruct Hb as [[msg [f2 [tr [Eb Hadd2]]]] | [f2 [pre2 [Eb [Hadd2 Hpre2]]]]]; rewrite Eb.
  { left. cbn [snd fs]. eauto using only_dirs_added_file. }
  right.
  match goal with |- context [writeFileSync t content ?s] =>
    destruct (writeFileSync_cases t content s) as [[msg Ew] | [c [-> Ew]]];
    rewrite Ew end; cbn [snd fs].
  - apply lookup_insert_eq.
  - rewrite lookup_insert_ne by (apply not_eq_sym, backupPath_fresh).
    apply lookup_insert_eq.
Qed.

(** X4.  Whatever the outcome of a [WRITE_FILE], nothing is copied
    when the target was not there: the effects are directory creations
    and at most the final write. *)
Lemma write_file_never_copies_for_new_target
    (front : Front) (h : Host) (target : text) (content : option text) (st : State) :
  fs st !! resolveTarget h WRITE_FILE target = None ->
  exists pre,
    trace (snd (executeAction front h WRITE_FILE target content st)) = trace st ++ pre
    /\ Forall (fun e => forall src dst, e <> Copied src dst) pre.
Proof.
  set (t := resolveTarget h WRITE_FILE target). intros Ht.
  assert (Hmk : forall pre, Forall (fun e => exists q, e = MadeDir q) pre ->
                  Forall (fun e => forall src dst, e <> Copied src dst) pre).
  { intros pre Hpre. eapply Forall_impl; [exact Hpre|].
    intros e [q ->] src dst. discriminate. }
  rewrite executeAction_unfold. fold t. rewrite executeBody_WRITE_FILE.
  destruct (negb (isPathWritable (SAFE_WRITE_PATHS h) t)).
  { exists []. now rewrite app_nil_r. }
  destruct (ensure_dir_cases (negb (bool_decide (is_Some (fs st !! NodePath.dirname t))))
              (NodePath.dirname t) st) as [[msg E] | [f1 [pre1 [E [Hadd1 Hpre1]]]]];
    rewrite E.
  { exists []. now rewrite app_nil_r. }
  pose proof (backupFile_cases h t (mkState f1 (trace st ++ pre1))) as Hb.
  cbn [fs trace] in Hb.
  destruct (Hadd1 t) as [Eq | [Eq _]]; rewrite Eq in Hb.
  - rewrite Ht in Hb. rewrite Hb.
    match goal with |- context [writeFileSync t content ?s] =>
      destruct (writeFileSync_cases t content s) as [[msg Ew] | [c [-> Ew]]];
      rewrite Ew end; cbn [snd trace].
    + exists pre1. auto.
    + exists (pre1 ++ [Wrote t c]). rewrite app_assoc. split; [reflexivity|].
      apply Forall_app. split; [auto|]. repeat constructor. discriminate.
  - destruct Hb as [msg [f2 [pre2 [Eb Hpre2]]]]. rewrite Eb. cbn [snd trace].
    exists (pre1 ++ pre2). rewrite app_assoc. split; [reflexivity|].
    apply Forall_app. auto.
Qed.


(** A tag without a payload separator gives [content = null];
    [writeFileSync] rejects it after the backup was made, and the
    executor reports the failure. *)
Example write_file_without_content :
  let out1 := executeAction Terminal Fixtures.host0 WRITE_FILE (txt "/tmp/notes.txt")
               None Fixtures.st0 in
  fst out1 = mkResult false (txt "Error: The data argument must be of type string")
  /\ fs (snd out1) !! txt "/tmp/notes.txt" = Some (File (txt "old")).
Proof. split; reflexivity. Qed.


(** ** StreamTagScanner *)

(** *** Prefixes and occurrences *)

Lemma startsWith_app_same (p s : text) : Js.startsWith (p ++ s) p = true.
Proof.
  induction p as [|c p IH]; [reflexivity|].
  cbn. unfold Js.ascii_eqb. now rewrite Ascii.eqb_refl.
Qed.

Lemma startsWith_spec (s p : text) :
  Js.startsWith s p = true <-> exists w, s = p ++ w.
Proof.
  split.
  - revert s. induction p as [|c p IH]; intros s H; [now exists s|].
    destruct s as [|d s]; [discriminate|]. cbn in H.
    apply andb_prop in H as [Hc Hs]. apply ascii_eqb_eq in Hc. subst d.
    destruct (IH s Hs) as [w ->]. now exists w.
  - intros [w ->]. apply startsWith_app_same.
Qed.

Lemma startsWith_app_l (s p q : text) :
  Js.startsWith s (p ++ q) = true -> Js.startsWith s p = true.
Proof.
  intros H. apply startsWith_spec in H as [w ->].
  rewrite <- app_assoc. apply startsWith_app_same.
Qed.

Lemma find_sub_cons (pat s : text) (c : ascii) :
  find_sub pat s <> None -> find_sub pat (c :: s) <> None.
Proof.
  intros H. cbn [find_sub].
  destruct (Js.startsWith (c :: s) pat); [discriminate|].
  destruct (find_sub pat s) as [[a b]|]; [discriminate|contradiction].
Qed.

Lemma find_sub_app (pat a s : text) :
  find_sub pat s <> None -> find_sub pat (a ++ s) <> None.
Proof. induction a; [trivial|]. intros H. cbn [app]. now apply find_sub_cons, IHa. Qed.

Lemma find_sub_occurs (pat a b : text) : find_sub pat (a ++ pat ++ b) <> None.
Proof.
  apply find_sub_app. destruct (pat ++ b) eqn:E; cbn [find_sub];
    rewrite <- E, startsWith_app_same; discriminate.
Qed.

Lemma find_sub_None_head (pat s : text) :
  find_sub pat s = None -> Js.startsWith s pat = false.
Proof.
  destruct s; cbn [find_sub]; destruct (Js.startsWith _ pat); congruence.
Qed.

Lemma find_sub_None_tail (pat s : text) (c : ascii) :
  find_sub pat (c :: s) = None -> find_sub pat s = None.
Proof.
  intros H. destruct (find_sub pat s) eqn:E; [|reflexivity].
  exfalso. apply (find_sub_cons pat s c); congruence.
Qed.

Lemma includes_find_sub (s pat : text) :
  Js.includes s pat = false <-> find_sub pat s = None.
Proof.
  unfold Js.includes. induction s as [|c s IH]; cbn [Js.indexOf find_sub].
  - destruct (Js.startsWith [] pat); split; congruence.
  - destruct (Js.startsWith (c :: s) pat); [split; congruence|].
    destruct (Js.indexOf s pat), (find_sub pat s) as [[a b]|]; cbn;
      split; try congruence; intros; exfalso; apply IH in H || apply IH; congruence.
Qed.

(** *** Text without markup *)

Lemma match_opener_needs_mark (s : text) :
  Js.startsWith s MARK = false -> match_opener s = None.
Proof.
  intros H. unfold match_opener, strip_prefix.
  destruct (Js.startsWith s OPEN) eqn:E; [|reflexivity].
  apply (startsWith_app_l s MARK (txt ":")) in E. congruence.
Qed.

Lemma match_new_at_needs_mark (s : text) :
  Js.startsWith s MARK = false -> match_new_at s = None.
Proof. intros H. unfold match_new_at. now rewrite match_opener_needs_mark. Qed.

Lemma match_old_at_needs_mark (b : bool) (s : text) :
  Js.startsWith s MARK = false -> match_old_at b s = None.
Proof. intros H. unfold match_old_at. now rewrite match_opener_needs_mark. Qed.

Lemma search_without_mark (at_head : text -> option (text * text * text)) (s : text) :
  (forall s', Js.startsWith s' MARK = false -> at_head s' = None) ->
  find_sub MARK s = None ->
  search at_head s = None.
Proof.
  intros Hhead. induction s as [|c s IH]; intros Hs; cbn [search].
  - now rewrite Hhead by now apply find_sub_None_head.
  - rewrite Hhead by now apply find_sub_None_head.
    now rewrite IH by now apply find_sub_None_tail in Hs.
Qed.

Lemma exec_all_no_match (at_head : text -> option (text * text * text))
    (fuel : nat) (s : text) :
  search at_head s = None -> exec_all at_head fuel s = [].
Proof. intros H. destruct fuel; cbn; [reflexivity|]. now rewrite H. Qed.

Lemma remove_all_no_match (at_head : text -> option (text * text * text))
    (fuel : nat) (s : text) :
  search at_head s = None -> remove_all at_head fuel s = s.
Proof. intros H. destruct fuel; cbn; [reflexivity|]. now rewrite H. Qed.

(** C4, as the code has it.  On a text in which ["[ACTION"] does not
    occur, [stripActions] returns the text with its leading and trailing
    white space removed (hence the text itself when it has none), and
    [extractActions] returns no action. *)
Theorem plain_text_is_trimmed_and_has_no_action (t : text) :
  Js.includes t MARK = false ->
  stripActions t = Js.trim t
  /\ (Js.trim t = t -> stripActions t = t)
  /\ extractActions t = [].
Proof.
  intros Hplain. apply includes_find_sub in Hplain.
  assert (Hnew : search match_new_at t = None)
    by (apply search_without_mark; auto using match_new_at_needs_mark).
  assert (Hold : forall b, search (match_old_at b) t = None)
    by (intros b; apply search_without_mark; auto using match_old_at_needs_mark).
  assert (Hstrip : stripActions t = Js.trim t).
  { unfold stripActions.
    rewrite (remove_all_no_match match_new_at) by exact Hnew.
    rewrite (remove_all_no_match (match_old_at false)) by apply Hold.
    unfold remove_partial. now rewrite Hplain. }
  repeat split.
  - exact Hstrip.
  - intros Htrim. now rewrite Hstrip.
  - unfold extractActions.
    rewrite (remove_all_no_match match_new_at) by exact Hnew.
    rewrite (exec_all_no_match match_new_at) by exact Hnew.
    now rewrite (exec_all_no_match (match_old_at true)) by apply Hold.
Qed.

Lemma plain_text_witness :
  stripActions (txt "  Disk usage is at 91% [see df].  ") = txt "Disk usage is at 91% [see df]."
  /\ stripActions (txt "All services are up.") = txt "All services are up."
  /\ extractActions (txt "  Disk usage is at 91% [see df].  ") = [].
Proof.
  split; [|split].
  - exact (proj1 (plain_text_is_trimmed_and_has_no_action
                    (txt "  Disk usage is at 91% [see df].  ") eq_refl)).
  - exact (proj1 (proj2 (plain_text_is_trimmed_and_has_no_action
                           (txt "All services are up.") eq_refl)) eq_refl).
  - exact (proj2 (proj2 (plain_text_is_trimmed_and_has_no_action
                           (txt "  Disk usage is at 91% [see df].  ") eq_refl))).
Defined.

(** C4 as stated fails: a text without any bracket, but with white
    space around it, is not returned character for character. *)
Lemma padded_plain_text_is_not_preserved :
  Js.includes (txt " ok ") (txt "[") = false
  /\ extractActions (txt " ok ") = []
  /\ stripActions (txt " ok ") = txt "ok"
  /\ stripActions (txt " ok ") <> txt " ok ".
Proof. repeat split; try reflexivity. vm_compute. discriminate. Qed.

(** *** What [streamChat] returns *)

Lemma scan_char_full (st : Scan) (ch : ascii) : full (scan_char st ch) = full st.
Proof.
  unfold scan_char.
  repeat match goal with |- context [if ?b then _ else _] => destruct b end;
    reflexivity.
Qed.

Lemma scan_chars_full (cs : text) (st : Scan) :
  full (fold_left scan_char cs st) = full st.
Proof.
  revert st. induction cs as [|c cs IH]; intros st; [reflexivity|].
  cbn [fold_left]. now rewrite IH, scan_char_full.
Qed.

Lemma feed_full (st : Scan) (chunk : text) : full (feed st chunk) = full st ++ chunk.
Proof.
  destruct chunk as [|c chunk]; [now rewrite app_nil_r|].
  unfold feed. now rewrite scan_chars_full.
Qed.

Lemma scan_from_full (chunks : list text) (st : Scan) :
  full (fold_left feed chunks st) = full st ++ concat chunks.
Proof.
  revert st. induction chunks as [|c chunks IH]; intros st; cbn [fold_left concat].
  - now rewrite app_nil_r.
  - now rewrite IH, feed_full, <- app_assoc.
Qed.

Lemma streamChat_concat (chunks : list text) : streamChat chunks = concat chunks.
Proof. unfold streamChat, scan. now rewrite scan_from_full. Qed.

(** Payloads are split on the first colon only; a blank payload gives
    an empty target; a legacy tag is skipped when the text after the
    terminated tags were removed no longer holds it. *)
Example extractActions_examples :
  extractActions (txt "[ACTION:WRITE_FILE:/etc/hosts:127.0.0.1 a:b[/ACTION]")
    = [mkAction WRITE_FILE (txt "/etc/hosts") (Some (txt "127.0.0.1 a:b"))]
  /\ extractActions (txt "[ACTION:READ_FILE: [/ACTION] [ACTION:WRITE_FILE::x[/ACTION]")
     = [mkAction READ_FILE [] None; mkAction WRITE_FILE [] (Some (txt "x"))]
  /\ extractActions (txt "[ACTION:RUN_SCRIPT:/opt/a.sh] then [ACTION:RUN_CMD:df -h]")
     = [mkAction RUN_SCRIPT (txt "/opt/a.sh") None; mkAction RUN_CMD (txt "df -h") None]
  /\ extractActions (txt "[ACTION:RUN_CMD:ls] and [ACTION:READ_FILE:/etc/hosts[/ACTION]")
     = [mkAction RUN_CMD (txt "ls] and [ACTION:READ_FILE:/etc/hosts") None].
Proof. repeat split; reflexivity. Qed.

Example stripActions_examples :
  stripActions (txt "Check: [ACTION:RUN_CMD:ls[/ACTION] then [ACTION:READ_FILE:/x] ok")
    = txt "Check:  then  ok"
  /\ stripActions (txt "Check: [ACTION:RUN_CMD:ls") = txt "Check:".
Proof. split; reflexivity. Qed.

(** *** The opener *)

Lemma match_opener_open (ty rest : text) :
  In ty ACT_TYPES -> match_opener (OPEN ++ ty ++ txt ":" ++ rest) = Some (ty, rest).
Proof.
  intros H. cbn in H. destruct H as [<-|[<-|[<-|[<-|[]]]]]; reflexivity.
Qed.

Lemma strip_prefix_inv (p s s' : text) : strip_prefix p s = Some s' -> s = p ++ s'.
Proof.
  unfold strip_prefix. destruct (Js.startsWith s p) eqn:E; [|discriminate].
  apply startsWith_spec in E as [w ->]. intros [= <-].
  now rewrite drop_app_length.
Qed.

Lemma match_type_inv (types : list text) (s ty s' : text) :
  match_type types s = Some (ty, s') -> In ty types /\ s = ty ++ txt ":" ++ s'.
Proof.
  induction types as [|t types IH]; cbn [match_type]; [discriminate|].
  destruct (strip_prefix (t ++ txt ":") s) as [r|] eqn:E.
  - intros [= <- <-]. apply strip_prefix_inv in E. rewrite <- app_assoc in E.
    split; [now left | exact E].
  - intros H. destruct (IH H) as [Hin Hs]. split; [now right | exact Hs].
Qed.

Lemma match_opener_inv (s ty b : text) :
  match_opener s = Some (ty, b) -> In ty ACT_TYPES /\ s = OPEN ++ ty ++ txt ":" ++ b.
Proof.
  unfold match_opener. destruct (strip_prefix OPEN s) as [s'|] eqn:E; [|discriminate].
  intros H. apply match_type_inv in H as [Hin ->].
  apply strip_prefix_inv in E. now split.
Qed.

(** *** The loops over the matches terminate *)

Lemma find_sub_split (pat s a b : text) :
  find_sub pat s = Some (a, b) -> s = a ++ pat ++ b.
Proof.
  revert a. induction s as [|c s IH]; intros a; cbn [find_sub].
  - destruct (Js.startsWith [] pat) eqn:E; [|discriminate].
    intros [= <- <-]. apply startsWith_spec in E as [w E].
    destruct pat; [reflexivity|discriminate].
  - destruct (Js.startsWith (c :: s) pat) eqn:E.
    + intros [= <- <-]. apply startsWith_spec in E as [w E].
      rewrite E at 1. cbn [app]. f_equal. rewrite E. now rewrite drop_app_length.
    + destruct (find_sub pat s) as [[a' b']|] eqn:Es; [|discriminate].
      intros [= <- <-]. cbn [app]. f_equal. now apply IH.
Qed.

Lemma span_not_close_split (s a b : text) : span_not_close s = (a, b) -> s = a ++ b.
Proof.
  revert a. induction s as [|c s IH]; intros a; cbn [span_not_close].
  - now intros [= <- <-].
  - destruct (Js.ascii_eqb c "]"); [now intros [= <- <-]|].
    destruct (span_not_close s) as [a' b']. intros [= <- <-].
    cbn [app]. f_equal. now apply IH.
Qed.

Lemma match_new_at_consuming : consuming match_new_at.
Proof.
  intros s ty m2 rest. unfold match_new_at.
  destruct (match_opener s) as [[ty' b]|] eqn:E; [|discriminate].
  apply match_opener_inv in E as [_ ->].
  unfold lazy_body. destruct b as [|c b]; [discriminate|].
  destruct (find_sub CLOSE b) as [[pre post]|] eqn:Eb; [|discriminate].
  intros [= <- <- <-]. apply find_sub_split in Eb. subst b.
  rewrite !length_app. cbn [length]. rewrite !length_app. lia.
Qed.

Lemma match_old_at_consuming (atLeastOne : bool) : consuming (match_old_at atLeastOne).
Proof.
  intros s ty m2 rest. unfold match_old_at.
  destruct (match_opener s) as [[ty' b]|] eqn:E; [|discriminate].
  apply match_opener_inv in E as [_ ->].
  destruct (span_not_close b) as [run [|c after]] eqn:Eb; [discriminate|].
  destruct (atLeastOne && bool_decide (run = [])); [discriminate|].
  intros [= <- <- <-]. apply span_not_close_split in Eb. subst b.
  rewrite !length_app. cbn [length]. lia.
Qed.

Lemma search_consuming (at_head : text -> option (text * text * text))
    (s skipped ty m2 rest : text) :
  consuming at_head ->
  search at_head s = Some (skipped, (ty, m2, rest)) -> length rest < length s.
Proof.
  intros Hc. revert skipped. induction s as [|c s IH]; intros skipped; cbn [search].
  - destruct (at_head []) as [[[? ?] ?]|] eqn:E; [|discriminate].
    intros [= <- <- <- <-]. now apply Hc in E.
  - destruct (at_head (c :: s)) as [[[? ?] ?]|] eqn:E.
    + intros [= <- <- <- <-]. now apply Hc in E.
    + destruct (search at_head s) as [[sk [[? ?] ?]]|] eqn:Es; [|discriminate].
      intros [= <- <- <- <-]. specialize (IH _ eq_refl). cbn [length]. lia.
Qed.

Lemma exec_all_fuel (at_head : text -> option (text * text * text)) :
  consuming at_head ->
  forall fuel1 fuel2 s,
    length s < fuel1 -> length s < fuel2 ->
    exec_all at_head fuel1 s = exec_all at_head fuel2 s.
Proof.
  intros Hc. induction fuel1 as [|n IH]; intros fuel2 s H1 H2; [lia|].
  destruct fuel2 as [|m]; [lia|]. cbn [exec_all].
  destruct (search at_head s) as [[sk [[ty m2] rest]]|] eqn:E; [|reflexivity].
  pose proof (search_consuming _ _ _ _ _ _ Hc E). f_equal. apply IH; lia.
Qed.

Lemma remove_all_fuel (at_head : text -> option (text * text * text)) :
  consuming at_head ->
  forall fuel1 fuel2 s,
    length s < fuel1 -> length s < fuel2 ->
    remove_all at_head fuel1 s = remove_all at_head fuel2 s.
Proof.
  intros Hc. induction fuel1 as [|n IH]; intros fuel2 s H1 H2; [lia|].
  destruct fuel2 as [|m]; [lia|]. cbn [remove_all].
  destruct (search at_head s) as [[sk [[ty m2] rest]]|] eqn:E; [|reflexivity].
  pose proof (search_consuming _ _ _ _ _ _ Hc E). f_equal. apply IH; lia.
Qed.

(** *** A well-formed tag is recovered *)

Lemma match_new_at_needs_close (s : text) :
  find_sub CLOSE s = None -> match_new_at s = None.
Proof.
  intros Hnone. unfold match_new_at.
  destruct (match_opener s) as [[ty b]|] eqn:E; [|reflexivity].
  apply match_opener_inv in E as [_ ->].
  unfold lazy_body. destruct b as [|c b]; [reflexivity|].
  destruct (find_sub CLOSE b) as [[pre post]|] eqn:Eb; [|reflexivity].
  exfalso.
  apply (find_sub_app CLOSE (OPEN ++ ty ++ txt ":" ++ [c]) b); [congruence|].
  now rewrite <- !app_assoc.
Qed.

Lemma search_without_close (s : text) :
  find_sub CLOSE s = None -> search match_new_at s = None.
Proof.
  induction s as [|c s IH]; intros Hs; cbn [search];
    rewrite match_new_at_needs_close by exact Hs; [reflexivity|].
  now rewrite IH by now apply find_sub_None_tail in Hs.
Qed.

Lemma span_not_close_run (payload rest : text) :
  forallb (fun c => negb (Js.ascii_eqb c "]")) payload = true ->
  span_not_close (payload ++ "]"%char :: rest) = (payload, "]"%char :: rest).
Proof.
  induction payload as [|c payload IH]; intros H; [reflexivity|].
  cbn [forallb] in H. apply andb_prop in H as [Hc Hp]. apply negb_true_iff in Hc.
  cbn [app span_not_close]. now rewrite Hc, (IH Hp).
Qed.

Lemma exec_all_nil (at_head : text -> option (text * text * text)) (fuel : nat) :
  at_head [] = None -> exec_all at_head fuel [] = [].
Proof. intros H. apply exec_all_no_match. cbn. now rewrite H. Qed.

Lemma remove_all_nil (at_head : text -> option (text * text * text)) (fuel : nat) :
  at_head [] = None -> remove_all at_head fuel [] = [].
Proof. intros H. apply remove_all_no_match. cbn. now rewrite H. Qed.

(** The terminator-delimited form: a payload after whose first code
    unit the first ["[/ACTION]"] is the closing one. *)
Lemma terminated_tag_recovered (ty payload : text) (chunks : list text) :
  In ty ACT_TYPES ->
  lazy_body (payload ++ CLOSE) = Some (payload, []) ->
  concat chunks = OPEN ++ ty ++ txt ":" ++ payload ++ CLOSE ->
  extractActions (streamChat chunks) = [descriptor (ty, payload)].
Proof.
  intros Hty Hbody Hcat. rewrite streamChat_concat, Hcat.
  assert (Hhead : search match_new_at (OPEN ++ ty ++ txt ":" ++ payload ++ CLOSE)
                  = Some ([], (ty, payload, []))).
  { destruct (OPEN ++ ty ++ txt ":" ++ payload ++ CLOSE) eqn:E; [discriminate E|].
    rewrite <- E. destruct (OPEN ++ ty ++ txt ":" ++ payload ++ CLOSE) eqn:E';
      cbn [search]; rewrite <- E'; unfold match_new_at;
      now rewrite match_opener_open, Hbody. }
  unfold extractActions. cbn [exec_all remove_all]. rewrite Hhead. cbn beta iota.
  rewrite (exec_all_nil match_new_at), (remove_all_nil match_new_at) by reflexivity.
  reflexivity.
Qed.

(** The legacy form: a non-empty payload without []], in a text that
    holds no terminator. *)
Lemma legacy_tag_recovered (ty payload : text) (chunks : list text) :
  In ty ACT_TYPES ->
  payload <> [] ->
  forallb (fun c => negb (Js.ascii_eqb c "]")) payload = true ->
  find_sub CLOSE (OPEN ++ ty ++ txt ":" ++ payload ++ txt "]") = None ->
  concat chunks = OPEN ++ ty ++ txt ":" ++ payload ++ txt "]" ->
  extractActions (streamChat chunks) = [descriptor (ty, payload)].
Proof.
  intros Hty Hne Hfree Hnoclose Hcat. rewrite streamChat_concat, Hcat.
  set (s := OPEN ++ ty ++ txt ":" ++ payload ++ txt "]") in *.
  assert (Hold : search (match_old_at true) s = Some ([], (ty, payload, []))).
  { assert (Hat : match_old_at true s = Some (ty, payload, [])).
    { unfold match_old_at, s. rewrite match_opener_open by exact Hty.
      change (txt "]") with ("]"%char :: []).
      rewrite span_not_close_run by exact Hfree.
      rewrite bool_decide_eq_false_2 by exact Hne. reflexivity. }
    destruct s; cbn [search]; now rewrite Hat. }
  unfold extractActions. fold s.
  rewrite (remove_all_no_match match_new_at) by now apply search_without_close.
  rewrite (exec_all_no_match match_new_at) by now apply search_without_close.
  cbn [exec_all app map]. rewrite Hold. cbn beta iota.
  now rewrite exec_all_nil by reflexivity.
Qed.

Example terminated_tag_recovered_example :
  extractActions
    (streamChat (map txt ["[ACTION:RUN_SCR"; "IPT:/opt/fix.sh:--dry"; "-run [/ACT"; "ION]"]%string))
  = [mkAction RUN_SCRIPT (txt "/opt/fix.sh") (Some (txt "--dry-run"))].
Proof.
  exact (terminated_tag_recovered RUN_SCRIPT (txt "/opt/fix.sh:--dry-run ")
           (map txt ["[ACTION:RUN_SCR"; "IPT:/opt/fix.sh:--dry"; "-run [/ACT"; "ION]"]%string)
           ltac:(cbn; tauto) eq_refl eq_refl).
Qed.

Example legacy_tag_recovered_example :
  extractActions (streamChat (map txt ["[ACTION:READ_"; "FILE:/etc/ho"; "sts]"]%string))
  = [mkAction READ_FILE (txt "/etc/hosts") None].
Proof.
  exact (legacy_tag_recovered READ_FILE (txt "/etc/hosts")
           (map txt ["[ACTION:READ_"; "FILE:/etc/ho"; "sts]"]%string)
           ltac:(cbn; tauto) ltac:(discriminate) eq_refl eq_refl eq_refl).
Qed.

(** C1.  [streamChat] returns the concatenation of the fragments it
    was fed, wherever they were cut, and [extractActions] is applied to
    that text: two ways of cutting the same text into fragments yield
    the same list of [{type, target, content}] descriptors.  When the
    text is one well-formed tag of either dialect, every way of cutting
    it yields the one descriptor of its kind and payload. *)
Theorem extraction_is_chunking_invariant (chunks1 chunks2 : list text) :
  concat chunks1 = concat chunks2 ->
  streamChat chunks1 = concat chunks1
  /\ extractActions (streamChat chunks1) = extractActions (streamChat chunks2)
  /\ (forall ty payload,
        In ty ACT_TYPES ->
        lazy_body (payload ++ CLOSE) = Some (payload, []) ->
        concat chunks1 = OPEN ++ ty ++ txt ":" ++ payload ++ CLOSE ->
        extractActions (streamChat chunks2) = [descriptor (ty, payload)])
  /\ (forall ty payload,
        In ty ACT_TYPES ->
        payload <> [] ->
        forallb (fun c => negb (Js.ascii_eqb c "]")) payload = true ->
        find_sub CLOSE (OPEN ++ ty ++ txt ":" ++ payload ++ txt "]") = None ->
        concat chunks1 = OPEN ++ ty ++ txt ":" ++ payload ++ txt "]" ->
        extractActions (streamChat chunks2) = [descriptor (ty, payload)]).
Proof.
  intros Hsame. split; [apply streamChat_concat|]. split; [|split].
  - now rewrite !streamChat_concat, Hsame.
  - intros ty payload Hty Hbody Hcat. rewrite Hsame in Hcat.
    now apply terminated_tag_recovered.
  - intros ty payload Hty Hne Hfree Hnoclose Hcat. rewrite Hsame in Hcat.
    now apply legacy_tag_recovered.
Qed.

Lemma extraction_chunking_witness :
  let whole :=
    [txt "Plan: [ACTION:WRITE_FILE:/tmp/a.txt:port: 80[/ACTION] then [ACTION:RUN_CMD:ls -la]"] in
  let pieces :=
    map txt ["Plan: [ACT"; "ION:WRITE_"; "FILE:/tmp/a"; ".txt:port"; ": 80[/ACT";
             "ION] then [ACTION:RUN_"; "CMD:ls"; " -la"; "]"]%string in
  let tag := [txt "[ACTION:RUN_SCRIPT:/opt/fix.sh:--dry-run [/ACTION]"] in
  let cut := map txt ["[ACTION:RUN_SCR"; "IPT:/opt/fix.sh:--dry"; "-run [/ACT"; "ION]"]%string in
  concat pieces = concat whole
  /\ extractActions (streamChat pieces) = extractActions (streamChat whole)
  /\ extractActions (streamChat whole)
     = [mkAction WRITE_FILE (txt "/tmp/a.txt") (Some (txt "port: 80"));
        mkAction RUN_CMD (txt "ls -la") None]
  /\ extractActions (streamChat cut)
     = [mkAction RUN_SCRIPT (txt "/opt/fix.sh") (Some (txt "--dry-run"))].
Proof.
  intros whole pieces tag cut. split; [reflexivity|]. split; [|split; [reflexivity|]].
  - exact (proj1 (proj2 (extraction_is_chunking_invariant pieces whole eq_refl))).
  - exact (proj1 (proj2 (proj2 (extraction_is_chunking_invariant tag cut eq_refl)))
             RUN_SCRIPT (txt "/opt/fix.sh:--dry-run ") ltac:(cbn; tauto) eq_refl eq_refl).
Defined.

(** *** The display loop *)














Lemma flush_inside (st : Scan) : insideAction st = true -> flush st = out st.
Proof. intros H. unfold flush. rewrite H. now rewrite andb_false_r. Qed.




Example longer_opener_prefix_is_shown_by_the_stream :
  display (map txt ["Let me check the log. "; "[ACTION:RUN"]%string)
    = txt "Let me check the log. [ACTION:RUN"
  /\ stripActions (txt "Let me check the log. [ACTION:RUN") = txt "Let me check the log.".
Proof. split; reflexivity. Qed.

(** The display depends on where the fragments are cut: the exit test
    looks at the end of the whole accumulated text, so a terminator in
    the middle of a fragment is not seen, and one at the end of a
    fragment ends the action at the first code unit of that fragment. *)
Example display_depends_on_chunking :
  display (map txt ["Done "; "[ACTION:RUN_CMD:ls"; "[/ACTION]"; " next"]%string)
    = txt "Done /ACTION] next"
  /\ display (map txt ["Done "; "[ACTION:RUN_CMD:ls[/ACTION"; "]"; " next"]%string)
     = txt "Done  next"
  /\ display (map txt ["Done "; "[ACTION:RUN_CMD:ls[/ACTION] next"; " more"]%string)
     = txt "Done ".
Proof. repeat split; reflexivity. Qed.

(** A second bracket discards what was pending. *)
Example display_drops_pending_on_bracket :
  display [txt "see [[1]]"] = txt "see [1]]".
Proof. reflexivity. Qed.

(** A text without any ['['] is displayed as it is, however it is cut. *)
Lemma scan_chars_bracket_free (cs f o : text) :
  forallb (fun c => negb (Js.ascii_eqb c "[")) cs = true ->
  fold_left scan_char cs (mkScan f false [] o) = mkScan f false [] (o ++ cs).
Proof.
  revert o. induction cs as [|c cs IH]; intros o H.
  - now rewrite app_nil_r.
  - cbn [forallb] in H. apply andb_prop in H as [Hc Hcs]. apply negb_true_iff in Hc.
    cbn [fold_left]. unfold scan_char at 2.
    cbn [insideAction pendingBracket app full out]. rewrite Hc.
    cbn [Js.startsWith txt list_ascii_of_string]. rewrite Hc. cbn [andb].
    rewrite (IH _ Hcs). now rewrite <- app_assoc.
Qed.

Lemma scan_bracket_free (chunks : list text) (f o : text) :
  forallb (fun c => negb (Js.ascii_eqb c "[")) (concat chunks) = true ->
  fold_left feed chunks (mkScan f false [] o)
  = mkScan (f ++ concat chunks) false [] (o ++ concat chunks).
Proof.
  revert f o. induction chunks as [|c chunks IH]; intros f o H; cbn [concat fold_left].
  - now rewrite !app_nil_r.
  - cbn [concat] in H. rewrite forallb_app in H. apply andb_prop in H as [Hc Hrest].
    destruct c as [|c0 c].
    + cbn [feed app]. now apply IH.
    + unfold feed. cbn [full insideAction pendingBracket out].
      rewrite scan_chars_bracket_free by exact Hc.
      rewrite (IH _ _ Hrest). now rewrite <- !app_assoc.
Qed.

(** X14.  A reply in which no ['['] occurs is displayed as it is, code
    unit for code unit, however it is cut into fragments, and the
    scanner ends outside any action. *)
Lemma display_of_bracket_free_text (chunks : list text) :
  forallb (fun c => negb (Js.ascii_eqb c "[")) (concat chunks) = true ->
  display chunks = concat chunks /\ insideAction (scan chunks) = false.
Proof.
  intros H. unfold display, scan, scan0.
  rewrite (scan_bracket_free chunks [] [] H). split; reflexivity.
Qed.


(** ** The approval loop *)

Lemma processActions_cons (cfg : Setting) (followUp : Sess -> Sess)
    (act : Action) (rest : list Action) (s : Sess) :
  processActions cfg followUp (act :: rest) s =
    let s1 := record (Asked act)
                (mkSess (conversation s) (machine s) (S (prompts s)) (log s)) in
    if promptYN (answer cfg (prompts s))
    then processActions cfg followUp rest (followUp (approved cfg act s1))
    else processActions cfg followUp rest
           (push (deniedMessage act) (record (Denied act) s1)).
Proof. reflexivity. Qed.






(** * Further properties *)

Import Repl Format Wire Setup Matching.


(** ** Executor: effects, reads, backups, paths, interpreters, blocked words *)

Lemma is_type_true (type name : text) : is_type type name = true -> type = name.
Proof. unfold is_type, NodePath.text_eqb. apply bool_decide_eq_true_1. Qed.

Lemma is_type_false (type name : text) : type <> name -> is_type type name = false.
Proof. unfold is_type, NodePath.text_eqb. apply bool_decide_eq_false_2. Qed.

(** The four branches of the [switch] and its [default]. *)
Lemma executeBody_kinds (front : Front) (h : Host) (type t : text)
    (content : option text) (st : State) :
  (type = READ_FILE
   /\ executeBody front h type t content st
      = (if negb (isPathReadable (SAFE_READ_PATHS h) t) then ret (accessDeniedRead t)
         else
           let* e := existsSync t in
           if negb e then ret (mkResult false (txt "File not found: " ++ t))
           else let* data := readFileSync t in ret (mkResult true data)) st)
  \/ (type = RUN_CMD
      /\ executeBody front h type t content st
         = (if isCommandBlocked t then ret (mkResult false (blockedMessage front t))
            else let* o := spawn h t cmdOptions in ret (runOutcome o)) st)
  \/ (type = RUN_SCRIPT
      /\ executeBody front h type t content st
         = (if negb (isPathReadable (SAFE_READ_PATHS h) t) then ret (accessDeniedRead t)
            else
              let* e := existsSync t in
              if negb e then ret (mkResult false (txt "Script not found: " ++ t))
              else if isCommandBlocked (fullCmd t content) then ret scriptBlocked
              else
                let* o := spawn h (fullCmd t content) (scriptOptions t) in
                ret (runOutcome o)) st)
  \/ (type = WRITE_FILE)
  \/ (~ In type ACT_TYPES
      /\ executeBody front h type t content st
         = (Return (mkResult false (txt "Unknown action type: " ++ type)), st)).
Proof.
  destruct (is_type type READ_FILE) eqn:E1.
  { left. apply is_type_true in E1. subst type. split; reflexivity. }
  destruct (is_type type RUN_CMD) eqn:E2.
  { right; left. apply is_type_true in E2. subst type. split; reflexivity. }
  destruct (is_type type RUN_SCRIPT) eqn:E3.
  { right; right; left. apply is_type_true in E3. subst type. split; reflexivity. }
  destruct (is_type type WRITE_FILE) eqn:E4.
  { right; right; right; left. apply is_type_true in E4. exact E4. }
  right; right; right; right. split.
  - intros [<-|[<-|[<-|[<-|[]]]]]; discriminate.
  - unfold executeBody. now rewrite E1, E2, E3, E4.
Qed.

Lemma spawn_run (h : Host) (cmd : text) (opts : SpawnOptions) (st : State) :
  spawn h cmd opts st
  = (Return (fst (execSync h cmd opts (fs st))),
     mkState (snd (execSync h cmd opts (fs st))) (trace st ++ [Spawned cmd opts])).
Proof.
  unfold spawn, bind, emit, get_fs, put_fs, ret. cbn [fs trace].
  destruct (execSync h cmd opts (fs st)) as [o f']. reflexivity.
Qed.

Lemma copyFileSync_trace (src dst : text) (st : State) :
  (exists msg, copyFileSync src dst st = (Throw msg, st))
  \/ (exists f1, copyFileSync src dst st
                 = (Return tt, mkState f1 (trace st ++ [Copied src dst]))).
Proof.
  unfold copyFileSync, bind, get_fs.
  destruct (fs st !! src) as [[d|]|]; [|left; eauto|left; eauto].
  destruct (fs st !! dst) as [[d'|]|]; [right | left | right]; eauto.
Qed.

(** What [backupFile] does to the outside: directory creations, then at
    most the one copy. *)
Lemma backupFile_trace (h : Host) (t : text) (st : State) :
  exists pre,
    trace (snd (backupFile h t st)) = trace st ++ pre
    /\ Forall (fun e => (exists q, e = MadeDir q) \/ e = Copied t (backupPath h t)) pre.
Proof.
  unfold backupFile, bind. rewrite existsSync_run.
  destruct (negb (bool_decide (is_Some (fs st !! t)))).
  { exists []. cbn. now rewrite app_nil_r. }
  rewrite existsSync_run.
  destruct (ensure_dir_cases (negb (bool_decide (is_Some (fs st !! BACKUP_DIR h))))
              (BACKUP_DIR h) st) as [[msg E] | [f1 [pre [E [_ Hpre]]]]]; rewrite E.
  { exists []. cbn. now rewrite app_nil_r. }
  assert (Hmk : Forall (fun e => (exists q, e = MadeDir q) \/ e = Copied t (backupPath h t)) pre)
    by (eapply Forall_impl; [exact Hpre|]; intros e He; now left).
  destruct (copyFileSync_trace t (backupPath h t) (mkState f1 (trace st ++ pre)))
    as [[msg Ec] | [f2 Ec]]; rewrite Ec; cbn [snd trace].
  - exists pre. now split.
  - exists (pre ++ [Copied t (backupPath h t)]). rewrite app_assoc. split; [reflexivity|].
    apply Forall_app. split; [exact Hmk|]. constructor; [now right | constructor].
Qed.

Lemma write_file_trace (front : Front) (h : Host) (t : text)
    (content : option text) (st : State) :
  exists delta,
    trace (snd (executeBody front h WRITE_FILE t content st)) = trace st ++ delta
    /\ (delta <> [] -> isPathWritable (SAFE_WRITE_PATHS h) t = true)
    /\ Forall (fun e => (exists q, e = MadeDir q)
                        \/ e = Copied t (backupPath h t)
                        \/ (exists d, content = Some d /\ e = Wrote t d)) delta.
Proof.
  rewrite executeBody_WRITE_FILE.
  destruct (isPathWritable (SAFE_WRITE_PATHS h) t) eqn:Hw; cbn [negb].
  2:{ exists []. cbn. rewrite app_nil_r. split; [reflexivity|]. split; [congruence | constructor]. }
  destruct (ensure_dir_cases (negb (bool_decide (is_Some (fs st !! NodePath.dirname t))))
              (NodePath.dirname t) st) as [[msg E] | [f1 [pre1 [E [_ Hpre1]]]]]; rewrite E.
  { exists []. cbn. rewrite app_nil_r. split; [reflexivity|]. split; [congruence | constructor]. }
  destruct (backupFile_trace h t (mkState f1 (trace st ++ pre1))) as [pre2 [Et2 Hpre2]].
  cbn [trace] in Et2.
  assert (H1 : Forall (fun e => (exists q, e = MadeDir q)
                        \/ e = Copied t (backupPath h t)
                        \/ (exists d, content = Some d /\ e = Wrote t d)) (pre1 ++ pre2)).
  { apply Forall_app. split.
    - eapply Forall_impl; [exact Hpre1|]. intros e He. now left.
    - eapply Forall_impl; [exact Hpre2|]. intros e [He|He]; [now left | right; now left]. }
  destruct (backupFile h t (mkState f1 (trace st ++ pre1))) as [[backup|msg] st2];
    cbn [snd] in Et2.
  2:{ exists (pre1 ++ pre2). cbn [snd]. rewrite Et2, <- app_assoc.
      split; [reflexivity|]. split; [reflexivity | exact H1]. }
  destruct (writeFileSync_cases t content st2) as [[msg Ew] | [d [-> Ew]]]; rewrite Ew;
    cbn [snd trace].
  - exists (pre1 ++ pre2). rewrite Et2, <- app_assoc.
    split; [reflexivity|]. split; [reflexivity | exact H1].
  - exists ((pre1 ++ pre2) ++ [Wrote t d]).
    split; [now rewrite Et2, <- !app_assoc|]. split; [reflexivity|]. apply Forall_app. split; [exact H1|].
    constructor; [right; right; now exists d | constructor].
Qed.

(** X1.  Whatever it is asked to do, the executor only adds to what the
    process has done to the outside, and every effect it adds went
    through its gate: a spawned command line is not matched by the
    blocklist (it is the target of a [RUN_CMD], or the composed
    invocation of a [RUN_SCRIPT] whose script passes the read check); a
    written file is the resolved target of a [WRITE_FILE] that passes
    the write check, and receives the content of the action; a copy is
    the backup of that target; a directory is only created on behalf of
    such a write. *)
Theorem executor_effects_pass_the_gate
    (front : Front) (h : Host) (type target : text) (content : option text)
    (st : State) :
  exists delta,
    trace (snd (executeAction front h type target content st)) = trace st ++ delta
    /\ Forall (fun e =>
         match e with
         | Spawned cmd _ =>
             isCommandBlocked cmd = false
             /\ ((type = RUN_CMD /\ cmd = target)
                 \/ (type = RUN_SCRIPT
                     /\ cmd = fullCmd (resolveTarget h type target) content
                     /\ isPathReadable (SAFE_READ_PATHS h) (resolveTarget h type target)
                        = true))
         | Wrote p d =>
             type = WRITE_FILE /\ p = resolveTarget h type target /\ content = Some d
             /\ isPathWritable (SAFE_WRITE_PATHS h) p = true
         | Copied src dst =>
             type = WRITE_FILE /\ src = resolveTarget h type target
             /\ dst = backupPath h src
             /\ isPathWritable (SAFE_WRITE_PATHS h) src = true
         | MadeDir _ =>
             type = WRITE_FILE
             /\ isPathWritable (SAFE_WRITE_PATHS h) (resolveTarget h type target) = true
         end) delta.
Proof.
  assert (Hsnd : snd (executeAction front h type target content st)
                 = snd (executeBody front h type (resolveTarget h type target) content st)).
  { rewrite executeAction_unfold.
    destruct (executeBody front h type (resolveTarget h type target) content st)
      as [[r|msg] st']; reflexivity. }
  rewrite Hsnd. clear Hsnd.
  assert (Hnil : forall x : Completion Result * State, snd x = st ->
            exists delta, trace (snd x) = trace st ++ delta
              /\ Forall (fun e =>
                   match e with
                   | Spawned cmd _ =>
                       isCommandBlocked cmd = false
                       /\ ((type = RUN_CMD /\ cmd = target)
                           \/ (type = RUN_SCRIPT
                               /\ cmd = fullCmd (resolveTarget h type target) content
                               /\ isPathReadable (SAFE_READ_PATHS h)
                                    (resolveTarget h type target) = true))
                   | Wrote p d =>
                       type = WRITE_FILE /\ p = resolveTarget h type target
                       /\ content = Some d
                       /\ isPathWritable (SAFE_WRITE_PATHS h) p = true
                   | Copied src dst =>
                       type = WRITE_FILE /\ src = resolveTarget h type target
                       /\ dst = backupPath h src
                       /\ isPathWritable (SAFE_WRITE_PATHS h) src = true
                   | MadeDir _ =>
                       type = WRITE_FILE
                       /\ isPathWritable (SAFE_WRITE_PATHS h)
                            (resolveTarget h type target) = true
                   end) delta).
  { intros x ->. exists []. rewrite app_nil_r. split; [reflexivity | constructor]. }
  set (t := resolveTarget h type target) in *.
  destruct (executeBody_kinds front h type t content st)
    as [[Hty E] | [[Hty E] | [[Hty E] | [Hty | [Hty E]]]]].
  - (* READ_FILE *)
    rewrite E. apply Hnil.
    destruct (isPathReadable (SAFE_READ_PATHS h) t); [|reflexivity]. cbn [negb].
    unfold bind. rewrite existsSync_run.
    destruct (bool_decide (is_Some (fs st !! t))); [|reflexivity]. cbn [negb].
    unfold readFileSync, bind, get_fs.
    destruct (fs st !! t) as [[d|]|]; reflexivity.
  - (* RUN_CMD *)
    rewrite E. destruct (isCommandBlocked t) eqn:Hb; [now apply Hnil|].
    unfold bind. rewrite spawn_run. cbn [snd trace].
    exists [Spawned t cmdOptions]. split; [reflexivity|].
    constructor; [|constructor]. split; [exact Hb|]. left. split; [exact Hty|].
    unfold t. subst type. apply resolveTarget_RUN_CMD.
  - (* RUN_SCRIPT *)
    rewrite E. destruct (isPathReadable (SAFE_READ_PATHS h) t) eqn:Hr; [|now apply Hnil].
    cbn [negb]. unfold bind. rewrite existsSync_run.
    destruct (bool_decide (is_Some (fs st !! t))); [|now apply Hnil]. cbn [negb].
    destruct (isCommandBlocked (fullCmd t content)) eqn:Hb; [now apply Hnil|].
    rewrite spawn_run. cbn [snd trace].
    exists [Spawned (fullCmd t content) (scriptOptions t)]. split; [reflexivity|].
    constructor; [|constructor]. split; [exact Hb|]. right. now repeat split.
  - (* WRITE_FILE *)
    rewrite Hty in *.
    destruct (write_file_trace front h t content st) as [delta [Et [Hw Hall]]].
    exists delta. split; [exact Et|].
    destruct delta as [|e0 delta0]; [constructor|].
    specialize (Hw ltac:(discriminate)).
    eapply Forall_impl; [exact Hall|].
    intros e [[q ->] | [-> | [d [-> ->]]]]; now repeat split.
  - (* default *)
    rewrite E. now apply Hnil.
Qed.


(** A kind that is none of the four known ones falls to the
    [default] of the [switch]: the answer is the failure
    [Unknown action type: <kind>] and nothing is done, whatever the
    target and the content are. *)
Theorem unknown_kind_is_refused_without_effect
    (front : Front) (h : Host) (type target : text) (content : option text)
    (st : State) :
  ~ In type ACT_TYPES ->
  executeAction front h type target content st
  = (mkResult false (txt "Unknown action type: " ++ type), st).
Proof.
  intros Hty. rewrite executeAction_unfold.
  destruct (executeBody_kinds front h type (resolveTarget h type target) content st)
    as [[E _] | [[E _] | [[E _] | [E | [_ E]]]]];
    try (exfalso; apply Hty; rewrite E; cbn; tauto).
  now rewrite E.
Qed.

Lemma unknown_kind_witness :
  executeAction Terminal Fixtures.host0 (txt "DELETE_FILE") (txt "/tmp/notes.txt") None
    Fixtures.st0
  = (mkResult false (txt "Unknown action type: DELETE_FILE"), Fixtures.st0).
Proof.
  apply (unknown_kind_is_refused_without_effect Terminal Fixtures.host0
           (txt "DELETE_FILE") (txt "/tmp/notes.txt") None Fixtures.st0).
  intros [H|[H|[H|[H|[]]]]]; discriminate H.
Defined.

Lemma write_file_keeps_previous_bytes_witness :
  fs Fixtures.st0 !! txt "/tmp/notes.txt" = Some (File (txt "old"))
  /\ (fs (snd (executeAction Terminal Fixtures.host0 WRITE_FILE (txt "/tmp/notes.txt")
                 None Fixtures.st0))
         !! txt "/tmp/notes.txt" = Some (File (txt "old"))
      \/ fs (snd (executeAction Terminal Fixtures.host0 WRITE_FILE (txt "/tmp/notes.txt")
                    None Fixtures.st0))
            !! backupPath Fixtures.host0 (txt "/tmp/notes.txt") = Some (File (txt "old"))).
Proof.
  split; [reflexivity|].
  exact (write_file_keeps_previous_bytes Terminal Fixtures.host0 (txt "/tmp/notes.txt")
           None Fixtures.st0 (txt "old") eq_refl).
Defined.

Lemma write_file_never_copies_witness :
  fs Fixtures.st0 !! txt "/tmp/fresh/a.txt" = None
  /\ exists pre,
       trace (snd (executeAction Terminal Fixtures.host0 WRITE_FILE (txt "/tmp/fresh/a.txt")
                     (Some (txt "new")) Fixtures.st0)) = [] ++ pre
       /\ Forall (fun e => forall src dst, e <> Copied src dst) pre.
Proof.
  split; [reflexivity|].
  exact (write_file_never_copies_for_new_target Terminal Fixtures.host0
           (txt "/tmp/fresh/a.txt") (Some (txt "new")) Fixtures.st0 eq_refl).
Defined.

(** *** Where backups go *)

Lemma join_with_last (sep : text) (xs : list text) (seg : text) :
  NodePath.join_with sep (xs ++ [seg])
  = match xs with
    | [] => []
    | _ => NodePath.join_with sep xs ++ sep
    end ++ seg.
Proof.
  induction xs as [|x xs IH]; [reflexivity|].
  destruct xs as [|x' xs'].
  - cbn. now rewrite <- app_assoc.
  - change (NodePath.join_with sep ((x :: x' :: xs') ++ [seg]))
      with (x ++ sep ++ NodePath.join_with sep ((x' :: xs') ++ [seg])).
    rewrite IH.
    change (NodePath.join_with sep (x :: x' :: xs'))
      with (x ++ sep ++ NodePath.join_with sep (x' :: xs')).
    now rewrite <- !app_assoc.
Qed.

(** The part of [normalize(dir + '/' + seg)] that comes from [dir]. *)
Lemma normalize_under_dir (dir seg : text) :
  dir <> [] ->
  forallb (fun d => negb (Js.ascii_eqb d NodePath.slash)) seg = true ->
  3 <= length seg ->
  NodePath.normalize (dir ++ [NodePath.slash] ++ seg)
  = ((if NodePath.isAbsolute dir then [NodePath.slash] else [])
     ++ match rev (fold_left (NodePath.push_segment (negb (NodePath.isAbsolute dir)))
                     (NodePath.split_on NodePath.slash dir) []) with
        | [] => []
        | x :: xs => NodePath.join_with [NodePath.slash] (x :: xs) ++ [NodePath.slash]
        end)
    ++ seg.
Proof.
  intros Hdir Hfree Hlen.
  assert (Habs : NodePath.isAbsolute (dir ++ [NodePath.slash] ++ seg) = NodePath.isAbsolute dir).
  { destruct dir; [contradiction|reflexivity]. }
  assert (Hpush : forall res allow, NodePath.push_segment allow res seg = seg :: res).
  { intros res allow. unfold NodePath.push_segment, NodePath.text_eqb.
    rewrite !bool_decide_eq_false_2; [reflexivity| | |];
      intros E; apply (f_equal (@length ascii)) in E; cbn in E; lia. }
  assert (Htrail : Js.endsWith (dir ++ [NodePath.slash] ++ seg) [NodePath.slash] = false).
  { unfold Js.endsWith. rewrite !rev_app_distr.
    destruct (rev seg) as [|c r] eqn:E.
    { apply (f_equal (@length ascii)) in E. rewrite length_rev in E. cbn in E. lia. }
    assert (Hc : negb (Js.ascii_eqb c NodePath.slash) = true).
    { rewrite forallb_forall in Hfree. apply Hfree, in_rev. rewrite E. now left. }
    apply negb_true_iff in Hc. cbn. now rewrite Hc. }
  unfold NodePath.normalize.
  destruct (dir ++ [NodePath.slash] ++ seg) as [|c0 rest] eqn:Epath.
  { destruct dir; discriminate. }
  rewrite Htrail, Habs. rewrite <- Epath. unfold NodePath.normalizeString.
  change (dir ++ [NodePath.slash] ++ seg) with (dir ++ NodePath.slash :: seg).
  rewrite split_on_snoc by exact Hfree.
  rewrite fold_left_app. cbn [fold_left]. rewrite Hpush. cbn [rev].
  rewrite join_with_last.
  set (xs := rev (fold_left (NodePath.push_segment (negb (NodePath.isAbsolute dir)))
                    (NodePath.split_on NodePath.slash dir) [])).
  assert (Hne : (match xs with
                 | [] => []
                 | _ :: _ => NodePath.join_with [NodePath.slash] xs ++ [NodePath.slash]
                 end ++ seg) <> []).
  { intros E. apply (f_equal (@length ascii)) in E. rewrite length_app in E. cbn in E. lia. }
  destruct (match xs with
            | [] => []
            | _ :: _ => NodePath.join_with [NodePath.slash] xs ++ [NodePath.slash]
            end ++ seg) as [|y ys] eqn:Ey; [contradiction|].
  rewrite <- Ey.
  destruct (NodePath.isAbsolute dir); destruct xs; reflexivity.
Qed.

Lemma normalize_segment (seg : text) :
  forallb (fun d => negb (Js.ascii_eqb d NodePath.slash)) seg = true ->
  3 <= length seg ->
  NodePath.normalize seg = seg.
Proof.
  intros Hfree Hlen.
  assert (Hpush : forall res allow, NodePath.push_segment allow res seg = seg :: res).
  { intros res allow. unfold NodePath.push_segment, NodePath.text_eqb.
    rewrite !bool_decide_eq_false_2; [reflexivity| | |];
      intros E; apply (f_equal (@length ascii)) in E; cbn in E; lia. }
  destruct seg as [|c seg]; [cbn in Hlen; lia|].
  assert (Hc : Js.ascii_eqb c NodePath.slash = false).
  { cbn [forallb] in Hfree. apply andb_prop in Hfree as [Hc _]. now apply negb_true_iff. }
  assert (Htrail : Js.endsWith (c :: seg) [NodePath.slash] = false).
  { unfold Js.endsWith.
    destruct (rev (c :: seg)) as [|d r] eqn:E.
    { apply (f_equal (@length ascii)) in E. rewrite length_rev in E. cbn in E. lia. }
    assert (Hd : negb (Js.ascii_eqb d NodePath.slash) = true).
    { rewrite forallb_forall in Hfree. apply Hfree, in_rev. rewrite E. now left. }
    apply negb_true_iff in Hd. cbn. now rewrite Hd. }
  unfold NodePath.normalize. rewrite Htrail.
  assert (Habs : NodePath.isAbsolute (c :: seg) = false).
  { unfold NodePath.isAbsolute. cbn. now rewrite Hc. }
  rewrite Habs. unfold NodePath.normalizeString.
  rewrite split_on_free by exact Hfree. cbn [fold_left]. rewrite Hpush.
  reflexivity.
Qed.

Lemma backupName_shape (h : Host) (t : text) :
  forallb (fun d => negb (Js.ascii_eqb d NodePath.slash)) (backupName h t) = true
  /\ 3 <= length (backupName h t).
Proof.
  unfold backupName. split.
  - rewrite !forallb_app, replaceChar_slash_free, timestamp_slash_free. reflexivity.
  - rewrite !length_app. change (length (txt ".bak")) with 4. lia.
Qed.

(** X5.  Every backup is placed under one and the same directory
    prefix, fixed by [BACKUP_DIR] alone, followed by a name that holds
    no ['/']: whatever the path of the file that is backed up (['..']
    segments included), it cannot move the backup elsewhere. *)
Theorem backups_stay_in_the_backup_directory (h : Host) :
  exists pre, forall t,
    backupPath h t = pre ++ backupName h t
    /\ forallb (fun d => negb (Js.ascii_eqb d NodePath.slash)) (backupName h t) = true
    /\ backupName h t
       = Js.replaceChar "/" (txt "__") t ++ txt "." ++ timestamp h ++ txt ".bak".
Proof.
  destruct (BACKUP_DIR h) as [|c d] eqn:Ed.
  - exists []. intros t. destruct (backupName_shape h t) as [Hfree Hlen].
    split; [|split; [exact Hfree | reflexivity]].
    unfold backupPath, NodePath.join. rewrite Ed.
    destruct (backupName h t) as [|x xs] eqn:E; [cbn in Hlen; lia|].
    now apply normalize_segment.
  - eexists. intros t. destruct (backupName_shape h t) as [Hfree Hlen].
    split; [|split; [exact Hfree | reflexivity]].
    unfold backupPath, NodePath.join. rewrite Ed.
    destruct (backupName h t) as [|x xs] eqn:E; [cbn in Hlen; lia|].
    apply (normalize_under_dir (c :: d) (x :: xs)); [discriminate | exact Hfree | exact Hlen].
Qed.

(** *** The path checks *)

Lemma prefix_check_spec (paths : list text) (t : text) :
  existsb (fun p => Js.startsWith t p) paths = true
  <-> exists p rest, In p paths /\ t = p ++ rest.
Proof.
  rewrite existsb_exists. split.
  - intros [p [Hin Hp]]. apply startsWith_spec in Hp as [w ->]. eauto.
  - intros [p [rest [Hin ->]]]. exists p. split; [exact Hin|].
    apply startsWith_app_same.
Qed.

(** X6.  The two path checks are plain tests on the text of the path:
    a path passes exactly when it is an entry of the list followed by
    anything at all.  So whatever is appended to an allowed entry is
    allowed too (a ['../'] as well as a longer file name when the entry
    does not end in ['/']), the empty list allows nothing, and adding
    entries never takes a permission away. *)
Theorem path_checks_are_prefix_tests (paths : list text) (t : text) :
  (isPathReadable paths t = true <-> exists p rest, In p paths /\ t = p ++ rest)
  /\ (isPathWritable paths t = true <-> exists p rest, In p paths /\ t = p ++ rest)
  /\ (forall p rest, In p paths ->
        isPathReadable paths (p ++ rest) = true /\ isPathWritable paths (p ++ rest) = true)
  /\ isPathReadable [] t = false
  /\ isPathWritable [] t = false
  /\ (forall more, isPathReadable paths t = true -> isPathReadable (paths ++ more) t = true)
  /\ (forall more, isPathWritable paths t = true -> isPathWritable (paths ++ more) t = true).
Proof.
  unfold isPathReadable, isPathWritable.
  split; [apply prefix_check_spec|]. split; [apply prefix_check_spec|].
  split; [|split; [reflexivity|]; split; [reflexivity|]; split].
  - intros p rest Hin. split; apply prefix_check_spec; eauto.
  - intros more H. rewrite existsb_app, H. reflexivity.
  - intros more H. rewrite existsb_app, H. reflexivity.
Qed.

(** The lists the server starts with.  Without a configured list
    (a first run), a path is writable exactly when it begins with
    ["/tmp/"], with the working directory of the process or with the
    OpenClaw directory, and readable exactly when it passes the default
    read list or begins with the OpenClaw directory.  A configured list
    replaces the defaults altogether; an empty one, which is truthy,
    allows nothing. *)
Theorem live_path_lists (cwd openclaw_dir t : text) (configured : list text) :
  isPathWritable (live_write_paths None cwd openclaw_dir) t
    = Js.startsWith t (txt "/tmp/") || Js.startsWith t cwd || Js.startsWith t openclaw_dir
  /\ isPathReadable (live_read_paths None openclaw_dir) t
     = isPathReadable DEFAULT_READ_PATHS t || Js.startsWith t openclaw_dir
  /\ isPathWritable (live_write_paths (Some configured) cwd openclaw_dir) t
     = isPathWritable configured t
  /\ isPathReadable (live_read_paths (Some configured) openclaw_dir) t
     = isPathReadable configured t
  /\ isPathWritable (live_write_paths (Some []) cwd openclaw_dir) t = false
  /\ isPathReadable (live_read_paths (Some []) openclaw_dir) t = false.
Proof.
  unfold isPathReadable, isPathWritable, live_read_paths, live_write_paths.
  rewrite !existsb_app. cbn [existsb DEFAULT_WRITE_PATHS map].
  rewrite !orb_false_r. repeat split; try reflexivity.
  now rewrite orb_assoc.
Qed.

(** *** The interpreter of a script *)

Lemma existsb_eqb_free (c : ascii) (s : text) :
  forallb (fun d => negb (Js.ascii_eqb d c)) s = true ->
  existsb (Js.ascii_eqb c) s = false.
Proof.
  induction s as [|d s IH]; [reflexivity|]. cbn [forallb existsb].
  intros H. apply andb_prop in H as [Hd Hs]. rewrite (IH Hs), orb_false_r.
  apply negb_true_iff in Hd. unfold Js.ascii_eqb in *. now rewrite Ascii.eqb_sym.
Qed.

Lemma afterLast_free (c : ascii) (s : text) :
  forallb (fun d => negb (Js.ascii_eqb d c)) s = true -> Js.afterLast c s = s.
Proof.
  intros H. destruct s as [|d s]; [reflexivity|].
  cbn [Js.afterLast]. cbn [forallb] in H. apply andb_prop in H as [Hd Hs].
  apply negb_true_iff in Hd. now rewrite Hd, (existsb_eqb_free c s Hs).
Qed.

Lemma afterLast_app (c : ascii) (stem ext : text) :
  forallb (fun d => negb (Js.ascii_eqb d c)) ext = true ->
  Js.afterLast c (stem ++ c :: ext) = ext.
Proof.
  intros Hext. pose proof (existsb_eqb_free c ext Hext) as Hno.
  assert (Hhas : forall a, existsb (Js.ascii_eqb c) (a ++ c :: ext) = true).
  { intros a. rewrite existsb_app. cbn [existsb]. unfold Js.ascii_eqb.
    rewrite Ascii.eqb_refl. now rewrite orb_true_r. }
  induction stem as [|d stem IH].
  - cbn [app Js.afterLast]. unfold Js.ascii_eqb at 1. rewrite Ascii.eqb_refl.
    now rewrite Hno.
  - cbn [app Js.afterLast]. rewrite Hhas. now rewrite andb_false_r.
Qed.

(** X7.  The interpreter of a [RUN_SCRIPT] is chosen by what follows
    the last ['.'] of the resolved path, compared without regard to
    letter case: [ps1] gives PowerShell, [bat] and [cmd] give [cmd /c],
    and everything else -- a path without any ['.'] included -- gives
    [bash]; the path is passed between double quotes as it is, and a
    non-empty content is appended after one space. *)
Theorem interpreter_follows_the_last_extension (stem ext : text) (content : option text) :
  forallb (fun d => negb (Js.ascii_eqb d ".")) ext = true ->
  extension (stem ++ "."%char :: ext) = Js.toLowerCase ext
  /\ extension ext = Js.toLowerCase ext
  /\ shellFor (stem ++ "."%char :: ext)
     = (if NodePath.text_eqb (Js.toLowerCase ext) (txt "ps1")
        then txt "powershell -ExecutionPolicy Bypass -File "
        else if NodePath.text_eqb (Js.toLowerCase ext) (txt "bat")
                || NodePath.text_eqb (Js.toLowerCase ext) (txt "cmd")
        then txt "cmd /c "
        else txt "bash ")
       ++ quoted (stem ++ "."%char :: ext)
  /\ fullCmd (stem ++ "."%char :: ext) content
     = shellFor (stem ++ "."%char :: ext)
       ++ (if Js.truthy content then txt " " ++ default [] content else []).
Proof.
  intros Hext.
  assert (E : extension (stem ++ "."%char :: ext) = Js.toLowerCase ext)
    by (unfold extension; now rewrite afterLast_app).
  split; [exact E|]. split; [unfold extension; now rewrite afterLast_free|]. split.
  - unfold shellFor. rewrite E. cbn [existsb]. rewrite orb_false_r.
    destruct (NodePath.text_eqb (Js.toLowerCase ext) (txt "ps1")) eqn:E1.
    + rewrite !orb_true_r. reflexivity.
    + rewrite orb_false_r.
      destruct (NodePath.text_eqb (Js.toLowerCase ext) (txt "bat")
                || NodePath.text_eqb (Js.toLowerCase ext) (txt "cmd")); reflexivity.
  - unfold fullCmd, Js.truthy. destruct content as [[|c cs]|]; cbn [default];
      now rewrite ?app_nil_r.
Qed.

Lemma interpreter_witness :
  shellFor (txt "/opt/openclaw/Deploy.v2.PS1")
    = txt "powershell -ExecutionPolicy Bypass -File " ++ quoted (txt "/opt/openclaw/Deploy.v2.PS1")
  /\ fullCmd (txt "/opt/openclaw/Deploy.v2.PS1") (Some (txt "-Force"))
     = shellFor (txt "/opt/openclaw/Deploy.v2.PS1") ++ txt " -Force".
Proof.
  pose proof (interpreter_follows_the_last_extension (txt "/opt/openclaw/Deploy.v2")
                (txt "PS1") (Some (txt "-Force")) eq_refl) as H.
  split; [exact (proj1 (proj2 (proj2 H))) | exact (proj2 (proj2 (proj2 H)))].
Defined.

(** *** Literal patterns of the blocklist *)

(** A literal pattern matches a text that spells it, letter case apart
    under the [i] flag, whatever comes after. *)
Lemma run_lit (ic : bool) (w w' post : text) (prev : option ascii) :
  Forall2 (fun c d => Rx.chr_ok ic c d = true) w w' ->
  Rx.run ic (Rx.lit w) (prev, w' ++ post) <> [].
Proof.
  intros H. revert prev. induction H as [|c d w w' Hcd Hrest IH]; intros prev.
  - cbn. discriminate.
  - cbn [Rx.lit Rx.run app snd]. rewrite Hcd. cbn [flat_map].
    rewrite app_nil_r. apply IH.
Qed.

Lemma search_later (ic : bool) (r : regex) (pre s : text) (prev : option ascii) :
  (forall p, Rx.matches_at ic r (p, s) = true) ->
  Rx.search ic r prev (pre ++ s) = true.
Proof.
  intros H. revert prev. induction pre as [|c pre IH]; intros prev.
  - cbn [app]. destruct s; cbn [Rx.search]; now rewrite H.
  - cbn [app Rx.search]. rewrite IH. apply orb_true_r.
Qed.

Lemma same_upper_chr_ok (w w' : text) :
  map Js.toUpperChar w' = map Js.toUpperChar w ->
  Forall2 (fun c d => Rx.chr_ok true c d = true) w w'.
Proof.
  revert w'. induction w as [|c w IH]; intros [|d w'] H; try discriminate; constructor.
  - cbn [map] in H. injection H as Hd _. unfold Rx.chr_ok. rewrite Hd.
    unfold Js.ascii_eqb. apply Ascii.eqb_refl.
  - apply IH. cbn [map] in H. now injection H.
Qed.

(** X8.  Eight entries of the blocklist are bare words.  A command
    line in which one of them occurs anywhere, in any mix of upper and
    lower case, and whatever stands before and after it (inside a longer
    word as well), is blocked. *)
Theorem blocked_words_are_found_anywhere (w pre w' post : text) :
  In w (map txt ["mkfs"; "shutdown"; "reboot"; "wipefs"; "fdisk"; "parted";
                 "userdel"; "groupdel"]%string) ->
  map Js.toUpperChar w' = map Js.toUpperChar w ->
  isCommandBlocked (pre ++ w' ++ post) = true.
Proof.
  intros Hw Hcase. unfold isCommandBlocked. apply existsb_exists.
  exists (ci (Rx.lit w)). split.
  - cbn [map In] in Hw.
    destruct Hw as [<-|[<-|[<-|[<-|[<-|[<-|[<-|[<-|[]]]]]]]]];
      unfold BLOCKED_COMMANDS;
      repeat (first [left; reflexivity | right]).
  - unfold rx_test, ci. cbn [rx_body rx_ignoreCase]. apply search_later.
    intros p. unfold Rx.matches_at.
    pose proof (run_lit true w w' post p (same_upper_chr_ok w w' Hcase)) as Hrun.
    destruct (Rx.run true (Rx.lit w) (p, w' ++ post)); [contradiction|reflexivity].
Qed.

Lemma blocked_words_witness :
  isCommandBlocked (txt "sudo /sbin/MkFs.ext4 /dev/sdb1") = true
  /\ isCommandBlocked (txt "echo rebooting soon") = true.
Proof.
  split.
  - exact (blocked_words_are_found_anywhere (txt "mkfs") (txt "sudo /sbin/") (txt "MkFs")
             (txt ".ext4 /dev/sdb1") ltac:(cbn; tauto) eq_refl).
  - exact (blocked_words_are_found_anywhere (txt "reboot") (txt "echo ") (txt "reboot")
             (txt "ing soon") ltac:(cbn; tauto) eq_refl).
Defined.


(** ** SafetyGate: shapes of command lines *)

(** *** Building a match *)

Lemma reaches_eps (ic : bool) (s : text) : reaches ic Eps s s.
Proof. intros prev. exists prev. now left. Qed.

Lemma reaches_seq (ic : bool) (r1 r2 : regex) (s s1 s2 : text) :
  reaches ic r1 s s1 -> reaches ic r2 s1 s2 -> reaches ic (Seq r1 r2) s s2.
Proof.
  intros H1 H2 prev. destruct (H1 prev) as [q1 Hq1]. destruct (H2 q1) as [q2 Hq2].
  exists q2. cbn [Rx.run]. apply in_flat_map. eauto.
Qed.

Lemma reaches_alt_l (ic : bool) (r1 r2 : regex) (s rest : text) :
  reaches ic r1 s rest -> reaches ic (Alt r1 r2) s rest.
Proof.
  intros H prev. destruct (H prev) as [q Hq]. exists q. cbn [Rx.run].
  apply in_or_app. now left.
Qed.

Lemma reaches_alt_r (ic : bool) (r1 r2 : regex) (s rest : text) :
  reaches ic r2 s rest -> reaches ic (Alt r1 r2) s rest.
Proof.
  intros H prev. destruct (H prev) as [q Hq]. exists q. cbn [Rx.run].
  apply in_or_app. now right.
Qed.

Lemma reaches_chr (ic : bool) (c d : ascii) (rest : text) :
  Rx.chr_ok ic c d = true -> reaches ic (Chr c) (d :: rest) rest.
Proof. intros H prev. exists (Some d). cbn [Rx.run snd]. rewrite H. now left. Qed.

Lemma reaches_cls (ic : bool) (p : ascii -> bool) (d : ascii) (rest : text) :
  p d = true -> reaches ic (Cls p) (d :: rest) rest.
Proof.
  intros H prev. exists (Some d). cbn [Rx.run snd]. unfold Rx.cls_ok. rewrite H. now left.
Qed.

Lemma reaches_lit (w w' rest : text) :
  map Js.toUpperChar w' = map Js.toUpperChar w ->
  reaches true (Rx.lit w) (w' ++ rest) rest.
Proof.
  revert w'. induction w as [|c w IH]; intros [|d w'] H; try discriminate.
  - apply reaches_eps.
  - cbn [map] in H. injection H as Hd Hw. cbn [Rx.lit app].
    eapply reaches_seq; [|apply IH, Hw].
    apply reaches_chr. unfold Rx.chr_ok. rewrite Hd. apply Ascii.eqb_refl.
Qed.

(** A starred class runs over any stretch of code units of the class. *)
Lemma star_loop_cls (ic : bool) (p : ascii -> bool) (rest : text) :
  forall fuel w prev,
    length (w ++ rest) <= fuel ->
    forallb p w = true ->
    exists last, In (last, rest)
                   (Rx.star_loop (Rx.run ic (Cls p)) fuel (prev, w ++ rest)).
Proof.
  induction fuel as [|n IH]; intros w prev Hlen Hw.
  - destruct w; [|cbn in Hlen; lia]. exists prev. now left.
  - destruct w as [|d w]; [exists prev; now left|].
    cbn [forallb] in Hw. apply andb_prop in Hw as [Hd Hw].
    destruct (IH w (Some d)) as [q Hq]; [cbn in Hlen; lia | exact Hw|].
    exists q. cbn [Rx.star_loop]. right. apply in_flat_map.
    exists (Some d, w ++ rest). split.
    + cbn [Rx.run snd app]. unfold Rx.cls_ok. rewrite Hd. now left.
    + cbn [snd app length]. rewrite (proj2 (Nat.ltb_lt _ _)) by lia. exact Hq.
Qed.

Lemma reaches_star_cls (ic : bool) (p : ascii -> bool) (w rest : text) :
  forallb p w = true -> reaches ic (Star (Cls p)) (w ++ rest) rest.
Proof.
  intros Hw prev. cbn [Rx.run snd]. now apply star_loop_cls.
Qed.

Lemma reaches_plus_cls (ic : bool) (p : ascii -> bool) (w rest : text) :
  w <> [] -> forallb p w = true -> reaches ic (Rx.plus (Cls p)) (w ++ rest) rest.
Proof.
  intros Hne Hw. destruct w as [|d w]; [contradiction|].
  cbn [forallb] in Hw. apply andb_prop in Hw as [Hd Hw].
  unfold Rx.plus. cbn [app].
  eapply reaches_seq; [now apply reaches_cls | now apply reaches_star_cls].
Qed.

(** A match that can start anywhere is found by [test] behind any
    text. *)
Lemma test_finds (p : RegExp) (pre s rest : text) :
  reaches (rx_ignoreCase p) (rx_body p) s rest -> rx_test p (pre ++ s) = true.
Proof.
  intros H. unfold rx_test. apply search_later. intros prev.
  unfold Rx.matches_at. destruct (H prev) as [q Hq].
  destruct (Rx.run (rx_ignoreCase p) (rx_body p) (prev, s)); [contradiction|reflexivity].
Qed.

(** *** Shapes the blocklist always catches *)

Lemma spells_lit (w : string) (s rest : text) :
  spells w s -> reaches true (L w) (s ++ rest) rest.
Proof. intros H. unfold L. now apply reaches_lit. Qed.

Lemma blocked_by (p : RegExp) (pre s rest : text) :
  In p BLOCKED_COMMANDS ->
  reaches (rx_ignoreCase p) (rx_body p) s rest ->
  isCommandBlocked (pre ++ s) = true.
Proof.
  intros Hin H. unfold isCommandBlocked. apply existsb_exists.
  exists p. split; [exact Hin | now apply (test_finds p pre s rest)].
Qed.

(** X9.  A removal with a recursive or force flag and a path is
    blocked wherever it stands in the command line: the word [rm] in
    any letter case, white space, then either a short flag group (['-'],
    letters, ending in [r] or [f] in either case) or [--force] or
    [--recursive], and a ['/'] anywhere later on the same line. *)
Theorem rm_with_a_flag_and_a_slash_is_blocked (pre rm ws flags mid post : text) :
  spells "rm" rm ->
  ws <> [] ->
  forallb Js.is_space ws = true ->
  ((exists letters flag,
       flags = "-"%char :: letters ++ [flag]
       /\ forallb is_alpha letters = true
       /\ (Js.toUpperChar flag = "F"%char \/ Js.toUpperChar flag = "R"%char))
   \/ spells "--force" flags \/ spells "--recursive" flags) ->
  forallb Js.is_dot mid = true ->
  isCommandBlocked (pre ++ rm ++ ws ++ flags ++ mid ++ "/"%char :: post) = true.
Proof.
  intros Hrm Hne Hws Hflags Hmid.
  apply (blocked_by
           (ci (Rx.seqs [L "rm"; Rx.plus sp;
                         Rx.alts (Rx.seqs [L "-"; Star alpha; L "f"])
                           [Rx.seqs [L "-"; Star alpha; L "r"]; L "--force";
                            L "--recursive"];
                         any; L "/"]))
           pre _ post); [now left|].
  cbn [rx_ignoreCase rx_body ci Rx.seqs Rx.alts].
  eapply reaches_seq; [now apply spells_lit|].
  eapply reaches_seq; [apply reaches_plus_cls; assumption|].
  apply (reaches_seq true _ _ _ (mid ++ "/"%char :: post) post).
  2:{ eapply reaches_seq; [now apply reaches_star_cls|].
      eapply reaches_seq; [|apply reaches_eps].
      apply (spells_lit "/" (txt "/") post). reflexivity. }
  assert (Hshort : forall (c : ascii) letters flag,
            forallb is_alpha letters = true ->
            Js.toUpperChar flag = Js.toUpperChar c ->
            reaches true
              (Seq (L "-") (Seq (Star alpha) (Seq (Rx.lit [c]) Eps)))
              (("-"%char :: letters ++ [flag]) ++ mid ++ "/"%char :: post)
              (mid ++ "/"%char :: post)).
  { intros c letters flag Hl Hf.
    replace (("-"%char :: letters ++ [flag]) ++ mid ++ "/"%char :: post)
      with (txt "-" ++ letters ++ [flag] ++ mid ++ "/"%char :: post)
      by (cbn [txt list_ascii_of_string app]; now rewrite <- app_assoc).
    eapply reaches_seq.
    { apply (spells_lit "-" (txt "-")). reflexivity. }
    eapply reaches_seq; [now apply reaches_star_cls|].
    eapply reaches_seq; [|apply reaches_eps].
    apply (reaches_lit [c] [flag]). cbn [map]. now rewrite Hf. }
  destruct Hflags as [[letters [flag [-> [Hl [Hf|Hf]]]]] | [Hf|Hf]].
  - apply reaches_alt_l. now apply (Hshort "f"%char).
  - apply reaches_alt_r, reaches_alt_l. now apply (Hshort "r"%char).
  - apply reaches_alt_r, reaches_alt_r, reaches_alt_l. now apply spells_lit.
  - apply reaches_alt_r, reaches_alt_r, reaches_alt_r. now apply spells_lit.
Qed.

Lemma rm_with_a_flag_witness :
  isCommandBlocked (txt "cd /srv && sudo RM   -vfR ./cache/tmp") = true
  /\ isCommandBlocked (txt "rm --recursive ~/x/") = true.
Proof.
  split.
  - apply (rm_with_a_flag_and_a_slash_is_blocked (txt "cd /srv && sudo ") (txt "RM")
             (txt "   ") (txt "-vfR") (txt " .") (txt "cache/tmp")).
    + reflexivity.
    + discriminate.
    + reflexivity.
    + left. exists (txt "vf"), "R"%char. split; [reflexivity|]. split; [reflexivity|].
      right. reflexivity.
    + reflexivity.
  - apply (rm_with_a_flag_and_a_slash_is_blocked [] (txt "rm") (txt " ")
             (txt "--recursive") (txt " ~") (txt "x/")).
    + reflexivity.
    + discriminate.
    + reflexivity.
    + right; right. reflexivity.
    + reflexivity.
Defined.

(** X10.  A download piped into a shell is blocked wherever it stands
    in the command line: [curl] or [wget] in any letter case, then on
    the same line a ['|'], any white space, and [bash], [sh] or [zsh]
    in any letter case (as the beginning of a longer word as well). *)
Theorem download_piped_into_a_shell_is_blocked (pre tool mid ws shell post : text) :
  spells "curl" tool \/ spells "wget" tool ->
  forallb Js.is_dot mid = true ->
  forallb Js.is_space ws = true ->
  spells "bash" shell \/ spells "sh" shell \/ spells "zsh" shell ->
  isCommandBlocked (pre ++ tool ++ mid ++ "|"%char :: ws ++ shell ++ post) = true.
Proof.
  intros Htool Hmid Hws Hshell.
  assert (Htail : reaches true
                    (Seq any (Seq (L "|")
                       (Seq (Star sp)
                          (Seq (Rx.alts (L "bash") [L "sh"; L "zsh"]) Eps))))
                    (mid ++ "|"%char :: ws ++ shell ++ post) post).
  { eapply reaches_seq; [now apply reaches_star_cls|].
    eapply reaches_seq.
    { apply (spells_lit "|" (txt "|")). reflexivity. }
    eapply reaches_seq; [now apply reaches_star_cls|].
    eapply reaches_seq; [|apply reaches_eps].
    cbn [Rx.alts]. destruct Hshell as [H|[H|H]].
    - apply reaches_alt_l. now apply spells_lit.
    - apply reaches_alt_r, reaches_alt_l. now apply spells_lit.
    - apply reaches_alt_r, reaches_alt_r. now apply spells_lit. }
  destruct Htool as [Ht|Ht].
  - apply (blocked_by
             (ci (Rx.seqs [L "curl"; any; L "|"; Star sp;
                           Rx.alts (L "bash") [L "sh"; L "zsh"]]))
             pre _ post).
    + unfold BLOCKED_COMMANDS. do 16 right. now left.
    + cbn [rx_ignoreCase rx_body ci Rx.seqs].
      eapply reaches_seq; [now apply spells_lit | exact Htail].
  - apply (blocked_by
             (ci (Rx.seqs [L "wget"; any; L "|"; Star sp;
                           Rx.alts (L "bash") [L "sh"; L "zsh"]]))
             pre _ post).
    + unfold BLOCKED_COMMANDS. do 17 right. now left.
    + cbn [rx_ignoreCase rx_body ci Rx.seqs].
      eapply reaches_seq; [now apply spells_lit | exact Htail].
Qed.

Lemma download_piped_witness :
  isCommandBlocked (txt "cd /tmp; Curl -fsSL https://get.example.sh |   SH -s -- -y") = true.
Proof.
  apply (download_piped_into_a_shell_is_blocked (txt "cd /tmp; ") (txt "Curl")
           (txt " -fsSL https://get.example.sh ") (txt "   ") (txt "SH") (txt " -s -- -y")).
  - left. reflexivity.
  - reflexivity.
  - reflexivity.
  - right; left. reflexivity.
Defined.


(** ** StreamTagScanner: stripping, descriptors, display *)

(** *** White space at the ends *)

Lemma trimStart_split (s : text) :
  exists ws, s = ws ++ Js.trimStart s /\ forallb Js.is_space ws = true.
Proof.
  induction s as [|c s [ws [E Hws]]]; [now exists []|].
  cbn [Js.trimStart]. destruct (Js.is_space c) eqn:Hc.
  - exists (c :: ws). cbn [app forallb]. rewrite Hc, Hws. split; [now f_equal | reflexivity].
  - now exists [].
Qed.

Lemma trimStart_head (s : text) (c : ascii) (r : text) :
  Js.trimStart s = c :: r -> Js.is_space c = false.
Proof.
  induction s as [|d s IH]; cbn [Js.trimStart]; [discriminate|].
  destruct (Js.is_space d) eqn:Hd; [exact IH|]. now intros [= <- _].
Qed.

Lemma trimStart_fixed (c : ascii) (r : text) :
  Js.is_space c = false -> Js.trimStart (c :: r) = c :: r.
Proof. intros H. cbn. now rewrite H. Qed.

Lemma trimStart_idem (s : text) : Js.trimStart (Js.trimStart s) = Js.trimStart s.
Proof.
  destruct (Js.trimStart s) as [|c r] eqn:E; [reflexivity|].
  apply trimStart_fixed. now apply (trimStart_head s c r).
Qed.

Lemma trimStart_snoc (l : text) (c : ascii) :
  Js.is_space c = false -> exists w, Js.trimStart (l ++ [c]) = w ++ [c].
Proof.
  intros Hc. induction l as [|d l [w IH]].
  - exists []. cbn. now rewrite Hc.
  - cbn [app Js.trimStart]. destruct (Js.is_space d).
    + now exists w.
    + now exists (d :: l).
Qed.

Lemma trimEnd_split (s : text) :
  exists ws, s = Js.trimEnd s ++ ws /\ forallb Js.is_space ws = true.
Proof.
  unfold Js.trimEnd. destruct (trimStart_split (rev s)) as [ws [E Hws]].
  exists (rev ws). split.
  - apply (f_equal (@rev ascii)) in E. rewrite rev_involutive, rev_app_distr in E. exact E.
  - rewrite forallb_forall in *. intros x Hx. apply Hws. now apply in_rev.
Qed.

(** [trimEnd] keeps the first code unit of a text that begins with
    something else than white space. *)
Lemma trimEnd_head (c : ascii) (r : text) :
  Js.is_space c = false -> exists z, Js.trimEnd (c :: r) = c :: z.
Proof.
  intros Hc. unfold Js.trimEnd. cbn [rev].
  destruct (trimStart_snoc (rev r) c Hc) as [w ->].
  exists (rev w). now rewrite rev_app_distr.
Qed.

Lemma trimEnd_idem (s : text) : Js.trimEnd (Js.trimEnd s) = Js.trimEnd s.
Proof. unfold Js.trimEnd. now rewrite rev_involutive, trimStart_idem. Qed.

Lemma trim_idem (s : text) : Js.trim (Js.trim s) = Js.trim s.
Proof.
  unfold Js.trim. destruct (Js.trimStart s) as [|c r] eqn:E; [reflexivity|].
  pose proof (trimStart_head s c r E) as Hc.
  destruct (trimEnd_head c r Hc) as [z Hz]. rewrite Hz.
  rewrite (trimStart_fixed c z Hc). rewrite <- Hz. apply trimEnd_idem.
Qed.

(** *** Occurrences *)

Lemma find_sub_prefix (pat a b : text) :
  find_sub pat (a ++ b) = None -> find_sub pat a = None.
Proof.
  intros H. destruct (find_sub pat a) as [[x y]|] eqn:E; [|reflexivity].
  exfalso. apply find_sub_split in E. subst a.
  apply (find_sub_occurs pat x (y ++ b)). now rewrite <- !app_assoc in H.
Qed.

Lemma find_sub_suffix (pat a b : text) :
  find_sub pat (a ++ b) = None -> find_sub pat b = None.
Proof.
  intros H. destruct (find_sub pat b) eqn:E; [|reflexivity].
  exfalso. apply (find_sub_app pat a b); congruence.
Qed.

Lemma find_sub_trim (pat s : text) :
  find_sub pat s = None -> find_sub pat (Js.trim s) = None.
Proof.
  intros H. unfold Js.trim.
  destruct (trimStart_split s) as [ws [E _]]. rewrite E in H.
  apply find_sub_suffix in H.
  destruct (trimEnd_split (Js.trimStart s)) as [ws' [E' _]]. rewrite E' in H.
  now apply find_sub_prefix in H.
Qed.

(** What precedes the first occurrence holds no occurrence. *)
Lemma find_sub_first (pat s pre post : text) :
  pat <> [] -> find_sub pat s = Some (pre, post) -> find_sub pat pre = None.
Proof.
  intros Hpat. revert pre. induction s as [|c s IH]; intros pre; cbn [find_sub].
  - destruct (Js.startsWith [] pat) eqn:E; [|discriminate].
    destruct pat; [contradiction|discriminate].
  - destruct (Js.startsWith (c :: s) pat) eqn:E.
    + intros [= <- <-]. cbn. destruct pat; [contradiction|reflexivity].
    + destruct (find_sub pat s) as [[a b]|] eqn:Es; [|discriminate].
      intros [= <- <-]. cbn [find_sub]. rewrite (IH a eq_refl).
      destruct (Js.startsWith (c :: a) pat) eqn:Ea; [|reflexivity].
      exfalso. apply find_sub_split in Es. subst s.
      apply startsWith_spec in Ea as [w Ew].
      assert (Js.startsWith (c :: a ++ pat ++ b) pat = true).
      { apply startsWith_spec. exists (w ++ pat ++ b).
        change (c :: a ++ pat ++ b) with ((c :: a) ++ pat ++ b).
        rewrite Ew. now rewrite <- app_assoc. }
      congruence.
Qed.

Lemma stripActions_plain (t : text) :
  find_sub MARK t = None -> stripActions t = Js.trim t.
Proof.
  intros Hplain. unfold stripActions.
  rewrite (remove_all_no_match match_new_at)
    by (apply search_without_mark; auto using match_new_at_needs_mark).
  rewrite (remove_all_no_match (match_old_at false))
    by (apply search_without_mark; auto using match_old_at_needs_mark).
  unfold remove_partial. now rewrite Hplain.
Qed.

Lemma remove_partial_plain (s : text) : find_sub MARK (remove_partial s) = None.
Proof.
  unfold remove_partial. destruct (find_sub MARK s) as [[pre post]|] eqn:E; [|exact E].
  apply (find_sub_first MARK s pre post); [discriminate | exact E].
Qed.

Lemma stripActions_plain_result (t : text) : find_sub MARK (stripActions t) = None.
Proof. unfold stripActions. apply find_sub_trim, remove_partial_plain. Qed.

(** X12.  Whatever the text, what [stripActions] returns holds no
    ["[ACTION"] any more: complete tags of both forms are removed, and
    the text is cut at the first ["[ACTION"] that is left. *)
Theorem stripped_text_has_no_action_markup (t : text) :
  Js.includes (stripActions t) MARK = false.
Proof.
  apply includes_find_sub, stripActions_plain_result.
Qed.

(** X13.  [stripActions] is idempotent, and its result has no white
    space at either end. *)
Theorem stripActions_is_idempotent (t : text) :
  stripActions (stripActions t) = stripActions t
  /\ Js.trim (stripActions t) = stripActions t.
Proof.
  assert (Htrim : Js.trim (stripActions t) = stripActions t)
    by (unfold stripActions; apply trim_idem).
  split; [|exact Htrim].
  rewrite stripActions_plain; [exact Htrim|].
  apply stripActions_plain_result.
Qed.

(** *** The descriptors *)

Lemma search_inv (at_head : text -> option (text * text * text)) (s skipped : text)
    (m : text * text * text) :
  search at_head s = Some (skipped, m) -> exists s', at_head s' = Some m.
Proof.
  revert skipped. induction s as [|c s IH]; intros skipped; cbn [search].
  - destruct (at_head []) eqn:E; [|discriminate]. intros [= <- <-]. eauto.
  - destruct (at_head (c :: s)) eqn:E; [intros [= <- <-]; eauto|].
    destruct (search at_head s) as [[sk m']|] eqn:Es; [|discriminate].
    intros [= <- <-]. eauto.
Qed.

Lemma exec_all_kinds (at_head : text -> option (text * text * text)) :
  (forall s ty m2 rest, at_head s = Some (ty, m2, rest) -> In ty ACT_TYPES) ->
  forall fuel s ty m2, In (ty, m2) (exec_all at_head fuel s) -> In ty ACT_TYPES.
Proof.
  intros Hhead. induction fuel as [|n IH]; intros s ty m2; cbn [exec_all]; [intros []|].
  destruct (search at_head s) as [[sk [[ty' m2'] rest]]|] eqn:E; [|intros []].
  intros [[= <- <-] | Hin].
  - apply search_inv in E as [s' E]. eauto.
  - eauto.
Qed.

Lemma match_new_at_kind (s ty m2 rest : text) :
  match_new_at s = Some (ty, m2, rest) -> In ty ACT_TYPES.
Proof.
  unfold match_new_at. destruct (match_opener s) as [[ty' b]|] eqn:E; [|discriminate].
  destruct (lazy_body b) as [[m rest']|]; [|discriminate].
  intros [= <- <- <-]. now apply match_opener_inv in E as [H _].
Qed.

Lemma match_old_at_kind (atLeastOne : bool) (s ty m2 rest : text) :
  match_old_at atLeastOne s = Some (ty, m2, rest) -> In ty ACT_TYPES.
Proof.
  unfold match_old_at. destruct (match_opener s) as [[ty' b]|] eqn:E; [|discriminate].
  destruct (span_not_close b) as [run [|c after]]; [discriminate|].
  destruct (atLeastOne && bool_decide (run = [])); [discriminate|].
  intros [= <- <- <-]. now apply match_opener_inv in E as [H _].
Qed.

Lemma indexOf_take (s p : text) (i : nat) :
  p <> [] -> Js.indexOf s p = Some i -> Js.includes (take i s) p = false.
Proof.
  intros Hp. revert i. induction s as [|c s IH]; intros i; cbn [Js.indexOf].
  - destruct (Js.startsWith [] p) eqn:E; [|discriminate].
    destruct p; [contradiction|discriminate].
  - destruct (Js.startsWith (c :: s) p) eqn:E.
    + intros [= <-]. cbn. unfold Js.includes. cbn. destruct p; [contradiction|reflexivity].
    + destruct (Js.indexOf s p) as [j|] eqn:Ej; [|discriminate].
      intros [= <-]. cbn [take]. specialize (IH j eq_refl).
      unfold Js.includes in *. cbn [Js.indexOf].
      destruct (Js.startsWith (c :: take j s) p) eqn:Et.
      * exfalso. apply startsWith_spec in Et as [w Ew].
        assert (Js.startsWith (c :: s) p = true).
        { apply startsWith_spec. exists (w ++ drop j s).
          rewrite app_assoc, <- Ew. cbn [app]. now rewrite take_drop. }
        congruence.
      * destruct (Js.indexOf (take j s) p); [discriminate|reflexivity].
Qed.

(** X11.  Every descriptor that [extractActions] returns is of one of
    the four known kinds.  A [READ_FILE] or [RUN_CMD] descriptor has no
    content, and its target has no white space at its end.  The target
    of a [WRITE_FILE] or [RUN_SCRIPT] descriptor is the payload up to
    its first [':'], so it holds no [':']; a content, when there is one,
    has no white space at its end. *)
Theorem extracted_actions_are_well_formed (full : text) (a : Action) :
  In a (extractActions full) ->
  In (act_type a) ACT_TYPES
  /\ (act_type a = READ_FILE \/ act_type a = RUN_CMD ->
      act_content a = None /\ Js.trimEnd (act_target a) = act_target a)
  /\ (act_type a = WRITE_FILE \/ act_type a = RUN_SCRIPT ->
      Js.includes (act_target a) (txt ":") = false)
  /\ (forall c, act_content a = Some c -> Js.trimEnd c = c).
Proof.
  intros Hin. unfold extractActions in Hin. apply in_app_or in Hin.
  assert (Hd : exists ty m2, In ty ACT_TYPES /\ a = descriptor (ty, m2)).
  { destruct Hin as [Hin|Hin]; apply in_map_iff in Hin as [[ty m2] [<- Hin]];
      exists ty, m2; (split; [|reflexivity]).
    - eapply (exec_all_kinds match_new_at); [apply match_new_at_kind | exact Hin].
    - eapply (exec_all_kinds (match_old_at true)); [apply match_old_at_kind | exact Hin]. }
  clear Hin. destruct Hd as [ty [m2 [Hty ->]]].
  unfold ACT_TYPES in Hty. cbn [In] in Hty. unfold descriptor.
  destruct Hty as [<-|[<-|[<-|[<-|[]]]]].
  - (* READ_FILE *)
    change (is_type READ_FILE WRITE_FILE || is_type READ_FILE RUN_SCRIPT) with false.
    cbn [act_type act_target act_content].
    split; [cbn; tauto|]. split; [intros _; split; [reflexivity | apply trimEnd_idem]|].
    split; [intros [H|H]; discriminate H | intros c H; discriminate H].
  - (* RUN_CMD *)
    change (is_type RUN_CMD WRITE_FILE || is_type RUN_CMD RUN_SCRIPT) with false.
    cbn [act_type act_target act_content].
    split; [cbn; tauto|]. split; [intros _; split; [reflexivity | apply trimEnd_idem]|].
    split; [intros [H|H]; discriminate H | intros c H; discriminate H].
  - (* RUN_SCRIPT *)
    change (is_type RUN_SCRIPT WRITE_FILE || is_type RUN_SCRIPT RUN_SCRIPT) with true.
    cbn iota.
    destruct (Js.indexOf (Js.trimEnd (clean_tag m2)) (txt ":")) as [ci|] eqn:Ei;
      cbn [act_type act_target act_content].
    + split; [cbn; tauto|]. split; [intros [H|H]; discriminate H|].
      split; [intros _; apply indexOf_take; [discriminate | exact Ei]|].
      intros c [= <-]. apply trimEnd_idem.
    + split; [cbn; tauto|]. split; [intros [H|H]; discriminate H|].
      split; [intros _; unfold Js.includes; now rewrite Ei | intros c H; discriminate H].
  - (* WRITE_FILE *)
    change (is_type WRITE_FILE WRITE_FILE || is_type WRITE_FILE RUN_SCRIPT) with true.
    cbn iota.
    destruct (Js.indexOf (Js.trimEnd (clean_tag m2)) (txt ":")) as [ci|] eqn:Ei;
      cbn [act_type act_target act_content].
    + split; [cbn; tauto|]. split; [intros [H|H]; discriminate H|].
      split; [intros _; apply indexOf_take; [discriminate | exact Ei]|].
      intros c [= <-]. apply trimEnd_idem.
    + split; [cbn; tauto|]. split; [intros [H|H]; discriminate H|].
      split; [intros _; unfold Js.includes; now rewrite Ei | intros c H; discriminate H].
Qed.

Lemma extracted_actions_witness :
  In (mkAction WRITE_FILE (txt "C") (Some (txt "\conf\app.ini:debug=1")))
     (extractActions (txt "[ACTION:WRITE_FILE:C:\conf\app.ini:debug=1  [/ACTION]"))
  /\ Js.includes (txt "C") (txt ":") = false.
Proof.
  assert (Hin : In (mkAction WRITE_FILE (txt "C") (Some (txt "\conf\app.ini:debug=1")))
                  (extractActions (txt "[ACTION:WRITE_FILE:C:\conf\app.ini:debug=1  [/ACTION]")))
    by (left; reflexivity).
  split; [exact Hin|].
  exact (proj1 (proj2 (proj2 (extracted_actions_are_well_formed _ _ Hin)))
           (or_introl eq_refl)).
Defined.

Lemma display_of_bracket_free_witness :
  display (map txt ["CPU load is 0.42, "; "memory 51% used."; ""; " All fine."]%string)
  = txt "CPU load is 0.42, memory 51% used. All fine.".
Proof.
  exact (proj1 (display_of_bracket_free_text
                  (map txt ["CPU load is 0.42, "; "memory 51% used."; ""; " All fine."]%string)
                  eq_refl)).
Defined.

(** *** The display never invents text *)

Lemma scan_char_sublist (st : Scan) (ch : ascii) (seen : text) :
  sublist (out st ++ pendingBracket st) seen ->
  sublist (out (scan_char st ch) ++ pendingBracket (scan_char st ch)) (seen ++ [ch]).
Proof.
  intros H.
  assert (Hout : sublist (out st) seen).
  { etransitivity; [|exact H]. apply sublist_inserts_r. reflexivity. }
  unfold scan_char. destruct (insideAction st).
  { destruct (Js.endsWith (full st) CLOSE); cbn [out pendingBracket];
      now apply sublist_inserts_r. }
  destruct (Js.ascii_eqb ch "[") eqn:Eb.
  { cbn [out pendingBracket]. apply ascii_eqb_eq in Eb. subst ch.
    now apply sublist_app. }
  destruct (Js.startsWith (pendingBracket st ++ [ch]) (txt "[")).
  - destruct (bool_decide (is_Some (match_opener (pendingBracket st ++ [ch])))).
    + cbn [out pendingBracket]. rewrite app_nil_r. now apply sublist_inserts_r.
    + destruct ((30 <? length (pendingBracket st ++ [ch]))
                || negb (existsb (fun o => Js.startsWith o (pendingBracket st ++ [ch]))
                           openers)); cbn [out pendingBracket].
      * rewrite app_nil_r, app_assoc. now apply sublist_app.
      * rewrite app_assoc. now apply sublist_app.
  - cbn [out pendingBracket]. rewrite app_nil_r. now apply sublist_app.
Qed.

Lemma scan_chars_sublist (cs : text) (st : Scan) (seen : text) :
  sublist (out st ++ pendingBracket st) seen ->
  sublist (out (fold_left scan_char cs st) ++ pendingBracket (fold_left scan_char cs st))
    (seen ++ cs).
Proof.
  revert st seen. induction cs as [|c cs IH]; intros st seen H; cbn [fold_left].
  - now rewrite app_nil_r.
  - replace (seen ++ c :: cs) with ((seen ++ [c]) ++ cs) by now rewrite <- app_assoc.
    apply IH. now apply scan_char_sublist.
Qed.

Lemma feed_sublist (st : Scan) (chunk seen : text) :
  sublist (out st ++ pendingBracket st) seen ->
  sublist (out (feed st chunk) ++ pendingBracket (feed st chunk)) (seen ++ chunk).
Proof.
  intros H. destruct chunk as [|c chunk]; [now rewrite app_nil_r|].
  unfold feed. now apply scan_chars_sublist.
Qed.

Lemma scan_from_sublist (chunks : list text) (st : Scan) (seen : text) :
  sublist (out st ++ pendingBracket st) seen ->
  sublist (out (fold_left feed chunks st) ++ pendingBracket (fold_left feed chunks st))
    (seen ++ concat chunks).
Proof.
  revert st seen. induction chunks as [|c chunks IH]; intros st seen H;
    cbn [fold_left concat].
  - now rewrite app_nil_r.
  - rewrite app_assoc. apply IH. now apply feed_sublist.
Qed.

(** X15.  However the reply is cut into fragments, what is written to
    the terminal is obtained from the text of the reply by leaving code
    units out: nothing is shown that was not received, nothing is shown
    twice, and nothing is shown out of order. *)
Theorem display_is_a_sublist_of_the_reply (chunks : list text) :
  sublist (display chunks) (concat chunks)
  /\ length (display chunks) <= length (streamChat chunks).
Proof.
  assert (H : sublist (display chunks) (concat chunks)).
  { pose proof (scan_from_sublist chunks scan0 [] (sublist_nil_l _)) as H.
    cbn [app] in H. fold (scan chunks) in H. unfold display, flush.
    destruct (Js.truthy (Some (pendingBracket (scan chunks)))
              && negb (insideAction (scan chunks))); [exact H|].
    etransitivity; [|exact H]. apply sublist_inserts_r. reflexivity. }
  split; [exact H|]. rewrite streamChat_concat. now apply sublist_length.
Qed.


(** ** The approval loop and the read-eval-print loop *)

(** *** The answer to a prompt *)

Lemma toLowerChar_y (c : ascii) :
  Js.ascii_eqb (Js.toLowerChar c) "y" = true <-> c = "y"%char \/ c = "Y"%char.
Proof.
  split.
  - destruct c as [[] [] [] [] [] [] [] []]; vm_compute; intros H;
      first [discriminate H | now left | now right].
  - intros [-> | ->]; reflexivity.
Qed.

(** X16.  A prompt is answered with a yes exactly when the first code
    unit of the typed line that is not white space is [y] or [Y]; what
    follows it does not matter, and an empty or blank line is a no. *)
Theorem approval_needs_a_leading_y (typed : text) :
  (promptYN typed = true
   <-> exists rest, Js.trimStart typed = "y"%char :: rest
                    \/ Js.trimStart typed = "Y"%char :: rest)
  /\ (Js.trim typed = [] -> promptYN typed = false).
Proof.
  split.
  - unfold promptYN, Js.trim.
    destruct (Js.trimStart typed) as [|c r] eqn:E.
    { cbn. split; [discriminate | intros [rest [H|H]]; discriminate H]. }
    pose proof (trimStart_head typed c r E) as Hc.
    destruct (trimEnd_head c r Hc) as [z ->].
    cbn [Js.toLowerCase map Js.startsWith txt list_ascii_of_string].
    rewrite andb_true_r, toLowerChar_y. split.
    + intros [-> | ->]; exists r; [now left | now right].
    + intros [rest [[= -> _] | [= -> _]]]; [now left | now right].
  - intros H. unfold promptYN. now rewrite H.
Qed.

(** *** What is fed back to the model *)

(** X17.  The result text that goes back into the conversation is the
    result itself when it has at most 4000 code units; a longer one is
    cut to its first 4000 code units, followed by a line break and the
    mark [...[truncated]], 4015 code units in all. *)
Theorem fed_back_result_is_bounded (r : text) :
  (length r <= MAX_RESULT -> clip r = r)
  /\ (MAX_RESULT < length r ->
      clip r = take MAX_RESULT r ++ [nl] ++ txt "...[truncated]"
      /\ length (clip r) = MAX_RESULT + 15)
  /\ length (clip r) <= MAX_RESULT + 15
  /\ take MAX_RESULT (clip r) = take MAX_RESULT r.
Proof.
  unfold clip.
  destruct (Nat.ltb_spec MAX_RESULT (length r)) as [Hlong | Hshort].
  - assert (Hlen : length (take MAX_RESULT r ++ [nl] ++ txt "...[truncated]")
                   = MAX_RESULT + 15).
    { rewrite length_app, length_take.
      change (length ([nl] ++ txt "...[truncated]")) with 15. lia. }
    split; [lia|]. split; [intros _; now split|]. split; [lia|].
    rewrite take_app_le by (rewrite length_take; lia).
    rewrite take_take. f_equal; lia.
  - split; [reflexivity|]. split; [lia|]. split; [lia | reflexivity].
Qed.

(** *** Nothing runs without a yes *)

Lemma processActions_all_denied (cfg : Setting) (followUp : Sess -> Sess)
    (actions : list Action) (s : Sess) :
  (forall n, promptYN (answer cfg n) = false) ->
  machine (processActions cfg followUp actions s) = machine s
  /\ conversation (processActions cfg followUp actions s)
     = conversation s ++ map deniedMessage actions
  /\ log (processActions cfg followUp actions s)
     = log s ++ flat_map (fun a => [Asked a; Denied a]) actions.
Proof.
  intros Hno. revert s. induction actions as [|act rest IH]; intros s.
  - cbn. now rewrite !app_nil_r.
  - rewrite processActions_cons. cbn zeta. rewrite Hno.
    destruct (IH (push (deniedMessage act)
                    (record (Denied act)
                       (record (Asked act)
                          (mkSess (conversation s) (machine s) (S (prompts s)) (log s))))))
      as [Hm [Hc Hl]].
    rewrite Hm, Hc, Hl. unfold push, record.
    cbn [machine conversation log map flat_map]. rewrite <- !app_assoc.
    repeat split.
Qed.

(** X18.  When the user answers no prompt with a yes, nothing is ever
    executed: whatever the model replies and however many actions it
    proposes, the files and the record of spawned processes, directory
    creations, copies and writes are the same after the line as before
    it; every proposed action was asked about and denied, and the
    denials are what is added to the conversation after the reply. *)
Theorem nothing_runs_without_a_yes (cfg : Setting) (fuel : nat) (input : text) (s : Sess) :
  (forall n, promptYN (answer cfg n) = false) ->
  machine (processResponse cfg fuel s) = machine s
  /\ machine (snd (handleUserInput cfg fuel input s)) = machine s
  /\ (forall chunks n,
        fuel = S n ->
        reply cfg (conversation s) = Some chunks ->
        Js.trim (concat chunks) <> [] ->
        conversation (processResponse cfg fuel s)
        = conversation s ++ [mkMessage (txt "assistant") (concat chunks)]
            ++ map deniedMessage (extractActions (concat chunks))
        /\ log (processResponse cfg fuel s)
           = log s ++ flat_map (fun a => [Asked a; Denied a])
                        (extractActions (concat chunks))).
Proof.
  intros Hno.
  assert (Hpr : forall s0, machine (processResponse cfg fuel s0) = machine s0).
  { intros s0. destruct fuel as [|n]; [reflexivity|]. cbn [processResponse].
    destruct (reply cfg (conversation s0)) as [chunks|]; [|reflexivity].
    now rewrite (proj1 (processActions_all_denied cfg _ _ _ Hno)). }
  split; [apply Hpr|]. split.
  - unfold handleUserInput.
    repeat match goal with |- context [if ?b then _ else _] => destruct b end;
      try reflexivity.
    cbn [snd]. now rewrite Hpr.
  - intros chunks n -> Hreply Hfull. cbn [processResponse]. rewrite Hreply.
    rewrite streamChat_concat.
    destruct (Js.trim (concat chunks)) as [|c r] eqn:E; [contradiction|].
    destruct (processActions_all_denied cfg (processResponse cfg n)
                (extractActions (concat chunks))
                (push (mkMessage (txt "assistant") (concat chunks)) s) Hno)
      as [_ [Hc Hl]].
    rewrite Hc, Hl. unfold push. cbn [conversation log].
    now rewrite <- app_assoc.
Qed.

Lemma nothing_runs_witness :
  machine (snd (handleUserInput
                  (mkSetting Fixtures.host0 Fixtures.reply0 (fun _ => txt "no"))
                  3 (txt "Why is nginx down?")
                  (mkSess [] Fixtures.st0 0 [])))
  = Fixtures.st0.
Proof.
  exact (proj1 (proj2 (nothing_runs_without_a_yes
                         (mkSetting Fixtures.host0 Fixtures.reply0 (fun _ => txt "no"))
                         3 (txt "Why is nginx down?")
                         (mkSess [] Fixtures.st0 0 [])
                         (fun _ => eq_refl)))).
Defined.

(** *** The log of the approval loop *)


Lemma answered_app (cfg : Setting) (d1 d2 : list Event) (n : nat) :
  answered cfg n d1 ->
  answered cfg (n + length (List.filter is_asked d1)) d2 ->
  answered cfg n (d1 ++ d2).
Proof.
  remember (length d1) as k eqn:Hk. revert d1 n Hk.
  induction k as [k IH] using lt_wf_ind. intros d1 n Hk H1 H2.
  destruct d1 as [|e d1]; [cbn in *; now rewrite Nat.add_0_r in H2|].
  destruct e as [a|a r|a|].
  - destruct d1 as [|e' d1]; [contradiction H1|].
    destruct e' as [a'|a' r'|a'|]; try contradiction H1.
    + cbn [answered app] in *. destruct H1 as [Ha [Hy H1]].
      split; [exact Ha|]. split; [exact Hy|].
      apply (IH (length d1)); [cbn in Hk; lia | reflexivity | exact H1|].
      cbn [List.filter is_asked length] in H2.
      replace (S n + length (List.filter is_asked d1))
        with (n + S (length (List.filter is_asked d1))) by lia. exact H2.
    + cbn [answered app] in *. destruct H1 as [Ha [Hy H1]].
      split; [exact Ha|]. split; [exact Hy|].
      apply (IH (length d1)); [cbn in Hk; lia | reflexivity | exact H1|].
      cbn [List.filter is_asked length] in H2.
      replace (S n + length (List.filter is_asked d1))
        with (n + S (length (List.filter is_asked d1))) by lia. exact H2.
  - contradiction H1.
  - contradiction H1.
  - cbn [answered app] in *.
    apply (IH (length d1)); [cbn in Hk; lia | reflexivity | exact H1 | exact H2].
Qed.

Lemma replay_app (h : Host) (d1 d2 : list Event) (m : State) :
  replay h (d1 ++ d2) m
  = (fst (replay h d2 (fst (replay h d1 m))),
     snd (replay h d1 m) ++ snd (replay h d2 (fst (replay h d1 m)))).
Proof.
  revert m. induction d1 as [|e d1 IH]; intros m.
  - cbn. now destruct (replay h d2 m).
  - destruct e as [a|a r|a|]; cbn [app replay]; try apply IH.
    destruct (executeAction Terminal h (act_type a) (act_target a) (act_content a) m)
      as [r0 m0].
    rewrite IH. destruct (replay h d1 m0) as [m1 rs1]. reflexivity.
Qed.

Lemma logged_app (d1 d2 : list Event) : logged (d1 ++ d2) = logged d1 ++ logged d2.
Proof.
  induction d1 as [|e d1 IH]; [reflexivity|].
  destruct e; cbn [app logged]; now rewrite ?IH.
Qed.

Lemma continues_refl (cfg : Setting) (s s' : Sess) :
  log s' = log s -> prompts s' = prompts s -> machine s' = machine s ->
  continues cfg s s'.
Proof.
  intros Hl Hp Hm. exists []. rewrite app_nil_r, Hm. cbn [answered List.filter length replay logged].
  split; [exact Hl|]. split; [exact I|]. split; [lia | reflexivity].
Qed.

Lemma continues_trans (cfg : Setting) (s s1 s2 : Sess) :
  continues cfg s s1 -> continues cfg s1 s2 -> continues cfg s s2.
Proof.
  intros [d1 [Hl1 [Ha1 [Hp1 Hr1]]]] [d2 [Hl2 [Ha2 [Hp2 Hr2]]]].
  exists (d1 ++ d2). split; [now rewrite Hl2, Hl1, <- app_assoc|]. split.
  - apply answered_app; [exact Ha1 | now rewrite <- Hp1].
  - split.
    + rewrite List.filter_app, length_app. lia.
    + rewrite replay_app, Hr1. cbn [fst snd]. rewrite Hr2. cbn [fst snd].
      now rewrite logged_app.
Qed.

Lemma processActions_continues (cfg : Setting) (followUp : Sess -> Sess) :
  (forall s, continues cfg s (followUp s)) ->
  forall actions s, continues cfg s (processActions cfg followUp actions s).
Proof.
  intros Hfollow. induction actions as [|act rest IH]; intros s.
  - now apply continues_refl.
  - rewrite processActions_cons. cbn zeta.
    destruct (promptYN (answer cfg (prompts s))) eqn:Hans.
    + eapply continues_trans; [|apply IH].
      eapply continues_trans; [|apply Hfollow].
      unfold approved. cbn [record machine conversation prompts log].
      destruct (executeAction Terminal (host cfg) (act_type act) (act_target act)
                  (act_content act) (machine s)) as [r m] eqn:Ex.
      exists [Asked act; Executed act r].
      unfold push, record. cbn [log prompts machine conversation].
      split; [now rewrite <- app_assoc|]. split; [cbn; auto|]. split; [cbn; lia|].
      cbn [replay logged]. now rewrite Ex.
    + eapply continues_trans; [|apply IH].
      exists [Asked act; Denied act].
      unfold push, record. cbn [log prompts machine conversation].
      split; [now rewrite <- app_assoc|]. split; [cbn; auto|]. split; [cbn; lia|].
      reflexivity.
Qed.

Lemma processResponse_continues (cfg : Setting) (fuel : nat) (s : Sess) :
  continues cfg s (processResponse cfg fuel s).
Proof.
  revert s. induction fuel as [|n IH]; intros s; [now apply continues_refl|].
  cbn [processResponse].
  destruct (reply cfg (conversation s)) as [chunks|].
  - eapply continues_trans; [|apply processActions_continues, IH].
    now apply continues_refl.
  - exists [StreamFailed]. unfold record. cbn [log prompts machine].
    split; [reflexivity|]. split; [cbn; auto|]. split; [cbn; lia | reflexivity].
Qed.

(** X19.  The log of the approval loop is a complete record of what
    was run.  Whatever the model replies and the user answers, what a
    line adds to the log is a sequence of prompts, each followed at once
    by the execution of the very action it asked about when the answer
    to that prompt was a yes and by its denial otherwise (and of failed
    requests to the model); the prompts are counted one by one; and the
    state of the machine afterwards is the state before after the logged
    executions, carried out in that order, each with the logged
    result. *)
Theorem log_accounts_for_every_execution
    (cfg : Setting) (fuel : nat) (input : text) (s : Sess) :
  exists delta,
    log (snd (handleUserInput cfg fuel input s)) = log s ++ delta
    /\ answered cfg (prompts s) delta
    /\ prompts (snd (handleUserInput cfg fuel input s))
       = prompts s + length (List.filter is_asked delta)
    /\ replay (host cfg) delta (machine s)
       = (machine (snd (handleUserInput cfg fuel input s)), logged delta).
Proof.
  change (continues cfg s (snd (handleUserInput cfg fuel input s))).
  unfold handleUserInput.
  repeat match goal with |- context [if ?b then _ else _] => destruct b end;
    cbn [snd]; try now apply continues_refl.
  eapply continues_trans; [|apply processResponse_continues].
  now apply continues_refl.
Qed.

(** *** Replies that carry nothing *)

(** X20.  A reply that is empty or white space only is replaced by a
    canned text: the greeting when the conversation holds at most two
    messages, the no-response text otherwise.  The canned text is what
    is stored as the assistant's message; it proposes no action, so
    nothing is asked and nothing is run. *)
Theorem blank_reply_is_replaced (cfg : Setting) (n : nat) (s : Sess) (chunks : list text) :
  reply cfg (conversation s) = Some chunks ->
  Js.trim (concat chunks) = [] ->
  processResponse cfg (S n) s
  = mkSess
      (conversation s
         ++ [mkMessage (txt "assistant")
               (if length (conversation s) <=? 2 then GREETING else NO_RESPONSE)])
      (machine s) (prompts s) (log s).
Proof.
  intros Hreply Hblank. cbn [processResponse]. rewrite Hreply, streamChat_concat, Hblank.
  destruct (length (conversation s) <=? 2).
  - change (extractActions GREETING) with (@nil Action). reflexivity.
  - change (extractActions NO_RESPONSE) with (@nil Action). reflexivity.
Qed.

Lemma blank_reply_witness :
  processResponse
    (mkSetting Fixtures.host0 (fun _ => Some [txt "  "; [nl]]) (fun _ => txt "y"))
    1 Fixtures.sess0
  = mkSess [mkMessage (txt "user") (txt "Why is nginx down?");
            mkMessage (txt "assistant") GREETING]
      Fixtures.st0 0 [].
Proof.
  exact (blank_reply_is_replaced
           (mkSetting Fixtures.host0 (fun _ => Some [txt "  "; [nl]]) (fun _ => txt "y"))
           0 Fixtures.sess0 [txt "  "; [nl]] eq_refl eq_refl).
Defined.

(** X21.  When the request to the model fails for a line the user
    typed, the line is taken back: the conversation is what it was
    before the line, nothing was asked or run, and the failure is the
    only thing reported.  This holds for every line that is not blank
    and not one of the commands [/quit], [/exit], [/new], [/clear] and
    [/help]. *)
Theorem failed_request_takes_the_line_back
    (cfg : Setting) (n : nat) (input : text) (s : Sess) :
  Js.trim input <> [] ->
  ~ In (Js.trim input) (map txt ["/quit"; "/exit"; "/new"; "/clear"; "/help"]%string) ->
  reply cfg (conversation s ++ [mkMessage (txt "user") (Js.trim input)]) = None ->
  handleUserInput cfg (S n) input s
  = (Continue, mkSess (conversation s) (machine s) (prompts s) (log s ++ [StreamFailed])).
Proof.
  intros Hne Hcmd Hfail. unfold handleUserInput.
  destruct (Js.trim input) as [|c r] eqn:E; [contradiction|].
  cbn [Js.truthy negb]. unfold NodePath.text_eqb.
  rewrite !bool_decide_eq_false_2 by (intros H; apply Hcmd; rewrite H; cbn; tauto).
  cbn [orb]. cbn [processResponse]. unfold push at 1. cbn [conversation].
  rewrite Hfail. unfold record, push. cbn [conversation machine prompts log].
  now rewrite removelast_last.
Qed.

Lemma failed_request_witness :
  handleUserInput (mkSetting Fixtures.host0 (fun _ => None) (fun _ => txt "y"))
    1 (txt "  Why is nginx down? ") (mkSess [] Fixtures.st0 0 [])
  = (Continue, mkSess [] Fixtures.st0 0 [StreamFailed]).
Proof.
  apply (failed_request_takes_the_line_back
           (mkSetting Fixtures.host0 (fun _ => None) (fun _ => txt "y"))
           0 (txt "  Why is nginx down? ") (mkSess [] Fixtures.st0 0 [])).
  - discriminate.
  - intros [H|[H|[H|[H|[H|[]]]]]]; discriminate H.
  - reflexivity.
Defined.


(** ** Wrapping *)

(** *** Splitting into lines and joining them again *)

Lemma split_on_pieces_free (c : ascii) (s : text) :
  Forall (fun l => forallb (fun d => negb (Js.ascii_eqb d c)) l = true)
    (NodePath.split_on c s).
Proof.
  induction s as [|d s IH]; cbn [NodePath.split_on]; [repeat constructor|].
  destruct (Js.ascii_eqb d c) eqn:E; [constructor; [reflexivity | exact IH]|].
  destruct (NodePath.split_on c s) as [|h t]; [repeat constructor; cbn; now rewrite E|].
  inversion IH as [|? ? Hh Ht]; subst. constructor; [|exact Ht].
  cbn [forallb]. now rewrite E, Hh.
Qed.

Lemma join_split (c : ascii) (s : text) :
  NodePath.join_with [c] (NodePath.split_on c s) = s.
Proof.
  induction s as [|d s IH]; [reflexivity|]. cbn [NodePath.split_on].
  pose proof (split_on_nonempty c s) as Hne.
  destruct (Js.ascii_eqb d c) eqn:E.
  - apply ascii_eqb_eq in E. subst d.
    destruct (NodePath.split_on c s) as [|h t]; [contradiction|].
    change (NodePath.join_with [c] ([] :: h :: t))
      with ([] ++ [c] ++ NodePath.join_with [c] (h :: t)).
    now rewrite IH.
  - destruct (NodePath.split_on c s) as [|h t]; [contradiction|].
    destruct t as [|h' t'].
    + cbn in *. now rewrite IH.
    + change (NodePath.join_with [c] ((d :: h) :: h' :: t'))
        with ((d :: h) ++ [c] ++ NodePath.join_with [c] (h' :: t')).
      change (NodePath.join_with [c] (h :: h' :: t'))
        with (h ++ [c] ++ NodePath.join_with [c] (h' :: t')) in IH.
      cbn [app] in *. now rewrite IH.
Qed.

Lemma split_on_app_free (c : ascii) (l rest : text) :
  forallb (fun d => negb (Js.ascii_eqb d c)) l = true ->
  NodePath.split_on c (l ++ c :: rest) = l :: NodePath.split_on c rest.
Proof.
  intros H. induction l as [|d l IH]; cbn [app NodePath.split_on].
  - unfold Js.ascii_eqb. now rewrite Ascii.eqb_refl.
  - cbn [forallb] in H. apply andb_prop in H as [Hd Hl]. apply negb_true_iff in Hd.
    now rewrite Hd, (IH Hl).
Qed.

Lemma split_join (c : ascii) (lines : list text) :
  lines <> [] ->
  Forall (fun l => forallb (fun d => negb (Js.ascii_eqb d c)) l = true) lines ->
  NodePath.split_on c (NodePath.join_with [c] lines) = lines.
Proof.
  intros Hne Hfree. induction Hfree as [|l lines Hl Hrest IH]; [contradiction|].
  destruct lines as [|l' lines'].
  - cbn [NodePath.join_with]. now apply split_on_free.
  - change (NodePath.join_with [c] (l :: l' :: lines'))
      with (l ++ c :: NodePath.join_with [c] (l' :: lines')).
    rewrite split_on_app_free by exact Hl. f_equal. apply IH. discriminate.
Qed.

(** *** What the loop does to one line *)

Lemma lastIndexOf_le (s : text) (c : ascii) (pos i : nat) :
  lastIndexOf s c pos = Some i -> i <= pos.
Proof.
  revert pos i. induction s as [|d s IH]; intros pos i; cbn [lastIndexOf]; [discriminate|].
  destruct pos as [|p].
  - destruct (Js.ascii_eqb d c); [|discriminate]. intros [= <-]. lia.
  - destruct (lastIndexOf s c p) as [j|] eqn:E.
    + intros [= <-]. apply IH in E. lia.
    + destruct (Js.ascii_eqb d c); [|discriminate]. intros [= <-]. lia.
Qed.

Lemma breakAt_le (r : text) (width : nat) : breakAt r width <= width.
Proof.
  unfold breakAt. destruct (lastIndexOf r " " width) as [[|i]|] eqn:E; try lia.
  now apply lastIndexOf_le in E.
Qed.

Lemma breakAt_pos (r : text) (width : nat) : 0 < width -> 0 < breakAt r width.
Proof.
  intros H. unfold breakAt. destruct (lastIndexOf r " " width) as [[|i]|]; lia.
Qed.

Lemma ink_app (a b : text) : ink (a ++ b) = ink a ++ ink b.
Proof. apply List.filter_app. Qed.

Lemma ink_trimStart (s : text) : ink (Js.trimStart s) = ink s.
Proof.
  induction s as [|c s IH]; [reflexivity|]. cbn [Js.trimStart].
  destruct (Js.is_space c) eqn:E; [|reflexivity].
  unfold ink in *. cbn [List.filter]. now rewrite E.
Qed.

Lemma trimStart_length (s : text) : length (Js.trimStart s) <= length s.
Proof.
  induction s as [|c s IH]; [reflexivity|]. cbn [Js.trimStart].
  destruct (Js.is_space c); cbn [length]; lia.
Qed.

Lemma forallb_take {A} (p : A -> bool) (n : nat) (l : list A) :
  forallb p l = true -> forallb p (take n l) = true.
Proof.
  revert l. induction n as [|n IH]; intros [|x l] H; try reflexivity.
  cbn [take forallb] in *. apply andb_prop in H as [Hx Hl]. now rewrite Hx, IH.
Qed.

Lemma forallb_drop {A} (p : A -> bool) (n : nat) (l : list A) :
  forallb p l = true -> forallb p (drop n l) = true.
Proof.
  revert l. induction n as [|n IH]; intros [|x l] H; try reflexivity; [exact H|].
  cbn [drop forallb] in *. apply andb_prop in H as [Hx Hl]. now apply IH.
Qed.

Lemma forallb_trimStart (p : ascii -> bool) (s : text) :
  forallb p s = true -> forallb p (Js.trimStart s) = true.
Proof.
  induction s as [|c s IH]; [reflexivity|]. cbn [Js.trimStart].
  destruct (Js.is_space c); [|trivial]. cbn [forallb]. intros H.
  apply andb_prop in H as [_ H]. now apply IH.
Qed.

(** With [fuel] at least the length of the line the loop ends. *)
Lemma wrapLoop_fits (width : nat) :
  0 < width ->
  forall fuel r, length r <= fuel ->
    exists lines, wrapLoop fuel width r = Some lines
      /\ Forall (fun l => length l <= width) lines.
Proof.
  intros Hw. induction fuel as [|n IH]; intros r Hr.
  - destruct r; [|cbn in Hr; lia]. exists []. cbn. destruct width; [lia|].
    split; [reflexivity | constructor].
  - cbn [wrapLoop]. destruct (Nat.ltb_spec width (length r)) as [Hlong | Hshort].
    + pose proof (breakAt_pos r width Hw) as Hb. pose proof (breakAt_le r width) as Hb'.
      destruct (IH (Js.trimStart (drop (breakAt r width) r))) as [lines [E Hfit]].
      { pose proof (trimStart_length (drop (breakAt r width) r)) as Ht.
        rewrite length_drop in Ht. lia. }
      rewrite E. eexists. split; [reflexivity|]. constructor; [|exact Hfit].
      rewrite length_take. lia.
    + eexists. split; [reflexivity|].
      destruct r as [|x r']; cbn [Js.truthy];
        [constructor | constructor; [exact Hshort | constructor]].
Qed.

Lemma wrapLoop_ink (width fuel : nat) (r : text) (lines : list text) :
  wrapLoop fuel width r = Some lines -> concat (map ink lines) = ink r.
Proof.
  revert r lines. induction fuel as [|n IH]; intros r lines; cbn [wrapLoop];
    destruct (width <? length r).
  - discriminate.
  - intros [= <-]. destruct r; cbn; [reflexivity | now rewrite app_nil_r].
  - destruct (wrapLoop n width (Js.trimStart (drop (breakAt r width) r)))
      as [lines'|] eqn:E; [|discriminate].
    cbn [option_map]. intros [= <-]. cbn [map concat].
    rewrite (IH _ _ E), ink_trimStart, <- ink_app. now rewrite take_drop.
  - intros [= <-]. destruct r; cbn; [reflexivity | now rewrite app_nil_r].
Qed.

Lemma wrapLoop_free (c : ascii) (width fuel : nat) (r : text) (lines : list text) :
  forallb (fun d => negb (Js.ascii_eqb d c)) r = true ->
  wrapLoop fuel width r = Some lines ->
  Forall (fun l => forallb (fun d => negb (Js.ascii_eqb d c)) l = true) lines.
Proof.
  revert r lines. induction fuel as [|n IH]; intros r lines Hr; cbn [wrapLoop];
    destruct (width <? length r).
  - discriminate.
  - intros [= <-]. destruct r as [|x r']; cbn [Js.truthy];
      [constructor | constructor; [exact Hr | constructor]].
  - destruct (wrapLoop n width (Js.trimStart (drop (breakAt r width) r)))
      as [lines'|] eqn:E; [|discriminate].
    cbn [option_map]. intros [= <-]. constructor.
    + now apply forallb_take.
    + apply (IH _ _ (forallb_trimStart _ _ (forallb_drop _ _ _ Hr)) E).
  - intros [= <-]. destruct r as [|x r']; cbn [Js.truthy];
      [constructor | constructor; [exact Hr | constructor]].
Qed.

Lemma wrapLine_fits (width : nat) (rawLine : text) :
  0 < width ->
  exists lines, wrapLine width rawLine = Some lines
    /\ Forall (fun l => length l <= width) lines.
Proof.
  intros Hw. unfold wrapLine. destruct (Nat.leb_spec (length rawLine) width) as [H|H].
  - eexists. split; [reflexivity|]. constructor; [exact H | constructor].
  - apply wrapLoop_fits; [exact Hw | lia].
Qed.

Lemma wrapLine_ink (width : nat) (rawLine : text) (lines : list text) :
  wrapLine width rawLine = Some lines -> concat (map ink lines) = ink rawLine.
Proof.
  unfold wrapLine. destruct (length rawLine <=? width).
  - intros [= <-]. cbn. now rewrite app_nil_r.
  - apply wrapLoop_ink.
Qed.

Lemma wrapLine_free (c : ascii) (width : nat) (rawLine : text) (lines : list text) :
  forallb (fun d => negb (Js.ascii_eqb d c)) rawLine = true ->
  wrapLine width rawLine = Some lines ->
  Forall (fun l => forallb (fun d => negb (Js.ascii_eqb d c)) l = true) lines.
Proof.
  intros Hr. unfold wrapLine. destruct (length rawLine <=? width).
  - intros [= <-]. constructor; [exact Hr | constructor].
  - now apply wrapLoop_free.
Qed.

Lemma wrapLines_fits (width : nat) (rawLines : list text) :
  0 < width ->
  exists lines, wrapLines width rawLines = Some lines
    /\ Forall (fun l => length l <= width) lines.
Proof.
  intros Hw. induction rawLines as [|l rest [lines' [E' H']]].
  - exists []. split; [reflexivity | constructor].
  - destruct (wrapLine_fits width l Hw) as [lines [E H]].
    exists (lines ++ lines'). cbn [wrapLines]. rewrite E, E'.
    split; [reflexivity|]. apply Forall_app. now split.
Qed.

Lemma wrapLines_ink (width : nat) (rawLines lines : list text) :
  wrapLines width rawLines = Some lines ->
  concat (map ink lines) = concat (map ink rawLines).
Proof.
  revert lines. induction rawLines as [|l rest IH]; intros lines; cbn [wrapLines].
  - now intros [= <-].
  - destruct (wrapLine width l) as [a|] eqn:Ea; [|discriminate].
    destruct (wrapLines width rest) as [b|] eqn:Eb; [|discriminate].
    intros [= <-]. rewrite map_app, concat_app. cbn [map concat].
    now rewrite (wrapLine_ink _ _ _ Ea), (IH b eq_refl).
Qed.

Lemma wrapLines_free (c : ascii) (width : nat) (rawLines lines : list text) :
  Forall (fun l => forallb (fun d => negb (Js.ascii_eqb d c)) l = true) rawLines ->
  wrapLines width rawLines = Some lines ->
  Forall (fun l => forallb (fun d => negb (Js.ascii_eqb d c)) l = true) lines.
Proof.
  intros Hfree. revert lines. induction Hfree as [|l rest Hl Hrest IH]; intros lines;
    cbn [wrapLines].
  - intros [= <-]. constructor.
  - destruct (wrapLine width l) as [a|] eqn:Ea; [|discriminate].
    destruct (wrapLines width rest) as [b|] eqn:Eb; [|discriminate].
    intros [= <-]. apply Forall_app. split; [now apply (wrapLine_free c width l)|].
    now apply IH.
Qed.

Lemma nl_is_space : Js.is_space nl = true.
Proof. reflexivity. Qed.

Lemma ink_join (lines : list text) :
  ink (NodePath.join_with [nl] lines) = concat (map ink lines).
Proof.
  induction lines as [|l lines IH]; [reflexivity|].
  destruct lines as [|l' lines'].
  - cbn. now rewrite app_nil_r.
  - change (NodePath.join_with [nl] (l :: l' :: lines'))
      with (l ++ [nl] ++ NodePath.join_with [nl] (l' :: lines')).
    rewrite !ink_app, IH. reflexivity.
Qed.

Lemma ink_split (s : text) :
  concat (map ink (NodePath.split_on nl s)) = ink s.
Proof. now rewrite <- ink_join, join_split. Qed.

(** X22.  With a positive width the wrapping ends, and no line of
    what it returns is longer than the width. *)
Theorem wrapped_lines_fit (s : text) (width : nat) :
  0 < width ->
  exists out,
    wrapText s width = Some out
    /\ Forall (fun l => length l <= width) (NodePath.split_on nl out).
Proof.
  intros Hw. unfold wrapText.
  destruct s as [|c0 s0].
  { exists []. split; [reflexivity|]. cbn. constructor; [cbn; lia | constructor]. }
  cbn [Js.truthy negb].
  destruct (wrapLines_fits width (NodePath.split_on nl (c0 :: s0)) Hw) as [lines [E Hfit]].
  rewrite E. eexists. split; [reflexivity|].
  destruct lines as [|l lines'].
  - cbn. constructor; [cbn; lia | constructor].
  - rewrite split_join; [exact Hfit | discriminate|].
    eapply wrapLines_free; [apply split_on_pieces_free | exact E].
Qed.

Lemma wrapped_lines_witness :
  wrapText (txt "restart the gateway service and then check the log") 12
  = Some (txt "restart the" ++ [nl] ++ txt "gateway" ++ [nl] ++ txt "service and"
            ++ [nl] ++ txt "then check" ++ [nl] ++ txt "the log")
  /\ exists out,
       wrapText (txt "restart the gateway service and then check the log") 12 = Some out
       /\ Forall (fun l => length l <= 12) (NodePath.split_on nl out).
Proof.
  split; [vm_compute; reflexivity|].
  exact (wrapped_lines_fit (txt "restart the gateway service and then check the log") 12
           ltac:(lia)).
Defined.

(** X23.  Wrapping only drops white space and puts line breaks in:
    the code units of the result other than white space are those of the
    text, in the same order, whenever the wrapping ends. *)
Theorem wrapping_keeps_the_ink (s : text) (width : nat) (out : text) :
  wrapText s width = Some out -> ink out = ink s.
Proof.
  unfold wrapText. destruct s as [|c0 s0]; [now intros [= <-]|].
  cbn [Js.truthy negb].
  destruct (wrapLines width (NodePath.split_on nl (c0 :: s0))) as [lines|] eqn:E;
    [|discriminate].
  cbn [option_map]. intros [= <-].
  now rewrite ink_join, (wrapLines_ink _ _ _ E), ink_split.
Qed.

Lemma wrapping_ink_witness :
  ink (txt "restart the" ++ [nl] ++ txt "gateway" ++ [nl] ++ txt "service and"
         ++ [nl] ++ txt "then check" ++ [nl] ++ txt "the log")
  = ink (txt "restart the gateway service and then check the log").
Proof.
  apply (wrapping_keeps_the_ink (txt "restart the gateway service and then check the log")
           12).
  vm_compute. reflexivity.
Defined.

Lemma wrapLines_short (width : nat) (rawLines : list text) :
  Forall (fun l => length l <= width) rawLines -> wrapLines width rawLines = Some rawLines.
Proof.
  induction 1 as [|l rest Hl Hrest IH]; [reflexivity|].
  cbn [wrapLines]. unfold wrapLine. rewrite (proj2 (Nat.leb_le _ _) Hl), IH. reflexivity.
Qed.

(** A text all of whose lines fit the width is returned as it
    is. *)
Theorem fitting_text_is_left_alone (s : text) (width : nat) :
  Forall (fun l => length l <= width) (NodePath.split_on nl s) ->
  wrapText s width = Some s.
Proof.
  intros H. unfold wrapText. destruct s as [|c0 s0]; [reflexivity|].
  cbn [Js.truthy negb]. rewrite (wrapLines_short _ _ H). cbn [option_map].
  now rewrite join_split.
Qed.

Lemma fitting_text_witness :
  wrapText (txt "disk: ok" ++ [nl] ++ [nl] ++ txt "memory: ok" ++ [nl]) 10
  = Some (txt "disk: ok" ++ [nl] ++ [nl] ++ txt "memory: ok" ++ [nl]).
Proof.
  apply (fitting_text_is_left_alone
           (txt "disk: ok" ++ [nl] ++ [nl] ++ txt "memory: ok" ++ [nl]) 10).
  vm_compute. repeat (constructor; [lia|]). constructor.
Defined.

Lemma wrapLoop_zero (fuel : nat) (r : text) :
  Js.trimStart r <> [] -> wrapLoop fuel 0 r = None.
Proof.
  revert r. induction fuel as [|n IH]; intros r Hr.
  - destruct r; [contradiction|reflexivity].
  - destruct r as [|c r']; [contradiction|].
    cbn [wrapLoop length Nat.ltb Nat.leb].
    assert (Hb : breakAt (c :: r') 0 = 0).
    { unfold breakAt. cbn [lastIndexOf]. destruct (Js.ascii_eqb c " "); reflexivity. }
    rewrite Hb. cbn [drop]. rewrite IH; [reflexivity|]. now rewrite trimStart_idem.
Qed.

Lemma wrapLines_stuck (width : nat) (rawLines : list text) (l : text) :
  In l rawLines -> wrapLine width l = None -> wrapLines width rawLines = None.
Proof.
  intros Hin Hl. induction rawLines as [|x rest IH]; [contradiction|].
  cbn [wrapLines]. destruct Hin as [-> | Hin].
  - now rewrite Hl.
  - rewrite (IH Hin). now destruct (wrapLine width x).
Qed.

(** X24.  With the width 0 the loop over a line never ends as soon as
    the line holds anything but white space: every turn pushes an empty
    line and leaves what remains as it was, its leading white space
    apart, which goes in the first turn.  So [wrapText(text, 0)] does
    not return for a text that holds a code unit other than white
    space. *)
Theorem zero_width_never_ends (s : text) :
  ink s <> [] ->
  wrapText s 0 = None
  /\ (forall fuel r, Js.trimStart r <> [] -> wrapLoop fuel 0 r = None)
  /\ (forall r, Js.trimStart r <> [] ->
        take (breakAt r 0) r = []
        /\ Js.trimStart (drop (breakAt r 0) r) = Js.trimStart r
        /\ Js.trimStart (Js.trimStart r) = Js.trimStart r).
Proof.
  intros Hink. split; [|split].
  - unfold wrapText. destruct s as [|c0 s0]; [contradiction|].
    cbn [Js.truthy negb].
    assert (Hline : exists l, In l (NodePath.split_on nl (c0 :: s0)) /\ ink l <> []).
    { rewrite <- ink_split in Hink.
      induction (NodePath.split_on nl (c0 :: s0)) as [|l ls IH]; [contradiction|].
      cbn [map concat] in Hink. destruct (ink l) eqn:El.
      - destruct (IH Hink) as [l' [Hin Hl']]. exists l'. split; [now right | exact Hl'].
      - exists l. split; [now left | congruence]. }
    destruct Hline as [l [Hin Hl]].
    rewrite (wrapLines_stuck 0 _ l Hin); [reflexivity|].
    unfold wrapLine. destruct l as [|c l']; [contradiction|].
    cbn [length Nat.leb]. apply wrapLoop_zero.
    intros E. apply Hl. now rewrite <- ink_trimStart, E.
  - intros fuel r. apply wrapLoop_zero.
  - intros r Hr. destruct r as [|c r']; [contradiction|].
    assert (Hb : forall x, x <> [] -> breakAt x 0 = 0).
    { intros [|d x] Hx; [contradiction|]. unfold breakAt. cbn [lastIndexOf].
      destruct (Js.ascii_eqb d " "); reflexivity. }
    rewrite (Hb (c :: r')) by discriminate. cbn [take drop].
    split; [reflexivity|]. split; [reflexivity | apply trimStart_idem].
Qed.

Lemma zero_width_witness : wrapText (txt " ok") 0 = None.
Proof.
  exact (proj1 (zero_width_never_ends (txt " ok") ltac:(vm_compute; discriminate))).
Defined.


(** ** The stream of the model *)

(** *** Lines that arrive in pieces *)

Lemma split_on_app (c : ascii) (a b : text) :
  NodePath.split_on c (a ++ b)
  = List.removelast (NodePath.split_on c a)
    ++ NodePath.split_on c (List.last (NodePath.split_on c a) [] ++ b).
Proof.
  induction a as [|d a IH]; [reflexivity|].
  cbn [app NodePath.split_on]. pose proof (split_on_nonempty c a) as Hne.
  destruct (Js.ascii_eqb d c) eqn:E.
  - rewrite IH. destruct (NodePath.split_on c a) as [|h t]; [contradiction|]. reflexivity.
  - rewrite IH. destruct (NodePath.split_on c a) as [|h t]; [contradiction|].
    destruct t as [|x t'].
    + cbn [List.removelast List.last app NodePath.split_on]. now rewrite E.
    + reflexivity.
Qed.

Lemma last_app_nonempty {A} (l l' : list A) (d : A) :
  l' <> [] -> List.last (l ++ l') d = List.last l' d.
Proof.
  intros H. rewrite (app_removelast_last d H) at 1.
  rewrite app_assoc. apply last_last.
Qed.

Lemma takeLines_next (seen value : text) :
  List.removelast (NodePath.split_on nl (seen ++ value))
  = List.removelast (NodePath.split_on nl seen)
    ++ fst (takeLines (List.last (NodePath.split_on nl seen) [] ++ value))
  /\ List.last (NodePath.split_on nl (seen ++ value)) []
     = snd (takeLines (List.last (NodePath.split_on nl seen) [] ++ value)).
Proof.
  rewrite split_on_app. unfold takeLines. cbn [fst snd].
  pose proof (split_on_nonempty nl (List.last (NodePath.split_on nl seen) [] ++ value)) as Hne.
  split.
  - now apply removelast_app.
  - now apply last_app_nonempty.
Qed.

Lemma relayLines_app (parse : text -> option Parsed) (l1 l2 : list text) :
  relayLines parse (l1 ++ l2) = relayLines parse l1 ++ relayLines parse l2.
Proof.
  induction l1 as [|x l1 IH]; [reflexivity|].
  cbn [app relayLines]. now rewrite IH, app_assoc.
Qed.

Lemma relay_from (parse : text -> option Parsed) (values : list text) (seen : text) :
  fold_left (relayValue parse) values
    (List.last (NodePath.split_on nl seen) [],
     relayLines parse (List.removelast (NodePath.split_on nl seen)))
  = (List.last (NodePath.split_on nl (seen ++ concat values)) [],
     relayLines parse (List.removelast (NodePath.split_on nl (seen ++ concat values)))).
Proof.
  revert seen. induction values as [|v values IH]; intros seen; cbn [fold_left concat].
  - now rewrite app_nil_r.
  - rewrite app_assoc, <- IH. f_equal.
    destruct (takeLines_next seen v) as [Hl Hb].
    unfold relayValue. cbn [fst snd].
    destruct (takeLines (List.last (NodePath.split_on nl seen) [] ++ v)) as [lines buffer].
    cbn [fst snd] in *. now rewrite Hl, Hb, relayLines_app.
Qed.

(** X25.  What the [/api/chat] handler writes to the browser does not
    depend on where the pieces of the model's response are cut: it is
    made, line by line, of the complete lines of the whole response --
    one event for each line that is not blank and parses, followed by
    the [[DONE]] event when the parsed object is done.  What follows
    the last line break of the response is never relayed. *)
Theorem relay_does_not_depend_on_the_pieces
    (parse : text -> option Parsed) (values : list text) :
  relayed parse values
  = relayLines parse (List.removelast (NodePath.split_on nl (concat values)))
  /\ (forall values', concat values' = concat values ->
        relayed parse values' = relayed parse values)
  /\ (forall tail, forallb (fun c => negb (Js.ascii_eqb c nl)) tail = true ->
        relayed parse (values ++ [tail]) = relayed parse values).
Proof.
  assert (H : forall vs, relayed parse vs
                = relayLines parse (List.removelast (NodePath.split_on nl (concat vs)))).
  { intros vs. unfold relayed.
    change (@nil ascii, @nil ascii)
      with (List.last (NodePath.split_on nl []) [],
            relayLines parse (List.removelast (NodePath.split_on nl []))).
    now rewrite relay_from. }
  split; [apply H|]. split.
  - intros values' E. now rewrite !H, E.
  - intros tail Htail. rewrite !H, concat_app. cbn [concat]. rewrite app_nil_r.
    destruct (takeLines_next (concat values) tail) as [Hl _]. rewrite Hl.
    unfold takeLines. cbn [fst].
    assert (Hfree : forallb (fun c => negb (Js.ascii_eqb c nl))
                      (List.last (NodePath.split_on nl (concat values)) [] ++ tail) = true).
    { rewrite forallb_app, Htail, andb_true_r.
      pose proof (split_on_pieces_free nl (concat values)) as Hp.
      pose proof (split_on_nonempty nl (concat values)) as Hne.
      rewrite (app_removelast_last [] Hne) in Hp.
      apply Forall_app in Hp as [_ Hp]. now inversion Hp. }
    rewrite (split_on_free nl _ Hfree). cbn [List.removelast]. now rewrite app_nil_r.
Qed.

(** *** The reader of the terminal *)

Lemma lineContents_app (parse : text -> option Parsed) (l1 l2 : list text) :
  Forall (fun line => forall p, parse line = Some p -> msg_done p = false) l1 ->
  lineContents parse (l1 ++ l2) = lineContents parse l1 ++ lineContents parse l2.
Proof.
  induction 1 as [|x l1 Hx Hrest IH]; [reflexivity|].
  cbn [app lineContents]. destruct (blank x); [exact IH|].
  destruct (parse x) as [p|] eqn:E; [|exact IH].
  rewrite (Hx p eq_refl), IH. now rewrite app_assoc.
Qed.

(** All complete lines but the last one. *)
Lemma Forall_removelast_app {A} (P : A -> Prop) (l1 l2 : list A) :
  l2 <> [] -> Forall P (List.removelast (l1 ++ l2)) -> Forall P l1.
Proof.
  intros Hne H. rewrite removelast_app in H by exact Hne.
  now apply Forall_app in H as [H _].
Qed.

Lemma received_from (parse : text -> option Parsed) (values : list text) (seen : text) :
  Forall (fun line => forall p, parse line = Some p -> msg_done p = false)
    (List.removelast (List.removelast (NodePath.split_on nl (seen ++ concat values)))) ->
  fold_left (readValue parse) values
    (List.last (NodePath.split_on nl seen) [],
     lineContents parse (List.removelast (NodePath.split_on nl seen)))
  = (List.last (NodePath.split_on nl (seen ++ concat values)) [],
     lineContents parse (List.removelast (NodePath.split_on nl (seen ++ concat values)))).
Proof.
  revert seen. induction values as [|v values IH]; intros seen Hdone;
    cbn [fold_left concat] in *.
  - now rewrite app_nil_r.
  - rewrite app_assoc in *. rewrite <- (IH _ Hdone). f_equal.
    destruct (takeLines_next seen v) as [Hl Hb].
    unfold readValue. cbn [fst snd].
    destruct (takeLines (List.last (NodePath.split_on nl seen) [] ++ v)) as [lines buffer]
      eqn:Et.
    cbn [fst snd] in *. rewrite Hl, Hb. f_equal.
    destruct lines as [|l0 lines0]; [now rewrite !app_nil_r|].
    apply eq_sym, lineContents_app.
    (* the lines read before belong to the lines that are not the last *)
    destruct (takeLines_next (seen ++ v) (concat values)) as [Hl' _].
    rewrite Hl', Hl in Hdone. rewrite <- app_assoc in Hdone.
    eapply (Forall_removelast_app _ _ _ _ Hdone).
    Unshelve. destruct (fst (takeLines _)); discriminate.
Qed.

(** X26.  When no complete line of the model's response other than
    the last one is a closing object, what the terminal hands to its
    display loop does not depend on where the pieces of the response are
    cut: it is the list of the contents of the complete lines of the
    whole response that are not blank, parse and carry a content.  So
    the text that is returned and what is displayed are the same for
    every way of cutting the same response. *)
Theorem reader_does_not_depend_on_the_pieces
    (parse : text -> option Parsed) (values : list text) :
  Forall (fun line => forall p, parse line = Some p -> msg_done p = false)
    (List.removelast (List.removelast (NodePath.split_on nl (concat values)))) ->
  received parse values
  = lineContents parse (List.removelast (NodePath.split_on nl (concat values)))
  /\ (forall values', concat values' = concat values ->
        received parse values' = received parse values
        /\ streamChat (received parse values') = streamChat (received parse values)
        /\ display (received parse values') = display (received parse values)).
Proof.
  intros Hdone.
  assert (H : forall vs, concat vs = concat values ->
            received parse vs
            = lineContents parse (List.removelast (NodePath.split_on nl (concat values)))).
  { intros vs E. unfold received.
    change (@nil ascii, @nil text)
      with (List.last (NodePath.split_on nl []) [],
            lineContents parse (List.removelast (NodePath.split_on nl []))).
    rewrite received_from; cbn [app snd]; now rewrite E. }
  split; [now apply H|].
  intros values' E. now rewrite (H values' E), (H values eq_refl).
Qed.

Lemma reader_pieces_witness :
  received Samples.parse0
    (map txt ["I will "; "check."] ++ [[nl]] ++ map txt ["# broken"]
       ++ [[nl]; [nl]] ++ map txt ["!Done"] ++ [[nl]] ++ map txt ["tail"])
  = map txt ["I will check."; "Done"]%string.
Proof.
  exact (proj1 (reader_does_not_depend_on_the_pieces Samples.parse0
                  (map txt ["I will "; "check."] ++ [[nl]] ++ map txt ["# broken"]
                     ++ [[nl]; [nl]] ++ map txt ["!Done"] ++ [[nl]] ++ map txt ["tail"])
                  ltac:(vm_compute; repeat constructor; intros p [= <-]; reflexivity))).
Defined.

Lemma received_one (parse : text -> option Parsed) (value : text) :
  received parse [value]
  = lineContents parse (List.removelast (NodePath.split_on nl value)).
Proof. reflexivity. Qed.

Lemma received_two (parse : text -> option Parsed) (v1 v2 : text) :
  received parse [v1; v2]
  = lineContents parse (List.removelast (NodePath.split_on nl v1))
    ++ lineContents parse
         (List.removelast
            (NodePath.split_on nl (List.last (NodePath.split_on nl v1) [] ++ v2))).
Proof. reflexivity. Qed.

(** X27.  The [break] on a closing object leaves only the loop over
    the lines of the piece at hand.  Complete lines that come after a
    closing line are skipped when they arrive in the same piece as that
    line, and are read when they arrive in a later piece: the cutting of
    the response shows in what the terminal receives. *)
Theorem lines_after_the_closing_line
    (parse : text -> option Parsed) (closing more : text) (p : Parsed) :
  forallb (fun c => negb (Js.ascii_eqb c nl)) closing = true ->
  blank closing = false ->
  parse closing = Some p ->
  msg_done p = true ->
  received parse [closing ++ nl :: more]
  = (if Js.truthy (msg_content p) then [default [] (msg_content p)] else [])
  /\ received parse [closing ++ [nl]; more]
     = (if Js.truthy (msg_content p) then [default [] (msg_content p)] else [])
       ++ lineContents parse (List.removelast (NodePath.split_on nl more)).
Proof.
  intros Hfree Hblank Hparse Hdone. split.
  - rewrite received_one, split_on_app_free by exact Hfree.
    pose proof (split_on_nonempty nl more) as Hne.
    destruct (NodePath.split_on nl more) as [|x xs]; [contradiction|].
    cbn [List.removelast lineContents]. rewrite Hblank, Hparse, Hdone.
    now rewrite app_nil_r.
  - rewrite received_two, split_on_app_free by exact Hfree.
    cbn [NodePath.split_on List.removelast List.last app lineContents].
    rewrite Hblank, Hparse, Hdone. now rewrite app_nil_r.
Qed.

Lemma closing_line_witness :
  received Samples.parse0 [txt "!Done" ++ nl :: txt "One more thing." ++ [nl]]
    = [txt "Done"]
  /\ received Samples.parse0 [txt "!Done" ++ [nl]; txt "One more thing." ++ [nl]]
     = [txt "Done"; txt "One more thing."].
Proof.
  exact (lines_after_the_closing_line Samples.parse0 (txt "!Done")
           (txt "One more thing." ++ [nl])
           (Wire.mkParsed (Some (txt "Done")) true (txt "!Done"))
           eq_refl eq_refl eq_refl eq_refl).
Defined.


(** ** Finding the OpenClaw installation *)

(** *** The validation record *)

(** The record [validateOpenclawDir] returns is consistent with
    the files.  When the directory does not exist every field is empty.
    When it exists, [hasConfig] tells whether [configPath] is set, and
    [configPath] is then the first of the fifteen candidate names,
    joined to the directory, that exists; [hasLogs] tells whether
    [logPaths] is non-empty, and [logPaths] holds exactly the candidate
    log paths that exist, in the order of the candidates. *)
Theorem validation_record_is_consistent (f : store) (dir : text) :
  v_exists (validateOpenclawDir f dir) = present f dir
  /\ (present f dir = false ->
      validateOpenclawDir f dir = mkValidation false false false None [])
  /\ (v_hasConfig (validateOpenclawDir f dir) = true
      <-> v_configPath (validateOpenclawDir f dir) <> None)
  /\ (forall p, v_configPath (validateOpenclawDir f dir) = Some p ->
        present f dir = true /\ present f p = true
        /\ exists before c after,
             configCandidates = before ++ c :: after
             /\ p = NodePath.join dir c
             /\ Forall (fun b => present f (NodePath.join dir b) = false) before)
  /\ (v_hasLogs (validateOpenclawDir f dir) = true
      <-> v_logPaths (validateOpenclawDir f dir) <> [])
  /\ (present f dir = true ->
      v_logPaths (validateOpenclawDir f dir)
      = List.filter (present f) (map (NodePath.join dir) logCandidates)
      /\ ((forall c, In c configCandidates -> present f (NodePath.join dir c) = false) ->
          v_configPath (validateOpenclawDir f dir) = None)).
Proof.
  assert (Hfind : forall l p,
            List.find (present f) (map (NodePath.join dir) l) = Some p ->
            present f p = true
            /\ exists before c after,
                 l = before ++ c :: after /\ p = NodePath.join dir c
                 /\ Forall (fun b => present f (NodePath.join dir b) = false) before).
  { induction l as [|c l IH]; intros p; cbn [map List.find]; [discriminate|].
    destruct (present f (NodePath.join dir c)) eqn:E.
    - intros [= <-]. split; [exact E|]. exists [], c, l. repeat split. constructor.
    - intros H. destruct (IH p H) as [Hp [before [c' [after [-> [-> Hb]]]]]].
      split; [exact Hp|]. exists (c :: before), c', after. repeat split.
      now constructor. }
  assert (Hnone : forall l,
            (forall c, In c l -> present f (NodePath.join dir c) = false) ->
            List.find (present f) (map (NodePath.join dir) l) = None).
  { induction l as [|c l IH]; intros H; [reflexivity|]. cbn [map List.find].
    rewrite (H c (or_introl eq_refl)). apply IH. intros c' Hc'. apply H. now right. }
  unfold validateOpenclawDir. destruct (present f dir) eqn:Ed; cbn [negb].
  - cbn [v_exists v_hasConfig v_hasLogs v_configPath v_logPaths].
    split; [reflexivity|]. split; [discriminate|]. split.
    { destruct (List.find _ _); split; congruence. }
    split.
    { intros p Hp. split; [reflexivity|]. now apply Hfind. }
    split.
    { destruct (List.filter _ _); split; congruence. }
    intros _. split; [reflexivity | apply Hnone].
  - cbn [v_exists v_hasConfig v_hasLogs v_configPath v_logPaths].
    split; [reflexivity|]. split; [reflexivity|]. split; [split; congruence|].
    split; [discriminate|]. split; [split; congruence | discriminate].
Qed.

(** *** The search for the installation *)

Lemma sound_none : sound_search (ret None).
Proof.
  intros st. exists None, st, []. rewrite app_nil_r.
  split; [reflexivity|]. split; [discriminate|]. split; [reflexivity | constructor].
Qed.

(** A lookup that returns the path it found to exist. *)
Lemma sound_exists (path : text) :
  sound_search (let* e := existsSync path in ret (if e then Some path else None)).
Proof.
  intros st. unfold bind. rewrite existsSync_run. unfold ret.
  eexists _, st, []. rewrite app_nil_r.
  split; [reflexivity|]. split; [|split; [reflexivity | constructor]].
  intros dir. unfold present.
  destruct (bool_decide (is_Some (fs st !! path))) eqn:E; [|discriminate].
  now intros [= <-].
Qed.

Lemma sound_orElse (a b : M (option text)) :
  sound_search a -> sound_search b -> sound_search (orElse a b).
Proof.
  intros Ha Hb st. unfold orElse, bind.
  destruct (Ha st) as [r [st1 [d1 [E1 [Hr1 [Ht1 Hd1]]]]]]. rewrite E1.
  destruct r as [dir|].
  - exists (Some dir), st1, d1. now repeat split.
  - destruct (Hb st1) as [r2 [st2 [d2 [E2 [Hr2 [Ht2 Hd2]]]]]].
    exists r2, st2, (d1 ++ d2). split; [exact E2|]. split; [exact Hr2|].
    split; [now rewrite Ht2, Ht1, <- app_assoc | now apply Forall_app].
Qed.

(** A probe, then a search that depends on what the probe printed. *)
Lemma sound_probe (h : Host) (cmd : text) (timeout : N) (k : option text -> M (option text)) :
  isProbe cmd -> (forall out, sound_search (k out)) ->
  sound_search (let* out := probe h cmd timeout in k out).
Proof.
  intros Hcmd Hk st. unfold probe, bind. rewrite spawn_run.
  set (st1 := mkState (snd (execSync h cmd (probeOptions timeout) (fs st)))
                (trace st ++ [Spawned cmd (probeOptions timeout)])).
  assert (Hstep : forall out, exists r st' delta,
            k out st1 = (Return r, st')
            /\ (forall dir, r = Some dir -> present (fs st') dir = true)
            /\ trace st' = trace st ++ delta
            /\ Forall (fun e => exists cmd opts, e = Spawned cmd opts /\ isProbe cmd) delta).
  { intros out. destruct (Hk out st1) as [r [st' [d [E [Hr [Ht Hd]]]]]].
    exists r, st', ([Spawned cmd (probeOptions timeout)] ++ d).
    split; [exact E|]. split; [exact Hr|]. split.
    - rewrite Ht. unfold st1. cbn [trace]. now rewrite <- app_assoc.
    - apply Forall_app. split; [|exact Hd]. constructor; [eauto | constructor]. }
  destruct (fst (execSync h cmd (probeOptions timeout) (fs st))) as [output|e];
    unfold ret; apply Hstep.
Qed.

Lemma sound_firstExisting (dirs : list text) : sound_search (firstExisting dirs).
Proof.
  induction dirs as [|dir rest IH]; [apply sound_none|].
  intros st. cbn [firstExisting]. unfold bind. rewrite existsSync_run.
  destruct (bool_decide (is_Some (fs st !! dir))) eqn:E.
  - exists (Some dir), st, []. rewrite app_nil_r.
    split; [reflexivity|]. split; [|split; [reflexivity | constructor]].
    now intros d [= <-].
  - apply IH.
Qed.

Lemma sound_fromCommand (parts : list text) : sound_search (fromCommand parts).
Proof.
  unfold fromCommand. destruct (11 <=? length parts); [|apply sound_none].
  destruct (Js.startsWith (nth 10 parts []) (txt "/")); [|apply sound_none].
  apply sound_exists.
Qed.

Lemma sound_fromPid (h : Host) (parts : list text) : sound_search (fromPid h parts).
Proof.
  unfold fromPid. destruct (nth_error parts 1) as [pid|]; [|apply sound_none].
  destruct (Js.truthy (Some pid) && allDigits pid) eqn:E; [|apply sound_none].
  apply andb_prop in E as [_ Hd].
  apply sound_probe.
  - right; right; right. now exists pid.
  - intros [cwd|]; [|apply sound_none].
    destruct (Js.truthy (Some cwd)); [apply sound_exists | apply sound_none].
Qed.

Lemma sound_fromProcesses (h : Host) (lines : list text) :
  sound_search (fromProcesses h lines).
Proof.
  induction lines as [|line rest IH]; [apply sound_none|].
  cbn [fromProcesses].
  apply (sound_orElse (fromCommand (splitSpaces false (Js.trim line)))
           (orElse (fromPid h (splitSpaces false (Js.trim line))) (fromProcesses h rest))).
  - apply sound_fromCommand.
  - apply sound_orElse; [apply sound_fromPid | exact IH].
Qed.

Lemma sound_fromPs (h : Host) : sound_search (fromPs h).
Proof.
  unfold fromPs. apply sound_probe; [now left|].
  intros [psOutput|]; [|apply sound_none].
  destruct (Js.truthy (Some psOutput)); [apply sound_fromProcesses | apply sound_none].
Qed.

Lemma sound_fromPath (h : Host) : sound_search (fromPath h).
Proof.
  unfold fromPath. apply sound_probe; [right; now left|].
  intros [binPath|]; [|apply sound_none].
  destruct (Js.truthy (Some binPath)); [apply sound_exists | apply sound_none].
Qed.

Lemma sound_fromHome (h : Host) : sound_search (fromHome h).
Proof.
  unfold fromHome. apply sound_probe; [right; right; now left|].
  intros [homeHits|]; [|apply sound_none].
  destruct (Js.truthy (Some homeHits)); [apply sound_exists | apply sound_none].
Qed.

Lemma sound_detect (h : Host) :
  sound_search
    (orElse (firstExisting candidates)
       (orElse (fromPs h) (orElse (fromPath h) (fromHome h)))).
Proof.
  repeat apply sound_orElse;
    auto using sound_firstExisting, sound_fromPs, sound_fromPath, sound_fromHome.
Qed.

(** X28.  [detectOpenclawDir] always returns, and what it returns is
    either a directory that exists when it returns or the default
    ["/opt/openclaw"]. *)
Theorem detected_directory_exists_or_is_the_default (h : Host) (st : State) :
  exists dir st',
    detectOpenclawDir h st = (Return dir, st')
    /\ (dir = DEFAULTS_openclaw_dir \/ present (fs st') dir = true).
Proof.
  destruct (sound_detect h st) as [r [st' [delta [E [Hr _]]]]].
  unfold detectOpenclawDir, bind. rewrite E. unfold ret.
  exists (default DEFAULTS_openclaw_dir r), st'. split; [reflexivity|].
  destruct r as [dir|]; [right; now apply Hr | now left].
Qed.

(** X29.  The only commands [detectOpenclawDir] hands to the shell are
    its three fixed probes and [readlink /proc/<pid>/cwd] for a [<pid>]
    made of decimal digits only: nothing that a line of the [ps] output
    holds can reach the shell otherwise.  It makes no other change to
    the outside. *)
Theorem detection_spawns_only_its_probes (h : Host) (st : State) :
  exists delta,
    trace (snd (detectOpenclawDir h st)) = trace st ++ delta
    /\ Forall (fun e => exists cmd opts, e = Spawned cmd opts /\ isProbe cmd) delta.
Proof.
  destruct (sound_detect h st) as [r [st' [delta [E [_ [Ht Hd]]]]]].
  unfold detectOpenclawDir, bind. rewrite E. unfold ret. cbn [snd].
  now exists delta.
Qed.

Lemma firstExisting_hit (before : list text) (c : text) (after : list text) (st : State) :
  Forall (fun b => present (fs st) b = false) before ->
  present (fs st) c = true ->
  firstExisting (before ++ c :: after) st = (Return (Some c), st).
Proof.
  intros Hb Hc. induction Hb as [|b before Hb Hrest IH]; cbn [app firstExisting];
    unfold bind; rewrite existsSync_run.
  - unfold present in Hc. now rewrite Hc.
  - unfold present in Hb. now rewrite Hb.
Qed.

(** X30.  When one of the four usual installation directories exists,
    [detectOpenclawDir] returns the first of them that does, in the
    order [/opt/openclaw], [/usr/local/openclaw], [/etc/openclaw],
    [/opt/OpenClaw], without starting any process. *)
Theorem usual_directory_is_found_without_probing
    (h : Host) (st : State) (before : list text) (c : text) (after : list text) :
  candidates = before ++ c :: after ->
  Forall (fun b => present (fs st) b = false) before ->
  present (fs st) c = true ->
  detectOpenclawDir h st = (Return c, st).
Proof.
  intros Hc Hb Hp. unfold detectOpenclawDir, orElse, bind at 1 2.
  rewrite Hc, (firstExisting_hit before c after st Hb Hp). reflexivity.
Qed.

Lemma usual_directory_witness :
  detectOpenclawDir Fixtures.host0
    (mkState (<[txt "/opt/OpenClaw" := Dir]> (<[txt "/etc/openclaw" := Dir]> ∅)) [])
  = (Return (txt "/etc/openclaw"),
     mkState (<[txt "/opt/OpenClaw" := Dir]> (<[txt "/etc/openclaw" := Dir]> ∅)) []).
Proof.
  apply (usual_directory_is_found_without_probing Fixtures.host0 _
           (map txt ["/opt/openclaw"; "/usr/local/openclaw"]%string)
           (txt "/etc/openclaw") [txt "/opt/OpenClaw"]).
  - reflexivity.
  - repeat constructor.
  - reflexivity.
Defined.
